(** * Alibaba image scraper: URL extraction, canonicalization, ranking,
      retrieval and retry, embedded from [scraper.js]

    The development follows the revised scraper (the revision with the
    exclusion filter, the query-string handling, the ranking step and the
    download deduplication) and keeps the upgrade step of the first
    revision for comparison.  JavaScript strings are modelled
    as lists of 8-bit characters (code units below 256), regular
    expressions by a small backtracking matcher with JavaScript's greedy,
    leftmost-first priorities, [Set] objects as duplicate-free lists in
    insertion order and the product [Map] as a finite map. *)

From stdpp Require Import base list strings gmap sorting.
From Stdlib Require Import Ascii String ZArith Lia.
From Stdlib Require DecimalString DecimalNat.

Open Scope string_scope.
Open Scope list_scope.

(** ** JavaScript strings *)

Definition str := list ascii.

Coercion list_ascii_of_string : string >-> list.

Module Js.

(** [WhiteSpace] and [LineTerminator] code units below 256: TAB, LF, VT,
    FF, CR, SPACE and NBSP.  This is the class behind [\s] and [trim]. *)
Definition isSpace (c : ascii) : bool :=
  let n := nat_of_ascii c in
  (Nat.leb 9 n && Nat.leb n 13) || Nat.eqb n 32 || Nat.eqb n 160.

Definition isDigit (c : ascii) : bool :=
  let n := nat_of_ascii c in Nat.leb 48 n && Nat.leb n 57.

Definition isUpper (c : ascii) : bool :=
  let n := nat_of_ascii c in Nat.leb 65 n && Nat.leb n 90.

Definition isLower (c : ascii) : bool :=
  let n := nat_of_ascii c in Nat.leb 97 n && Nat.leb n 122.

(** ASCII lower-casing: under the [i] flag a pattern letter matches
    exactly its two ASCII cases. *)
Definition lower (c : ascii) : ascii :=
  if isUpper c then ascii_of_nat (nat_of_ascii c + 32) else c.

Definition eqc (a b : ascii) : bool := Ascii.eqb a b.
Definition eqci (a b : ascii) : bool := Ascii.eqb (lower a) (lower b).

(** [s.startsWith(p)] *)
Fixpoint startsWith (p s : str) : bool :=
  match p, s with
  | [], _ => true
  | a :: p', b :: s' => eqc a b && startsWith p' s'
  | _ :: _, [] => false
  end.

(** [s.includes(p)] *)
Fixpoint includes (p s : str) : bool :=
  startsWith p s ||
  match s with
  | [] => false
  | _ :: s' => includes p s'
  end.

Fixpoint trimStart (s : str) : str :=
  match s with
  | c :: s' => if isSpace c then trimStart s' else s
  | [] => []
  end.

Definition trimEnd (s : str) : str := rev (trimStart (rev s)).

(** [s.trim()] *)
Definition trim (s : str) : str := trimEnd (trimStart s).

(** [s.split(sep)] for a one-character separator: always at least one
    part, [parts[0]] is the text before the first separator. *)
Fixpoint split (sep : ascii) (s : str) : list str :=
  match s with
  | [] => [[]]
  | c :: s' =>
      if eqc c sep then [] :: split sep s'
      else match split sep s' with
           | h :: t => (c :: h) :: t
           | [] => [[c]]
           end
  end.

Fixpoint takeWhile (f : ascii -> bool) (s : str) : str :=
  match s with
  | c :: s' => if f c then c :: takeWhile f s' else []
  | [] => []
  end.

(** *** Numbers

    The numbers that the ranking computes with: the integers that are
    doubles, the two infinities and [NaN].  (The sign of zero plays no
    part: [-0 === 0] holds.) *)
Inductive number : Type :=
| Num (z : Z)
| PosInf
| NegInf
| NaN.

(** The double nearest to the integer [n >= 0], below the overflow
    threshold: integers below 2^53 are doubles; from there on the value
    is rounded to 53 significant bits, ties to the even one. *)
Definition nearest (n : Z) : Z :=
  if (n <? 2 ^ 53)%Z then n
  else
    let e := (Z.log2 n - 52)%Z in
    let q := Z.shiftr n e in
    let r := (n - Z.shiftl q e)%Z in
    let half := Z.shiftl 1 (e - 1) in
    let q' := if (r <? half)%Z then q
              else if (half <? r)%Z then (q + 1)%Z
              else if Z.even q then q else (q + 1)%Z in
    Z.shiftl q' e.

(** The number for the mathematical integer [n]: the nearest double,
    an infinity when that is 2^1024 or more in magnitude. *)
Definition ofZ (n : Z) : number :=
  let m := nearest (Z.abs n) in
  if (2 ^ 1024 <=? m)%Z then (if (n <? 0)%Z then NegInf else PosInf)
  else Num (Z.sgn n * m).

(** [a - b] *)
Definition sub (a b : number) : number :=
  match a, b with
  | NaN, _ | _, NaN => NaN
  | Num x, Num y => ofZ (x - y)
  | Num _, PosInf => NegInf
  | Num _, NegInf => PosInf
  | PosInf, PosInf => NaN
  | PosInf, _ => PosInf
  | NegInf, NegInf => NaN
  | NegInf, _ => NegInf
  end.

(** [a === 0] *)
Definition isZero (a : number) : bool :=
  match a with
  | Num z => (z =? 0)%Z
  | _ => false
  end.

(** What [Array.prototype.sort] makes of the value [v] returned by its
    comparator: [NaN] counts as zero, otherwise the sign decides. *)
Definition sortCompare (v : number) : Z :=
  match v with
  | Num z => z
  | PosInf => 1%Z
  | NegInf => (-1)%Z
  | NaN => 0%Z
  end.

(** The mathematical integer written by a string of decimal digits. *)
Definition digitVal (c : ascii) : Z := Z.of_nat (nat_of_ascii c) - 48.

Definition decimalValue (s : str) : Z :=
  fold_left (fun acc c => 10 * acc + digitVal c)%Z s 0%Z.

(** [parseInt] of a string of decimal digits (the only shape the
    scraper passes to it): the number for the integer it writes,
    rounded as V8 does it. *)
Definition parseInt (s : str) : number := ofZ (decimalValue s).

End Js.

(** ** Regular expressions

    The fragment of JavaScript regular expressions that the scraper uses:
    character classes, concatenation, alternation, greedy repetition of a
    character class, optional groups and the end anchor.  The matcher is a
    backtracking matcher in continuation-passing style; alternatives are
    tried left to right and repetition is greedy, as in JavaScript. *)

Module Regex.

Inductive re : Type :=
| Eps
| Chr (p : ascii -> bool)
| Seq (r1 r2 : re)
| Alt (r1 r2 : re)
| Star (p : ascii -> bool)
| Eol.

Definition Opt (r : re) : re := Alt r Eps.
Definition Plus (p : ascii -> bool) : re := Seq (Chr p) (Star p).

(** A literal, compared with [eq] (case-sensitive [Js.eqc] or, under the
    [i] flag, [Js.eqci]). *)
Fixpoint Lit (eq : ascii -> ascii -> bool) (s : str) : re :=
  match s with
  | [] => Eps
  | c :: s' => Seq (Chr (eq c)) (Lit eq s')
  end.

Fixpoint Alts (rs : list re) : re :=
  match rs with
  | [] => Chr (fun _ => false)
  | [r] => r
  | r :: rs' => Alt r (Alts rs')
  end.

Fixpoint Seqs (rs : list re) : re :=
  match rs with
  | [] => Eps
  | [r] => r
  | r :: rs' => Seq r (Seqs rs')
  end.

Section Matcher.
Context {A : Type}.

Fixpoint mstar (p : ascii -> bool) (k : str -> option A) (s : str) : option A :=
  match s with
  | c :: s' =>
      if p c then
        match mstar p k s' with
        | Some x => Some x
        | None => k s
        end
      else k s
  | [] => k s
  end.

(** [m r k s]: match [r] at the start of [s], then continue with [k] on
    the remaining input; [None] makes the matcher backtrack. *)
Fixpoint m (r : re) (k : str -> option A) (s : str) : option A :=
  match r with
  | Eps => k s
  | Chr p =>
      match s with
      | c :: s' => if p c then k s' else None
      | [] => None
      end
  | Seq r1 r2 => m r1 (m r2 k) s
  | Alt r1 r2 =>
      match m r1 k s with
      | Some x => Some x
      | None => m r2 k s
      end
  | Star p => mstar p k s
  | Eol =>
      match s with
      | [] => k s
      | _ :: _ => None
      end
  end.

End Matcher.

(** The input left after the match of [r] at the start of [s]. *)
Definition matchAt (r : re) (s : str) : option str := m r Some s.

(** Leftmost match: text before, matched text, text after. *)
Fixpoint search (r : re) (s : str) : option (str * str * str) :=
  match matchAt r s with
  | Some rest => Some ([], take (List.length s - List.length rest) s, rest)
  | None =>
      match s with
      | [] => None
      | c :: s' =>
          match search r s' with
          | Some (pre, mt, post) => Some (c :: pre, mt, post)
          | None => None
          end
      end
  end.

(** [re.test(s)], and the truthiness of [s.match(re)], for a regular
    expression without the [g] flag. *)
Definition test (r : re) (s : str) : bool :=
  match search r s with
  | Some _ => true
  | None => false
  end.

(** [s.match(re)] for a regular expression with the [g] flag: all
    matches, left to right, each search resuming where the previous match
    ended (one character further after an empty match). *)
Fixpoint matchAllFrom (fuel : nat) (r : re) (s : str) : list str :=
  match fuel with
  | 0 => []
  | S fuel' =>
      match search r s with
      | None => []
      | Some (_, mt, post) =>
          mt :: match mt, post with
                | [], [] => []
                | [], _ :: post' => matchAllFrom fuel' r post'
                | _ :: _, _ => matchAllFrom fuel' r post
                end
      end
  end.

Definition matchAll (r : re) (s : str) : list str :=
  matchAllFrom (S (List.length s)) r s.

(** [s.replace(re, f)] without the [g] flag: only the leftmost match is
    replaced; [f] computes the replacement from the matched text. *)
Definition replaceFirst (r : re) (f : str -> str) (s : str) : str :=
  match search r s with
  | Some (pre, mt, post) => pre ++ f mt ++ post
  | None => s
  end.

(** [s.replace(re, f)] with the [g] flag. *)
Fixpoint replaceAllFrom (fuel : nat) (r : re) (f : str -> str) (s : str) : str :=
  match fuel with
  | 0 => s
  | S fuel' =>
      match search r s with
      | None => s
      | Some (pre, mt, post) =>
          pre ++ f mt ++
          match mt, post with
          | [], [] => []
          | [], c :: post' => c :: replaceAllFrom fuel' r f post'
          | _ :: _, _ => replaceAllFrom fuel' r f post
          end
      end
  end.

Definition replaceAll (r : re) (f : str -> str) (s : str) : str :=
  replaceAllFrom (S (List.length s)) r f s.

End Regex.

Import Js Regex.

(** ** Patterns of the scraper *)

Module Pat.

Definition dquote : ascii := ascii_of_nat 34.
Definition squote : ascii := ascii_of_nat 39.

(** The class U of the comments below: any character but a double quote,
    a single quote or white space (a negated class of three items in the
    source).  In these comments a blank is added where a star would
    otherwise be followed by a closing parenthesis. *)
Definition urlChar (c : ascii) : bool :=
  negb (eqc c dquote || eqc c squote || isSpace c).

(** The class of the two quote characters. *)
Definition quoteChar (c : ascii) : bool :=
  eqc c squote || eqc c dquote.

(** [[^;]] *)
Definition notSemi (c : ascii) : bool := negb (eqc c ";"%char).

(** [[A-Za-z0-9+/=]] *)
Definition base64Char (c : ascii) : bool :=
  isUpper c || isLower c || isDigit c || eqc c "+"%char || eqc c "/"%char || eqc c "="%char.

(** [.] : any character but a line terminator *)
Definition dot (c : ascii) : bool :=
  negb (Nat.eqb (nat_of_ascii c) 10 || Nat.eqb (nat_of_ascii c) 13).

(** [(?:jpg|jpeg|png|webp|gif)] under the [i] flag *)
Definition imgExt : re :=
  Alts [Lit eqci "jpg"; Lit eqci "jpeg"; Lit eqci "png"; Lit eqci "webp"; Lit eqci "gif"].

(** [(?:\?U* )?] *)
Definition optQuery : re := Opt (Seq (Chr (eqc "?"%char)) (Star urlChar)).

(** [https?:\/\/] under the [i] flag *)
Definition scheme : re := Seqs [Lit eqci "http"; Opt (Chr (eqci "s"%char)); Lit eqci "://"].

(** The six [imagePatterns] of [extractFromResponse], in source order
    (all with flags [gi]). *)
Definition imagePatterns : list re :=
  [ (* /https?:\/\/s\.alicdn\.com\/@sc\d+\/kf\/U+\.(?:jpg|jpeg|png|webp|gif)(?:\?U* )?/gi *)
    Seqs [scheme; Lit eqci "s.alicdn.com/@sc"; Plus isDigit; Lit eqci "/kf/";
          Plus urlChar; Chr (eqc "."%char); imgExt; optQuery];
    (* /https?:\/\/sc\d+\.alicdn\.com\/kf\/U+\.(?:jpg|jpeg|png|webp|gif)(?:\?U* )?/gi *)
    Seqs [scheme; Lit eqci "sc"; Plus isDigit; Lit eqci ".alicdn.com/kf/";
          Plus urlChar; Chr (eqc "."%char); imgExt; optQuery];
    (* /https?:\/\/U*\.alicdn\.comU+\.(?:jpg|jpeg|png|webp|gif)(?:\?U* )?/gi *)
    Seqs [scheme; Star urlChar; Lit eqci ".alicdn.com";
          Plus urlChar; Chr (eqc "."%char); imgExt; optQuery];
    (* /https?:\/\/U+_(?:960x960|800x800|1200x1200|1600x1600)U*\.(?:jpg|jpeg|png|webp|gif)/gi *)
    Seqs [scheme; Plus urlChar; Chr (eqc "_"%char);
          Alts [Lit eqci "960x960"; Lit eqci "800x800"; Lit eqci "1200x1200"; Lit eqci "1600x1600"];
          Star urlChar; Chr (eqc "."%char); imgExt];
    (* /https?:\/\/U+\.(?:jpg|jpeg|png|webp|gif)(?:\?U* )?/gi *)
    Seqs [scheme; Plus urlChar; Chr (eqc "."%char); imgExt; optQuery];
    (* /data:image\/[^;]+;base64,[A-Za-z0-9+/=]+/gi *)
    Seqs [Lit eqci "data:image/"; Plus notSemi; Lit eqci ";base64,"; Plus base64Char] ].

(** [/tps-\d+-\d+\.(?:png|svg)/i] *)
Definition tpsTile : re :=
  Seqs [Lit eqci "tps-"; Plus isDigit; Chr (eqc "-"%char); Plus isDigit;
        Chr (eqc "."%char); Alts [Lit eqci "png"; Lit eqci "svg"]].

(** [/_20x20|_40x40|_48x48|_60x60|_80x80/i] *)
Definition smallUi : re :=
  Alts [Lit eqci "_20x20"; Lit eqci "_40x40"; Lit eqci "_48x48";
        Lit eqci "_60x60"; Lit eqci "_80x80"].

(** [excludePatterns] of [extractFromResponse]; the same list is the
    [skipPatterns] of the URL selection in [scrapeProductPage]. *)
Definition excludePatterns : list re :=
  [ Lit eqci "imgextra"; Lit eqci "icon"; Lit eqci "flag"; Lit eqci "logo";
    smallUi; tpsTile ].

(** [/_960x960|_800x800|_1200x1200|_1600x1600/], with the comparison of
    letters as a parameter: the extractor uses it case-sensitively, the
    response handler with the [i] flag. *)
Definition highRes (eq : ascii -> ascii -> bool) : re :=
  Alts [Lit eq "_960x960"; Lit eq "_800x800"; Lit eq "_1200x1200"; Lit eq "_1600x1600"].

(** [/_50x50|_100x100|_80x80/] *)
Definition lowRes (eq : ascii -> ascii -> bool) : re :=
  Alts [Lit eq "_50x50"; Lit eq "_100x100"; Lit eq "_80x80"].

(** [/_50x50|_80x80|_100x100/], the order of the response handler *)
Definition lowRes' (eq : ascii -> ascii -> bool) : re :=
  Alts [Lit eq "_50x50"; Lit eq "_80x80"; Lit eq "_100x100"].

(** [/_\d+x\d+/] *)
Definition anySize : re :=
  Seqs [Chr (eqc "_"%char); Plus isDigit; Chr (eqc "x"%char); Plus isDigit].

(** [/\.(jpg|jpeg|png|webp|gif)$/i] *)
Definition extAtEnd : re := Seqs [Chr (eqc "."%char); imgExt; Eol].

(** [/_\d+x\d+q?\d*\.(jpg|jpeg|png|webp|gif)$/i] *)
Definition sizeSuffix : re :=
  Seqs [Chr (eqc "_"%char); Plus isDigit; Chr (eqci "x"%char); Plus isDigit;
        Opt (Chr (eqci "q"%char)); Star isDigit; Chr (eqc "."%char); imgExt; Eol].

(** The quote class with the [g] flag. *)
Definition quotes : re := Chr quoteChar.

End Pat.

(** ** ImageUrlExtractor *)

Module ImageUrlExtractor.

(** A JavaScript [Set] of strings: duplicate-free, in insertion order
    (the order [Array.from] yields). *)
Definition setAdd (x : str) (s : list str) : list str :=
  if decide (x ∈ s) then s else s ++ [x].

(** [Array.from(new Set(xs))] *)
Definition setFrom (xs : list str) : list str :=
  fold_left (fun s x => setAdd x s) xs [].

(** The extractor object: [imageUrls] and [productImages]. *)
Record store : Type := Store {
  imageUrls : list str;
  productImages : gmap str (list str)
}.

Definition empty : store := Store [] ∅.

(** [clear()] *)
Definition clear (st : store) : store := empty.

(** [getAllUrls()] *)
Definition getAllUrls (st : store) : list str := imageUrls st.

(** [getProductUrls(productId)] *)
Definition getProductUrls (productId : str) (st : store) : list str :=
  match productImages st !! productId with
  | Some s => s
  | None => []
  end.

(** Truthiness of the [productId] argument: [null] and the empty string
    are falsy. *)
Definition truthy (productId : option str) : option str :=
  match productId with
  | Some (c :: p) => Some (c :: p)
  | _ => None
  end.

(** [match.replace(QUOTES, '').trim()] *)
Definition cleanUp (mt : str) : str :=
  trim (replaceAll Pat.quotes (fun _ => []) mt).

Definition isDataUri (cleanUrl : str) : bool := startsWith "data:" cleanUrl.

(** [excludePatterns.some(exclude => exclude.test(cleanUrl))] *)
Definition isExcluded (cleanUrl : str) : bool :=
  existsb (fun exclude => test exclude cleanUrl) Pat.excludePatterns.

(** [urlParts[1] ? '?' + urlParts[1] : ''] *)
Definition queryOf (urlParts : list str) : str :=
  match urlParts with
  | _ :: (c :: q) :: _ => "?" ++ (c :: q)
  | _ => []
  end.

(** [urlParts[0]] *)
Definition baseOf (urlParts : list str) : str :=
  match urlParts with
  | b :: _ => b
  | [] => []
  end.

Definition hiResSuffix : str := "_960x960q80".

(** The replacement ['_960x960q80.$1'] for [Pat.extAtEnd]: the match is
    the dot followed by group 1. *)
Definition insertSuffix (mt : str) : str := hiResSuffix ++ mt.

(** The upgrade step of [extractFromResponse] (the three-way [if] on the
    size markers). *)
Definition upgradeUrl (cleanUrl : str) : str :=
  if test (Pat.highRes eqc) cleanUrl then cleanUrl
  else if test (Pat.lowRes eqc) cleanUrl then
    let urlParts := split "?"%char cleanUrl in
    let baseUrl := baseOf urlParts in
    let queryString := queryOf urlParts in
    replaceAll (Pat.lowRes eqc) (fun _ => hiResSuffix) baseUrl ++ queryString
  else if includes "alicdn.com" cleanUrl && negb (test Pat.anySize cleanUrl) then
    let urlParts := split "?"%char cleanUrl in
    let baseUrl := baseOf urlParts in
    let queryString := queryOf urlParts in
    if test Pat.extAtEnd baseUrl && negb (test Pat.anySize baseUrl)
    then replaceFirst Pat.extAtEnd insertSuffix baseUrl ++ queryString
    else cleanUrl
  else cleanUrl.

(** The canonicalization of one candidate: quote and white-space
    trimming, rejection of data URIs, then the upgrade step. *)
Definition canonicalize (raw : str) : option str :=
  let cleanUrl := cleanUp raw in
  if isDataUri cleanUrl then None else Some (upgradeUrl cleanUrl).

(** [this.imageUrls.add(cleanUrl)] and, for a truthy [productId], the
    insertion into its set in [productImages]. *)
Definition addUrl (productId : option str) (cleanUrl : str) (st : store) : store :=
  let urls := setAdd cleanUrl (imageUrls st) in
  match truthy productId with
  | Some pid =>
      Store urls (<[pid := setAdd cleanUrl (getProductUrls pid st)]> (productImages st))
  | None => Store urls (productImages st)
  end.

(** The body of [matches.forEach]: the state is the store and the local
    [found]. *)
Definition processMatch (productId : option str) (acc : store * bool) (mt : str)
  : store * bool :=
  let cleanUrl := cleanUp mt in
  if isDataUri cleanUrl then acc
  else if isExcluded cleanUrl then acc
  else (addUrl productId (upgradeUrl cleanUrl) acc.1, true).

(** The body of [imagePatterns.forEach]. *)
Definition processPattern (bodyString : str) (productId : option str)
    (acc : store * bool) (pattern : re) : store * bool :=
  fold_left (processMatch productId) (matchAll pattern bodyString) acc.

(** [extractFromResponse(url, responseBody, productId)] for a string
    body; the [url] argument is not used by the source.  Returns the
    store after the call and the returned [found]. *)
Definition extractFromResponse (bodyString : str) (productId : option str)
    (st : store) : store * bool :=
  fold_left (processPattern bodyString productId) Pat.imagePatterns (st, false).

End ImageUrlExtractor.

Import ImageUrlExtractor.

(** ** The earlier revision of the upgrade step

    The first revision of [extractFromResponse] rewrites thumbnail
    markers on the whole string and has no other branch. *)

Module Earlier.

(** [/_50x50|_100x100/g] *)
Definition thumbnail : re := Alts [Lit eqc "_50x50"; Lit eqc "_100x100"].

Definition upgradeUrl (cleanUrl : str) : str :=
  if includes "_50x50" cleanUrl || includes "_100x100" cleanUrl
  then replaceAll thumbnail (fun _ => "_800x800" : str) cleanUrl
  else cleanUrl.

Definition canonicalize (raw : str) : option str :=
  let cleanUrl := cleanUp raw in
  if isDataUri cleanUrl then None else Some (upgradeUrl cleanUrl).

End Earlier.

(** ** The response handler: direct image responses

    The second half of the handler installed by
    [setupNetworkInterception]: a response whose URL looks like an image
    is recorded in [imageUrls], bypassing [extractFromResponse]. *)

Module Interception.

(** [/\.(jpg|jpeg|png|webp|gif)(\?|$)/i] *)
Definition imageUrl : re :=
  Seqs [Chr (eqc "."%char); Pat.imgExt; Alt (Chr (eqc "?"%char)) Eol].

(** [skipPatterns] of the handler. *)
Definition skipPatterns : list re :=
  [ Pat.lowRes' eqci; Lit eqci "thumbnail"; Lit eqci "imgextra";
    Lit eqci "icon"; Lit eqci "flag"; Lit eqci "logo"; Pat.tpsTile ].

Definition shouldSkip (url : str) : bool :=
  existsb (fun pattern => test pattern url) skipPatterns.

(** The local [imageUrl] computed by the handler. *)
Definition upgradeDirect (url : str) : str :=
  if negb (test (Pat.highRes eqci) url) then
    if test (Pat.lowRes' eqci) url then
      let urlParts := split "?"%char url in
      let baseUrl := baseOf urlParts in
      let queryString := queryOf urlParts in
      replaceAll (Pat.lowRes' eqc) (fun _ => hiResSuffix) baseUrl ++ queryString
    else if negb (test Pat.anySize url) then
      let urlParts := split "?"%char url in
      let baseUrl := baseOf urlParts in
      let queryString := queryOf urlParts in
      if test Pat.extAtEnd baseUrl && negb (test Pat.anySize baseUrl)
      then replaceFirst Pat.extAtEnd insertSuffix baseUrl ++ queryString
      else url
    else url
  else url.

(** The effect of one image response on the store. *)
Definition interceptImage (url : str) (st : store) : store :=
  if test imageUrl url then
    if negb (shouldSkip url) && includes "alicdn.com" url
    then Store (setAdd (upgradeDirect url) (imageUrls st)) (productImages st)
    else st
  else st.

End Interception.

(** ** URL selection and ranking in [scrapeProductPage] *)

Module Ranking.

(** [/sc\d+\.alicdn\.com|_960x960|_800x800|_1200x1200|_1600x1600/i] *)
Definition hasHighRes : re :=
  Alts [Seqs [Lit eqci "sc"; Plus isDigit; Lit eqci ".alicdn.com"];
        Lit eqci "_960x960"; Lit eqci "_800x800"; Lit eqci "_1200x1200";
        Lit eqci "_1600x1600"].

(** [/sc\d+\.alicdn\.com/i] *)
Definition scSubdomain : re :=
  Seqs [Lit eqci "sc"; Plus isDigit; Lit eqci ".alicdn.com"].

(** [/_\d+x\d+.*_\d+x\d+/] *)
Definition doubleSize : re := Seqs [Pat.anySize; Star Pat.dot; Pat.anySize].

(** [/imgextra|icon|flag|logo|_20x20|_40x40|_48x48|_60x60|_80x80/i] *)
Definition fallbackSkip : re :=
  Alts [Lit eqci "imgextra"; Lit eqci "icon"; Lit eqci "flag"; Lit eqci "logo";
        Lit eqci "_20x20"; Lit eqci "_40x40"; Lit eqci "_48x48";
        Lit eqci "_60x60"; Lit eqci "_80x80"].

(** The predicate of the first [allUrls.filter]. *)
Definition qualifies (url : str) : bool :=
  if negb (includes "alicdn.com" url) then false
  else if existsb (fun pattern => test pattern url) Pat.excludePatterns then false
  else
    let hasHighRes := test hasHighRes url in
    let isKfProduct := includes "alicdn.com/kf/" url && negb (test doubleSize url) in
    let isScSubdomain := test scSubdomain url in
    hasHighRes || isKfProduct || isScSubdomain.

(** [a.match(/_(\d+)x\d+/)?.[1] || '0']: group 1 is the run of digits
    that follows the underscore of the leftmost match (never empty). *)
Definition sizeText (a : str) : str :=
  match search Pat.anySize a with
  | Some (_, mt, _) => takeWhile isDigit (tail mt)
  | None => "0"
  end.

(** [parseInt(aSize)] *)
Definition sizeOf (a : str) : number := parseInt (sizeText a).

(** The size value of a URL as an integer: the number that the digits
    of its first size marker write, 0 without marker. *)
Definition sizeValue (a : str) : Z := decimalValue (sizeText a).

Definition isKf (a : str) : Z := if includes "/kf/" a then 1 else 0.

(** The comparator passed to [sort]. *)
Definition compareUrls (a b : str) : number :=
  let sizeDiff := Js.sub (sizeOf b) (sizeOf a) in
  if Js.isZero sizeDiff then Js.sub (Num (isKf b)) (Num (isKf a)) else sizeDiff.

(** The comparison that the sort makes of two elements. *)
Definition comparison (a b : str) : Z := sortCompare (compareUrls a b).

(** [Array.prototype.sort] is a stable sort; for a comparator that is a
    consistent ordering its result is the one of any stable sorting
    algorithm, here insertion sort. *)
Fixpoint insertBy (cmp : str -> str -> Z) (x : str) (l : list str) : list str :=
  match l with
  | [] => [x]
  | y :: l' => if (cmp x y <=? 0)%Z then x :: l else y :: insertBy cmp x l'
  end.

Fixpoint sortBy (cmp : str -> str -> Z) (l : list str) : list str :=
  match l with
  | [] => []
  | x :: l' => insertBy cmp x (sortBy cmp l')
  end.

(** The ranking of the fallback branch: filter, deduplicate, sort. *)
Definition rank (allUrls : list str) : list str :=
  sortBy comparison (setFrom (List.filter qualifies allUrls)).

(** The computation of the local [imageUrls] in [scrapeProductPage],
    for the [productId] read from the page (['unknown'] when absent). *)
Definition selectImageUrls (productId : str) (st : store) : list str :=
  if negb (bool_decide (productId = "unknown")) &&
     negb (Nat.eqb (List.length (getProductUrls productId st)) 0)
  then getProductUrls productId st
  else
    let allUrls := imageUrls st in
    let ranked := rank allUrls in
    if Nat.eqb (List.length ranked) 0
    then List.filter (fun url => includes "alicdn.com" url && negb (test fallbackSkip url)) allUrls
    else ranked.

End Ranking.

(** ** ImageDownloader *)

Module ImageDownloader.

(** *** Extension derivation in [downloadImage] *)

Fixpoint dropUntil (c : ascii) (s : str) : str :=
  match s with
  | [] => []
  | d :: s' => if eqc d c then s' else dropUntil c s'
  end.

Fixpoint dropWhile (f : ascii -> bool) (s : str) : str :=
  match s with
  | [] => []
  | d :: s' => if f d then dropWhile f s' else s
  end.

(** Group 1 of a match of [Pat.sizeSuffix]: the text after the only dot
    of the matched text. *)
Definition extGroup (mt : str) : str := dropUntil "."%char mt.

(** The text after the last [c] (the whole string when there is none). *)
Definition afterLast (c : ascii) (s : str) : str :=
  rev (Js.takeWhile (fun d => negb (eqc d c)) (rev s)).

(** The text before the last [c]. *)
Definition beforeLast (c : ascii) (s : str) : str :=
  rev (dropUntil c (rev s)).

(** Node's [path.extname] (POSIX flavour), after its documentation: the
    extension runs from the last dot of the last portion of the path to
    the end of the string; it is empty when that portion has no dot,
    when its only dot is its first character, and for the portion
    [..]; trailing slashes are ignored. *)
Definition extname (path : str) : str :=
  let trimmed := rev (dropWhile (eqc "/"%char) (rev path)) in
  let base := afterLast "/"%char trimmed in
  if negb (includes "." base) then []
  else
    let stem := beforeLast "."%char base in
    let ext := afterLast "."%char base in
    match stem, ext with
    | [], _ => []
    | [d], [] => if eqc d "."%char then [] else "." ++ ext
    | _, _ => "." ++ ext
    end.

(** [pathname.replace(Pat.sizeSuffix, '.$1')] followed by
    [path.extname(pathname) || '.jpg']. *)
Definition deriveExtension (pathname : str) : str :=
  let pathname' := replaceFirst Pat.sizeSuffix (fun mt => "." ++ extGroup mt) pathname in
  match extname pathname' with
  | [] => ".jpg"
  | c :: e => c :: e
  end.

(** *** The stream phase of [downloadImage]

    Once the response stream is piped into the file writer, the promise
    returned by [downloadImage] is settled by three event handlers.  A
    handler runs to completion before the next event is delivered; the
    file system is the set of existing paths.  In this phase the
    handlers change it, and so does the writer: [fs.createWriteStream]
    returns before the destination is opened, the open is completed
    later by the event loop and creates the file, and [writer.destroy()]
    does not call off an open that is under way. *)

Inductive settled : Type :=
| Pending
| Resolved (filePath : str)
| Rejected (err : str).

Inductive action : Type :=
| Unlink (filePath : str)
| DestroyWriter
| LogSuccess
| Resolve (filePath : str)
| Reject (err : str).

Record dstate : Type := DState {
  files : gset str;
  errorOccurred : bool;
  promise : settled;
  actions : list action
}.

Definition act (a : action) (st : dstate) : dstate :=
  DState (files st) (errorOccurred st) (promise st) (actions st ++ [a]).

(** [resolve] and [reject] settle a pending promise; on a settled one
    they have no effect. *)
Definition resolve (filePath : str) (st : dstate) : dstate :=
  match promise st with
  | Pending => DState (files st) (errorOccurred st) (Resolved filePath) (actions st ++ [Resolve filePath])
  | _ => act (Resolve filePath) st
  end.

Definition reject (err : str) (st : dstate) : dstate :=
  match promise st with
  | Pending => DState (files st) (errorOccurred st) (Rejected err) (actions st ++ [Reject err])
  | _ => act (Reject err) st
  end.

Definition setErrorOccurred (st : dstate) : dstate :=
  DState (files st) true (promise st) (actions st).

(** [if (fs.existsSync(filePath)) fs.unlinkSync(filePath)] *)
Definition unlinkIfExists (filePath : str) (st : dstate) : dstate :=
  if decide (filePath ∈ files st)
  then DState (files st ∖ {[filePath]}) (errorOccurred st) (promise st) (actions st ++ [Unlink filePath])
  else st.

(** [writer.on('finish', ...)] *)
Definition onFinish (filePath : str) (st : dstate) : dstate :=
  if negb (errorOccurred st) then resolve filePath (act LogSuccess st) else st.

(** [writer.on('error', ...)] *)
Definition onWriterError (filePath err : str) (st : dstate) : dstate :=
  reject err (unlinkIfExists filePath (setErrorOccurred st)).

(** [response.data.on('error', ...)] *)
Definition onResponseError (filePath err : str) (st : dstate) : dstate :=
  reject err (unlinkIfExists filePath (act DestroyWriter (setErrorOccurred st))).

(** The open of the writer completes: the destination exists.  No
    handler of the promise is registered for it. *)
Definition onOpen (filePath : str) (st : dstate) : dstate :=
  DState ({[filePath]} ∪ files st) (errorOccurred st) (promise st) (actions st).

Inductive event : Type :=
| WriterOpen
| WriterFinish
| WriterError (err : str)
| ResponseError (err : str).

Definition isError (ev : event) : bool :=
  match ev with
  | WriterError _ | ResponseError _ => true
  | WriterOpen | WriterFinish => false
  end.

Definition isOpen (ev : event) : bool :=
  match ev with
  | WriterOpen => true
  | _ => false
  end.

Definition handle (filePath : str) (st : dstate) (ev : event) : dstate :=
  match ev with
  | WriterOpen => onOpen filePath st
  | WriterFinish => onFinish filePath st
  | WriterError err => onWriterError filePath err st
  | ResponseError err => onResponseError filePath err st
  end.

(** The state when the promise is created, for the paths [fs] that
    exist then. *)
Definition start (fs : gset str) : dstate := DState fs false Pending [].

(** The state after the events [evs], in the order of their delivery. *)
Definition run (filePath : str) (fs : gset str) (evs : list event) : dstate :=
  fold_left (handle filePath) evs (start fs).

(** *** [downloadAll] *)

Section DownloadAll.

(** The single-item download is a collaborator here: called with a URL
    and an index in state [w], it returns the stored path or the message
    of the error it threw, and the next state. *)
Context {W : Type}.
Variable downloadImage : str -> nat -> W -> (str + str) * W.

Record batch : Type := Batch {
  downloaded : list str;
  failed : list (str * str);
  seenUrls : list str;
  calls : list (str * nat);
  world : W
}.

(** One iteration of the [for] loop. *)
Definition iteration (b : batch) (i : nat) (imageUrl : str) : batch :=
  if decide (imageUrl ∈ seenUrls b) then b
  else
    let seen := setAdd imageUrl (seenUrls b) in
    match downloadImage imageUrl i (world b) with
    | (inl filePath, w') =>
        Batch (downloaded b ++ [filePath]) (failed b) seen (calls b ++ [(imageUrl, i)]) w'
    | (inr message, w') =>
        Batch (downloaded b) (failed b ++ [(imageUrl, message)]) seen (calls b ++ [(imageUrl, i)]) w'
    end.

Fixpoint loop (b : batch) (i : nat) (uniqueImages : list str) : batch :=
  match uniqueImages with
  | [] => b
  | imageUrl :: rest => loop (iteration b i imageUrl) (S i) rest
  end.

(** The figures of the two [logger.info] calls. *)
Record report : Type := Report {
  total : nat;
  duplicatesRemoved : nat;
  successful : nat;
  failures : nat
}.

(** [downloadAll(images, ...)]: the final loop state (its [downloaded]
    field is the returned array) and the logged figures. *)
Definition downloadAll (images : list str) (w : W) : batch * report :=
  let uniqueImages := setFrom images in
  let b := loop (Batch [] [] [] [] w) 0 uniqueImages in
  (b, Report (List.length uniqueImages)
             (List.length images - List.length uniqueImages)
             (List.length (downloaded b))
             (List.length (failed b))).

End DownloadAll.

End ImageDownloader.

(** ** Whole-attempt retry in [scrapeProductPage] *)

Module Retry.

Record config : Type := Config {
  retryAttempts : nat;
  retryDelay : Z
}.

(** The defaults of the [config] object. *)
Definition defaultConfig : config := Config 3 5000.

(** [randomDelay(min, max)] waits [Math.floor(Math.random() * (max - min + 1)) + min]
    milliseconds; [k] stands for the floored product, an integer between
    0 and [max - min]. *)
Definition randomDelay (min max : Z) (k : Z) : Z := (k + min)%Z.

Inductive outcome (R E : Type) : Type :=
| Returned (r : R)
| Thrown (e : E).
Arguments Returned {R E} r.
Arguments Thrown {R E} e.

Inductive step : Type :=
| Attempt (number : nat)
| Backoff (delay : Z).

Section Scrape.

Context {R E : Type}.
Variable cfg : config.
(** The outcome of the body of the [try] block at a given [retryCount]. *)
Variable body : nat -> outcome R E.
(** The random draw of the backoff that follows a given [retryCount]. *)
Variable draw : nat -> Z.

(** [scrapeProductPage(productUrl, retryCount)]; the fuel bounds the
    depth of the self-call. *)
Fixpoint scrapeProductPage (fuel : nat) (retryCount : nat)
  : option (list step * outcome R E) :=
  match body retryCount with
  | Returned r => Some ([Attempt (retryCount + 1)], Returned r)
  | Thrown error =>
      if Nat.ltb retryCount (retryAttempts cfg) then
        match fuel with
        | 0 => None
        | S fuel' =>
            let delay := randomDelay (retryDelay cfg) (retryDelay cfg * 2) (draw retryCount) in
            match scrapeProductPage fuel' (retryCount + 1) with
            | Some (tr, o) => Some (Attempt (retryCount + 1) :: Backoff delay :: tr, o)
            | None => None
            end
        end
      else Some ([Attempt (retryCount + 1)], Thrown error)
  end.

Definition scrape : option (list step * outcome R E) :=
  scrapeProductPage (retryAttempts cfg) 0.

End Scrape.

(** The backoff delays of a run, in order. *)
Definition backoffs (tr : list step) : list Z :=
  flat_map (fun s => match s with Backoff d => [d] | Attempt _ => [] end) tr.

End Retry.

(** ** The states of the store

    The store is changed by [extractFromResponse] (with any payload and
    any product id), by the direct image branch of the response handler
    and by [clear]. *)

Module Reach.

Inductive reachable : store -> Prop :=
| reach_empty : reachable empty
| reach_extract st bodyString productId :
    reachable st -> reachable (extractFromResponse bodyString productId st).1
| reach_intercept st url :
    reachable st -> reachable (Interception.interceptImage url st)
| reach_clear st :
    reachable st -> reachable (clear st).

(** The patterns that both intake paths filter on: the exclusion list of
    the extractor and the skip list of the response handler share them. *)
Definition commonSkip : list re :=
  [ Lit eqci "imgextra"; Lit eqci "icon"; Lit eqci "flag"; Lit eqci "logo";
    Lit eqci "_80x80"; Pat.tpsTile ].

Definition commonlySkipped (url : str) : bool :=
  existsb (fun pattern => test pattern url) commonSkip.

(** The invariant of the store: product sets hold no excluded URL, the
    global set no commonly skipped one. *)
Definition storeClean (st : store) : Prop :=
  (forall pid u, u ∈ getProductUrls pid st -> isExcluded u = false) /\
  (forall u, u ∈ imageUrls st -> commonlySkipped u = false).

(** All the matches that [extractFromResponse] visits, in order. *)
Definition candidates (bodyString : str) : list str :=
  flat_map (fun pattern => matchAll pattern bodyString) Pat.imagePatterns.

(** A match that reaches the store. *)
Definition survives (mt : str) : bool :=
  negb (isDataUri (cleanUp mt)) && negb (isExcluded (cleanUp mt)).

End Reach.

(** ** Declarative semantics of the regular expressions *)

Module Lang.

(** [lang r w rest]: [r] matches the word [w] when [w] is followed by
    [rest] (the end anchor looks at what follows). *)
Fixpoint lang (r : re) (w rest : str) : Prop :=
  match r with
  | Eps => w = []
  | Chr p => exists c, w = [c] /\ p c = true
  | Seq r1 r2 =>
      exists w1 w2, w = w1 ++ w2 /\ lang r1 w1 (w2 ++ rest) /\ lang r2 w2 rest
  | Alt r1 r2 => lang r1 w rest \/ lang r2 w rest
  | Star p => Forall (fun c => p c = true) w
  | Eol => w = [] /\ rest = []
  end.

(** [s] contains a match of [r]. *)
Definition occurs (r : re) (s : str) : Prop :=
  exists pre w post, s = pre ++ w ++ post /\ lang r w post.

(** No end anchor in [r]: its matches do not depend on what follows. *)
Fixpoint eolFree (r : re) : bool :=
  match r with
  | Eol => false
  | Seq r1 r2 | Alt r1 r2 => eolFree r1 && eolFree r2
  | _ => true
  end.

Definition allAscii : list ascii := map ascii_of_nat (seq 0 256).

(** Every character accepted by the class [p] satisfies [q]. *)
Definition classWithin (p q : ascii -> bool) : bool :=
  forallb (fun c => implb (p c) (q c)) allAscii.

(** Every character of every word of [r] satisfies [q]. *)
Fixpoint charsWithin (q : ascii -> bool) (r : re) : bool :=
  match r with
  | Eps | Eol => true
  | Chr p | Star p => classWithin p q
  | Seq r1 r2 | Alt r1 r2 => charsWithin q r1 && charsWithin q r2
  end.

(** Every character but the first of every word of [r] satisfies [q]. *)
Fixpoint tailWithin (q : ascii -> bool) (r : re) : bool :=
  match r with
  | Eps | Eol | Chr _ => true
  | Star p => classWithin p q
  | Seq r1 r2 => tailWithin q r1 && charsWithin q r2
  | Alt r1 r2 => tailWithin q r1 && tailWithin q r2
  end.

(** Every match of [r] ends at the end of the input. *)
Fixpoint endsAnchored (r : re) : bool :=
  match r with
  | Eol => true
  | Seq _ r2 => endsAnchored r2
  | Alt r1 r2 => endsAnchored r1 && endsAnchored r2
  | _ => false
  end.

(** No word of [r] is empty. *)
Fixpoint neverEmpty (r : re) : bool :=
  match r with
  | Chr _ => true
  | Seq r1 r2 => neverEmpty r1 || neverEmpty r2
  | Alt r1 r2 => neverEmpty r1 && neverEmpty r2
  | _ => false
  end.

(** The non-empty suffixes of a string. *)
Fixpoint tails (s : str) : list str :=
  match s with
  | [] => []
  | c :: s' => (c :: s') :: tails s'
  end.

(** No match of [r] can start inside [ins]. *)
Definition blocked (r : re) (sfx : str) : Prop :=
  forall v, matchAt r (sfx ++ v) = None.

(** Inserting the high-resolution suffix cannot create a match of [r]. *)
Definition insulated (r : re) : Prop :=
  eolFree r = true /\
  tailWithin (fun d => negb (eqc d "_"%char)) r = true /\
  Forall (blocked r) (tails hiResSuffix).

End Lang.

(** ** Invariant of the stream phase *)

Module StreamInv.

Import ImageDownloader.

(** As long as the open of the writer does not complete in this phase:
    once an error handler has run the destination is gone; a rejection
    is only ever issued by an error handler; and if the destination
    existed when the promise was created, every [Reject] in the trace
    has an [Unlink] of the destination before it. *)
Definition streamInv (filePath : str) (fs : gset str) (st : dstate) : Prop :=
  (errorOccurred st = false -> files st = fs /\ Forall (fun a => forall err, a <> Reject err) (actions st)) /\
  (errorOccurred st = true -> filePath ∉ files st) /\
  (errorOccurred st = true -> filePath ∈ fs -> Unlink filePath ∈ actions st) /\
  (forall err, promise st = Rejected err -> errorOccurred st = true) /\
  (forall pre err post,
      actions st = pre ++ Reject err :: post -> filePath ∈ fs -> Unlink filePath ∈ pre).

End StreamInv.

(** ** Runs of the retry loop *)

Module RetryRuns.

Import Retry.

(** The numbers of the attempts of a run, in order. *)
Definition attempts (tr : list step) : list nat :=
  flat_map (fun s => match s with Attempt n => [n] | Backoff _ => [] end) tr.

(** The claim that the backoff grows with the attempt number. *)
Definition delaysGrow (tr : list step) : Prop :=
  StronglySorted Z.lt (backoffs tr).

(** Navigation throws on the first two attempts and succeeds on the
    third. *)
Definition twoFailures (retryCount : nat) : outcome unit nat :=
  if Nat.ltb retryCount 2 then Thrown retryCount else Returned tt.

Definition alwaysFails (retryCount : nat) : outcome unit nat := Thrown retryCount.

End RetryRuns.

(** ** Keys of the ranking order

    The comparator orders by the size, largest first, and among URLs of
    the same finite size by the product path; two sizes that are both
    [Infinity] have the difference [NaN], which the sort takes for
    zero. *)

Module RankKeys.

Import Ranking.

(** The numbers that [parseInt] returns for strings of digits: the
    integers from 0 below 2^1024, and [Infinity]. *)
Definition sizeLike (v : number) : Prop :=
  (exists z, v = Num z /\ (0 <= z < 2 ^ 1024)%Z) \/ v = PosInf.

Definition sizeKey (v : number) : Z :=
  match v with
  | Num z => z
  | PosInf => (2 ^ 1024)%Z
  | _ => (-1)%Z
  end.

Definition tieKey (a : str) : Z :=
  match sizeOf a with
  | Num _ => isKf a
  | _ => 0%Z
  end.

End RankKeys.

(** ** Vocabulary of the statements *)

Module Vocab.

(** The four high-resolution size markers of [Pat.highRes]. *)
Definition highResMarkers : list str :=
  [ "_960x960" : str; "_800x800" : str; "_1200x1200" : str; "_1600x1600" : str ].

(** A string as the URL patterns deliver it: no quote, no white space. *)
Definition urlText (s : str) : Prop := Forall (fun c => Pat.urlChar c = true) s.

(** The query component of a URL: the text after its first question
    mark. *)
Definition queryComponent (url : str) : str :=
  ImageDownloader.dropUntil "?"%char url.

(** A string of decimal digits. *)
Definition digits (s : str) : Prop := Forall (fun c => isDigit c = true) s.

(** One of the five image extensions, in any letter case. *)
Definition imageExtension (e : str) : Prop := Lang.lang Pat.imgExt e [].

End Vocab.

(** ** Concrete inputs *)

Module Sample.

(** A CDN image URL whose query string holds a second question mark
    followed by a thumbnail marker. *)
Definition twoMarks : str := "https://sc04.alicdn.com/kf/a.jpg?x=1?t=_50x50".

(** A thumbnail URL with a query string that contains a question mark. *)
Definition thumbBase : str := "https://sc04.alicdn.com/kf/a_50x50.jpg".
Definition thumbQuery : str := "x=1?y=2".

(** The URL of a 20x20 image response. *)
Definition tinyImage : str := "https://sc04.alicdn.com/kf/a_20x20.jpg".

(** A payload with one product image and one icon. *)
Definition payload : str :=
  "https://sc04.alicdn.com/kf/a_960x960q80.jpg https://sc04.alicdn.com/kf/icon.png".


(** The payload of the end-to-end scenario: a thumbnail and the
    high-resolution variant of the same image. *)
Definition twoVariants : str :=
  "https://sc04.alicdn.com/kf/H123abc.jpg_50x50.jpg https://sc04.alicdn.com/kf/H123abc.jpg_960x960q80.jpg".

(** A payload with one high-resolution image. *)
Definition onePicture : str := "https://sc04.alicdn.com/kf/a_960x960q80.jpg".

End Sample.

(** ** Well-formed stores *)

Module StoreSets.

(** The sets of the store hold no URL twice, and every URL filed under
    a product is also in the global set. *)
Definition wellFormed (st : store) : Prop :=
  NoDup (imageUrls st) /\
  (forall pid, NoDup (getProductUrls pid st)) /\
  (forall pid u, u ∈ getProductUrls pid st -> u ∈ imageUrls st).

(** Whether the URL of every surviving match of [ms] is filed in [st]
    (under the product as well, when there is one). *)
Definition filed (productId : option str) (ms : list str) (st : store) : Prop :=
  forall mt, mt ∈ ms -> Reach.survives mt = true ->
    upgradeUrl (cleanUp mt) ∈ imageUrls st /\
    (forall pid, truthy productId = Some pid -> upgradeUrl (cleanUp mt) ∈ getProductUrls pid st).

End StoreSets.

(** ** Scrolling for lazy-loaded images in [scrapeProductPage] *)

Module LazyLoad.

(** What one round of the loop does to the page, in order. *)
Inductive action : Type :=
| SmoothScroll
| RandomScroll
| Delay
| Measure (height : nat)
| Hover (selector : str).

(** [imageSelectors] *)
Definition imageSelectors : list str :=
  [ ".product-image" : str; ".image-gallery img" : str; "[data-image]" : str;
    ".main-image" : str ].

Section Scroll.

(** [scrollHeight k] is the value of the [k]-th evaluation of
    [document.body.scrollHeight] (a non-negative integer); the first
    evaluation, number 0, is the one before the loop. *)
Variable scrollHeight : nat -> nat.

(** The [while (currentHeight > previousHeight)] loop, entered with [k]
    evaluations made so far; the fuel bounds the number of rounds.
    Returns the actions of the rounds and the final heights. *)
Fixpoint scrollLoop (fuel k previousHeight currentHeight : nat)
  : option (list action * nat * nat) :=
  if Nat.ltb previousHeight currentHeight then
    match fuel with
    | 0 => None
    | S fuel' =>
        let previousHeight := currentHeight in
        let currentHeight := scrollHeight k in
        match scrollLoop fuel' (S k) previousHeight currentHeight with
        | Some (tr, p, c) =>
            Some ([SmoothScroll; RandomScroll; Delay; Measure currentHeight]
                    ++ map Hover imageSelectors ++ tr, p, c)
        | None => None
        end
    end
  else Some ([], previousHeight, currentHeight).

(** The height that the [i]-th evaluation is compared with: 0 for the
    first one, the evaluation before it for the others. *)
Definition previous (i : nat) : nat :=
  match i with
  | 0 => 0
  | S j => scrollHeight j
  end.

(** [previousHeight = 0], the first evaluation, then the loop. *)
Definition lazyLoad (fuel : nat) : option (list action * nat * nat) :=
  scrollLoop fuel 1 0 (scrollHeight 0).

End Scroll.

(** The number of rounds of a run: one smooth scroll per round. *)
Definition rounds (tr : list action) : nat :=
  List.length (List.filter (fun a => match a with SmoothScroll => true | _ => false end) tr).

End LazyLoad.

(** ** [scrapeMultipleProducts] *)

Module Batch.

Import Retry.

Section Products.

Context {R : Type}.

(** [scrapeProductPage(url)] is a collaborator here: called in a state
    of the store, it returns a result or throws an error with a
    message, and leaves the store as the response handler filled it
    while the page was open. *)
Variable scrapeProductPage : str -> store -> outcome R str * store.

(** An element of [results]: the result of a scrape, or the record
    [{ success: false, url, error }] of a failure. *)
Inductive entry : Type :=
| Result (result : R)
| Failure (url error : str).

(** The body of the [for] loop: [clear()] is called in the [try] block,
    after the result has been pushed. *)
Definition visit (acc : list entry * store) (url : str) : list entry * store :=
  match scrapeProductPage url acc.2 with
  | (Returned result, st) => (acc.1 ++ [Result result], clear st)
  | (Thrown error, st) => (acc.1 ++ [Failure url error], st)
  end.

Definition scrapeMultipleProducts (productUrls : list str) (st : store)
  : list entry * store :=
  fold_left visit productUrls ([], st).

End Products.

Arguments Result {R} result.
Arguments Failure {R} url error.

End Batch.

(** ** File names of [ImageDownloader] *)

Module FileName.

Definition backslash : ascii := ascii_of_nat 92.

(** The class of the first replacement of [sanitizeFileName]: the
    characters [<], [>], colon, double quote, slash, backslash, bar,
    question mark and star. *)
Definition invalidChar (c : ascii) : bool :=
  eqc c "<"%char || eqc c ">"%char || eqc c ":"%char || eqc c Pat.dquote ||
  eqc c "/"%char || eqc c backslash || eqc c "|"%char || eqc c "?"%char ||
  eqc c "*"%char.

(** The class with the [g] flag, [/\s+/g] and [/_+/g]. *)
Definition invalidChars : re := Chr invalidChar.
Definition spaces : re := Plus isSpace.
Definition underscores : re := Plus (eqc "_"%char).

Definition underscore : str := "_".

(** [sanitizeFileName(fileName)]; [null] and the empty string are
    falsy. *)
Definition sanitizeFileName (fileName : option str) : str :=
  match truthy fileName with
  | None => "unnamed"
  | Some fileName =>
      trim (take 200
        (replaceAll underscores (fun _ => underscore)
          (replaceAll spaces (fun _ => underscore)
            (replaceAll invalidChars (fun _ => underscore) fileName))))
  end.

(** What [sanitizeFileName] guarantees of its result: not empty, at
    most 200 characters, none of them invalid or white space, and no
    two underscores in a row. *)
Definition safe (name : str) : Prop :=
  name <> [] /\ List.length name <= 200 /\
  Forall (fun c => invalidChar c = false /\ isSpace c = false) name /\
  includes "__" name = false.

(** The rendering of a non-negative integer in a template literal:
    its decimal digits. *)
Definition decimal (n : nat) : str :=
  list_ascii_of_string (DecimalString.NilEmpty.string_of_uint (Nat.to_uint n)).

(** The local [fileName] of [downloadImage], from the product name, the
    index and the extension. *)
Definition fileName (productName : option str) (index : nat) (extension : str) : str :=
  match truthy productName with
  | Some name => sanitizeFileName (Some name) ++ "_" ++ decimal index ++ extension
  | None => "image_" ++ decimal index ++ extension
  end.

(** The file name that [downloadImage] gives to the image at [pathname]
    (the [pathname] of the parsed URL). *)
Definition fileNameFor (productName : option str) (index : nat) (pathname : str) : str :=
  fileName productName index (ImageDownloader.deriveExtension pathname).

End FileName.

(** ** The single-item download

    [downloadImage] up to the request: the directory of the product,
    the parsed URL, the destination path and the test whether it
    exists.  The request itself and the stream phase that follows are a
    collaborator here. *)

Module Download.

(** The world of a download: the existing paths of the file system,
    the GET requests issued so far (the calls of [axios], by URL), and
    the state of the network. *)
Record world (N : Type) : Type := World {
  paths : gset str;
  requests : list str;
  network : N
}.

Arguments World {N} _ _ _.
Arguments paths {N} _.
Arguments requests {N} _.
Arguments network {N} _.

Section DownloadImage.

Context {N : Type}.
(** [this.downloadDir] *)
Variable downloadDir : str.
(** [path.join(dir, name)] *)
Variable join : str -> str -> str.
(** [fs.mkdirSync(dir, { recursive: true })]: the message of the error
    it throws, if any, and the paths afterwards. *)
Variable mkdirSync : str -> gset str -> option str * gset str.
(** [new URL(url).pathname]; [None] when the constructor throws. *)
Variable pathnameOf : str -> option str.
(** The request for [url] and the stream phase that writes to
    [filePath]: the path or the message of the error, the paths and the
    network afterwards. *)
Variable transfer : str -> str -> gset str -> N -> (str + str) * gset str * N.

Definition productDir (productId : option str) : str :=
  match truthy productId with
  | Some productId => join downloadDir (FileName.sanitizeFileName (Some productId))
  | None => join downloadDir "unknown"
  end.

(** [if (!fs.existsSync(productDir)) fs.mkdirSync(productDir, ...)] *)
Definition ensureDir (dir : str) (ps : gset str) : option str * gset str :=
  if decide (dir ∈ ps) then (None, ps) else mkdirSync dir ps.

(** The local [filePath], for the [pathname] of the parsed URL. *)
Definition filePathFor (productId productName : option str) (index : nat)
    (pathname : str) : str :=
  join (productDir productId) (FileName.fileNameFor productName index pathname).

(** [downloadImage(url, productId, productName, index)]: the path that
    the promise resolves to, or the message of the error that it
    rejects with, and the world afterwards. *)
Definition downloadImage (url : str) (productId productName : option str)
    (index : nat) (w : world N) : (str + str) * world N :=
  match ensureDir (productDir productId) (paths w) with
  | (Some message, ps) => (inr message, World ps (requests w) (network w))
  | (None, ps) =>
      match pathnameOf url with
      | None => (inr ("Invalid URL: " ++ url), World ps (requests w) (network w))
      | Some pathname =>
          let filePath := filePathFor productId productName index pathname in
          if decide (filePath ∈ ps)
          then (inl filePath, World ps (requests w) (network w))
          else
            match transfer url filePath ps (network w) with
            | (result, ps', n') => (result, World ps' (requests w ++ [url]) n')
            end
      end
  end.

End DownloadImage.

End Download.

(** ** File names in the earlier revision *)

Module EarlierFileName.

(** [[^a-z0-9]] under the [i] flag: anything but an ASCII letter or
    digit. *)
Definition notAlnum (c : ascii) : bool :=
  negb (isLower c || isUpper c || isDigit c).

(** [fileName.replace(/[^a-z0-9]/gi, '_').substring(0, 200)] *)
Definition sanitizeFileName (fileName : str) : str :=
  take 200 (replaceAll (Chr notAlnum) (fun _ => FileName.underscore) fileName).

End EarlierFileName.

(** ** The product id read from a URL *)

Module ProductId.

(** [/_(\d+)\.html/] *)
Definition underscoreId : re :=
  Seqs [Chr (eqc "_"%char); Plus isDigit; Lit eqc ".html"].

(** [/\/(\d+)\.html/] *)
Definition slashId : re :=
  Seqs [Chr (eqc "/"%char); Plus isDigit; Lit eqc ".html"].

(** [/product[_-]?id[=:](\d+)/i] *)
Definition productIdParam : re :=
  Seqs [Lit eqci "product"; Opt (Chr (fun c => eqc c "_"%char || eqc c "-"%char));
        Lit eqci "id"; Chr (fun c => eqc c "="%char || eqc c ":"%char); Plus isDigit].

(** [/detailId=(\d+)/i] *)
Definition detailIdParam : re := Seqs [Lit eqci "detailId="; Plus isDigit].

(** [/productId=(\d+)/i] *)
Definition productIdEq : re := Seqs [Lit eqci "productId="; Plus isDigit].

(** Group 1 of a match of [underscoreId] or [slashId]: the run of digits
    after the first character of the match. *)
Definition leadingGroup (mt : str) : str := takeWhile isDigit (tail mt).

(** Group 1 of a match of one of the three parameter patterns: the run
    of digits that ends the match. *)
Definition trailingGroup (mt : str) : str := rev (takeWhile isDigit (rev mt)).

(** [url.match(re)?.[1]] for a pattern without the [g] flag. *)
Definition group1 (pattern : re * (str -> str)) (url : str) : option str :=
  match search pattern.1 url with
  | Some (_, mt, _) => Some (pattern.2 mt)
  | None => None
  end.

(** The first pattern that matches decides (the chain of [||]). *)
Fixpoint firstMatch (patterns : list (re * (str -> str))) (url : str) : option str :=
  match patterns with
  | [] => None
  | pattern :: rest =>
      match group1 pattern url with
      | Some id => Some id
      | None => firstMatch rest url
      end
  end.

(** The [productId] that [scrapeProductPage] reads from
    [window.location.href]; [None] is [null]. *)
Definition fromPage (url : str) : option str :=
  firstMatch [(underscoreId, leadingGroup); (slashId, leadingGroup)] url.

(** The [productId] that the response handler reads from the URL of a
    response, before it falls back to the JSON data. *)
Definition fromResponseUrl (url : str) : option str :=
  firstMatch [(productIdParam, trailingGroup); (underscoreId, leadingGroup);
              (slashId, leadingGroup); (detailIdParam, trailingGroup);
              (productIdEq, trailingGroup)] url.

(** [productInfo.productId || 'unknown'] *)
Definition orUnknown (productId : option str) : str :=
  match truthy productId with
  | Some id => id
  | None => "unknown"
  end.

End ProductId.

(** ** Mouse movement of [HumanBehavior] *)

Module Human.

(** [randomMouseMovement()]: [kx] and [ky] stand for the two values of
    [Math.floor(Math.random() * 200)], integers between 0 and 199. *)
Definition randomMouseMovement (kx ky : Z) : Z * Z := (kx - 100, ky - 100)%Z.

(** The target that [randomMouseMove] passes to [page.mouse.move]. *)
Definition randomMouseMove (kx ky : Z) : Z * Z :=
  let movement := randomMouseMovement kx ky in
  (Z.max 100 (Z.min 800 (400 + movement.1)), Z.max 100 (Z.min 600 (300 + movement.2)))%Z.

End Human.

(** ** The end of [scrapeProductPage]: selection, download, result *)

Module Page.

(** The value that an attempt returns: [{ success: false, images: [] }]
    when no URL was selected, otherwise the record with [success: true],
    the product id and name, the downloaded paths and [totalFound]. *)
Inductive result : Type :=
| NoImages
| Scraped (productId productName : str) (images : list str) (totalFound : nat).

Section Finish.

Context {W : Type}.
(** The single-item download for a product id and a product name. *)
Variable downloadImage : str -> str -> str -> nat -> W -> (str + str) * W.

(** The attempt from the selection of the URLs on, for the product id
    and name read from the page ([None] is [null] or [undefined]). *)
Definition finish (productInfo : option str * option str) (st : store) (w : W)
  : result * W :=
  let productId := ProductId.orUnknown productInfo.1 in
  let productName :=
    match truthy productInfo.2 with
    | Some name => name
    | None => "product" : str
    end in
  let imageUrls := Ranking.selectImageUrls productId st in
  if Nat.eqb (List.length imageUrls) 0 then (NoImages, w)
  else
    let b := (ImageDownloader.downloadAll (downloadImage productId productName) imageUrls w).1 in
    (Scraped productId productName (ImageDownloader.downloaded b) (List.length imageUrls),
     ImageDownloader.world b).

End Finish.

End Page.

(** ** The main-module test *)

Module MainModule.

(** [path.replace(/\\/g, '/')] *)
Definition normalize (path : str) : str :=
  replaceAll (Chr (eqc FileName.backslash)) (fun _ => "/" : str) path.

(** [s.endsWith(suffix)] *)
Definition endsWith (suffix s : str) : bool := startsWith (rev suffix) (rev s).

(** [isMainModule()], for the path [urlPath] of the module itself and
    the value of [process.argv[1]]. *)
Definition isMainModule (urlPath : str) (argv1 : option str) : bool :=
  match truthy argv1 with
  | None => false
  | Some mainPath =>
      let normalizedUrlPath := normalize urlPath in
      let normalizedMainPath := normalize mainPath in
      bool_decide (normalizedUrlPath = normalizedMainPath) ||
      endsWith "scraper.js" normalizedMainPath ||
      endsWith "/scraper.js" normalizedMainPath
  end.

End MainModule.

(** ** Further concrete inputs *)

Module Inputs.

(** A data URI whose scheme is written in upper case. *)
Definition upperCaseData : str := "DATA:image/png;base64,AAAA".

(** A thumbnail URL with one question mark. *)
Definition thumbnail : str := "https://sc04.alicdn.com/kf/a_50x50.jpg".



(** A file system and a network for examples: [path.join] of two plain
    segments, a directory creation that succeeds, the pathname of an
    [https] URL without query, and a transfer that stores the file. *)
Definition join (dir name : str) : str := dir ++ "/" ++ name.

Definition mkdirSync (dir : str) (ps : gset str) : option str * gset str :=
  (None, {[dir]} ∪ ps).

Definition pathnameOf (url : str) : option str :=
  if startsWith "https://" url
  then Some (ImageDownloader.dropWhile (fun c => negb (eqc c "/"%char)) (drop 8 url))
  else None.

Definition transfer (url filePath : str) (ps : gset str) (n : unit)
  : (str + str) * gset str * unit :=
  (inl filePath, {[filePath]} ∪ ps, n).

Definition downloadImage (url : str) (index : nat) (w : Download.world unit)
  : (str + str) * Download.world unit :=
  Download.downloadImage "images" join mkdirSync pathnameOf transfer
    url (Some ("42" : str)) None index w.

Definition picture : str := "https://sc04.alicdn.com/kf/a_960x960q80.jpg".

Definition notAUrl : str := "kf/a.jpg".

Definition emptyWorld : Download.world unit := Download.World ∅ [] tt.

End Inputs.

(** ** Proof automation *)

(** Proves that a concrete pattern is insulated. *)
Ltac insulate :=
  split; [reflexivity|split; [vm_compute; reflexivity|]];
  unfold Lang.tails, hiResSuffix; simpl list_ascii_of_string;
  repeat (apply Forall_cons_2; [intros v; reflexivity|]); apply Forall_nil_2.

(** Splits and closes conjunctions of failed tests. *)
Ltac split_tests :=
  repeat match goal with
         | H : _ || _ = false |- _ => apply orb_false_iff in H as [? ?]
         end;
  repeat (apply orb_false_iff; split); try assumption; try reflexivity.

(** * Properties *)

Import Lang Reach Ranking Vocab RankKeys StoreSets.

(** ** Correctness of the matcher *)

Section MatcherCorrect.
Context {A : Type}.
Implicit Types (k : str -> option A) (s w rest : str).

Lemma mstar_sound p k s x :
  mstar p k s = Some x ->
  exists w rest, s = w ++ rest /\ Forall (fun c => p c = true) w /\ k rest = Some x.
Proof.
  induction s as [|c s IH]; simpl.
  - intros Hk. exists [], []. auto.
  - destruct (p c) eqn:Hp.
    + destruct (mstar p k s) as [y|] eqn:Hs.
      * intros [= ->]. destruct (IH eq_refl) as (w & rest & -> & Hw & Hk).
        exists (c :: w), rest. auto.
      * intros Hk. exists [], (c :: s). auto.
    + intros Hk. exists [], (c :: s). auto.
Qed.

Lemma m_sound r : forall k s x,
  m r k s = Some x ->
  exists w rest, s = w ++ rest /\ lang r w rest /\ k rest = Some x.
Proof.
  induction r as [|p|r1 IH1 r2 IH2|r1 IH1 r2 IH2|p|]; intros k s x; simpl.
  - intros Hk. exists [], s. auto.
  - destruct s as [|c s]; [discriminate|].
    destruct (p c) eqn:Hp; [|discriminate].
    intros Hk. exists [c], s. eauto.
  - intros H. apply IH1 in H as (w1 & rest1 & -> & H1 & H).
    apply IH2 in H as (w2 & rest & -> & H2 & Hk).
    exists (w1 ++ w2), rest. rewrite <- app_assoc. eauto 8.
  - destruct (m r1 k s) as [y|] eqn:E1.
    + intros [= ->]. apply IH1 in E1 as (w & rest & -> & H1 & Hk). eauto 8.
    + intros H. apply IH2 in H as (w & rest & -> & H2 & Hk). eauto 8.
  - apply mstar_sound.
  - destruct s; [|discriminate]. intros Hk. exists [], []. auto.
Qed.

Lemma mstar_complete p k w rest :
  Forall (fun c => p c = true) w -> is_Some (k rest) -> is_Some (mstar p k (w ++ rest)).
Proof.
  intros Hw Hk. induction Hw as [|c w Hc Hw IH]; simpl.
  - destruct rest as [|c rest]; simpl; [done|].
    destruct (p c); [|done]. destruct (mstar p k rest); [eauto|done].
  - rewrite Hc. destruct IH as [y ->]. eauto.
Qed.

Lemma m_complete r : forall k w rest,
  lang r w rest -> is_Some (k rest) -> is_Some (m r k (w ++ rest)).
Proof.
  induction r as [|p|r1 IH1 r2 IH2|r1 IH1 r2 IH2|p|]; intros k w rest; simpl.
  - intros -> Hk. done.
  - intros (c & -> & Hp) Hk. simpl. by rewrite Hp.
  - intros (w1 & w2 & -> & H1 & H2) Hk. rewrite <- app_assoc.
    apply IH1; [done|]. by apply IH2.
  - intros [H|H] Hk.
    + destruct (IH1 k w rest H Hk) as [y ->]. eauto.
    + destruct (m r1 k (w ++ rest)); [eauto|]. by apply IH2.
  - apply mstar_complete.
  - intros [-> ->] Hk. done.
Qed.

End MatcherCorrect.

Lemma matchAt_sound r s rest :
  matchAt r s = Some rest -> exists w, s = w ++ rest /\ lang r w rest.
Proof.
  unfold matchAt. intros H. apply m_sound in H as (w & rest' & -> & Hl & [= ->]). eauto.
Qed.

Lemma matchAt_complete r w rest :
  lang r w rest -> is_Some (matchAt r (w ++ rest)).
Proof. intros H. apply m_complete; [done|eauto]. Qed.

Lemma matchAt_None r w rest : matchAt r (w ++ rest) = None -> ~ lang r w rest.
Proof.
  intros H Hl. apply matchAt_complete in Hl as [y Hy]. congruence.
Qed.

Lemma take_matched (w rest : str) :
  take (List.length (w ++ rest) - List.length rest) (w ++ rest) = w.
Proof. by rewrite length_app, Nat.add_sub, take_app_length. Qed.

Lemma search_sound r s : forall pre mt post,
  search r s = Some (pre, mt, post) ->
  s = pre ++ mt ++ post /\ lang r mt post /\
  forall pre' w post', s = pre' ++ w ++ post' -> lang r w post' ->
    List.length pre <= List.length pre'.
Proof.
  induction s as [|c s IH]; intros pre mt post.
  - cbn [search]. destruct (matchAt r []) as [rest|] eqn:E; [|discriminate].
    intros [= <- <- <-]. apply matchAt_sound in E as (w & Hs & Hl).
    symmetry in Hs. apply app_eq_nil in Hs as [-> ->].
    simpl. repeat split; [done|]. intros; simpl; lia.
  - cbn [search]. destruct (matchAt r (c :: s)) as [rest|] eqn:E.
    + intros [= <- <- <-]. apply matchAt_sound in E as (w & Hs & Hl).
      change (S (List.length s)) with (List.length (c :: s)).
      rewrite Hs, take_matched.
      repeat split; [done|]. intros; simpl; lia.
    + destruct (search r s) as [[[pre0 mt0] post0]|] eqn:Es; [|discriminate].
      intros [= <- <- <-]. destruct (IH _ _ _ eq_refl) as (-> & Hl & Hmin).
      repeat split; [done|].
      intros [|c' pre'] w post' Hs Hw; simpl in *.
      * rewrite Hs in E. by apply matchAt_None in E.
      * injection Hs as -> Hs. apply Hmin in Hs; [lia|done].
Qed.

Lemma search_None r s :
  search r s = None -> ~ occurs r s.
Proof.
  induction s as [|c s IH]; simpl.
  - destruct (matchAt r []) eqn:E; [discriminate|]. intros _ (pre & w & post & Hs & Hl).
    symmetry in Hs. apply app_eq_nil in Hs as [-> Hs]. apply app_eq_nil in Hs as [-> ->].
    by apply (matchAt_None r [] []) in E.
  - destruct (matchAt r (c :: s)) eqn:E; [discriminate|].
    destruct (search r s) as [[[pre0 mt0] post0]|] eqn:Es; [discriminate|].
    intros _ (pre & w & post & Hs & Hl). destruct pre as [|c' pre]; simpl in Hs.
    + rewrite Hs in E. by apply matchAt_None in E.
    + injection Hs as -> Hs. apply IH; [done|]. by exists pre, w, post.
Qed.

Lemma test_true r s : test r s = true <-> occurs r s.
Proof.
  unfold test. destruct (search r s) as [[[pre mt] post]|] eqn:E.
  - split; [|done]. intros _. apply search_sound in E as (-> & Hl & _).
    by exists pre, mt, post.
  - split; [done|]. intros H. by apply search_None in E.
Qed.

Lemma test_false r s : test r s = false <-> ~ occurs r s.
Proof.
  rewrite <- test_true. destruct (test r s); naive_solver.
Qed.

(** ** Words of a pattern *)

Lemma lang_eolFree r : forall w rest rest',
  eolFree r = true -> lang r w rest -> lang r w rest'.
Proof.
  induction r as [|p|r1 IH1 r2 IH2|r1 IH1 r2 IH2|p|]; intros w rest rest'; simpl; try done.
  - intros [E1 E2]%andb_prop (w1 & w2 & -> & H1 & H2). exists w1, w2. eauto.
  - intros [E1 E2]%andb_prop [H|H]; eauto.
Qed.

Lemma occurs_intro r pre w post :
  eolFree r = true -> lang r w [] -> occurs r (pre ++ w ++ post).
Proof. intros He Hl. exists pre, w, post. split; [done|]. by eapply lang_eolFree. Qed.

(** A match inside a part of a string is a match inside the string. *)
Lemma occurs_within r a s b :
  eolFree r = true -> occurs r s -> occurs r (a ++ s ++ b).
Proof.
  intros He (pre & w & post & -> & Hl).
  exists (a ++ pre), w, (post ++ b). split.
  - by rewrite <- !app_assoc.
  - by eapply lang_eolFree.
Qed.

Lemma test_within r a s b :
  eolFree r = true -> test r (a ++ s ++ b) = false -> test r s = false.
Proof.
  rewrite !test_false. intros He Hn Ho. apply Hn. by apply occurs_within.
Qed.

Lemma test_prefix r s b :
  eolFree r = true -> test r (s ++ b) = false -> test r s = false.
Proof. intros He. by apply (test_within r [] s b). Qed.

Lemma test_suffix r a s :
  eolFree r = true -> test r (a ++ s) = false -> test r s = false.
Proof. intros He H. apply (test_within r a s []); [done|]. by rewrite app_nil_r. Qed.

Lemma in_allAscii c : In c allAscii.
Proof.
  unfold allAscii. rewrite <- (ascii_nat_embedding c). apply in_map.
  apply in_seq. pose proof (nat_ascii_bounded c). lia.
Qed.

Lemma classWithin_sound p q c :
  classWithin p q = true -> p c = true -> q c = true.
Proof.
  unfold classWithin. rewrite forallb_forall. intros H Hp.
  specialize (H c (in_allAscii c)). by rewrite Hp in H.
Qed.

Lemma charsWithin_sound q r : forall w rest,
  charsWithin q r = true -> lang r w rest -> Forall (fun c => q c = true) w.
Proof.
  induction r as [|p|r1 IH1 r2 IH2|r1 IH1 r2 IH2|p|]; intros w rest; simpl.
  - by intros _ ->.
  - intros H (c & -> & Hp). repeat constructor. by eapply classWithin_sound.
  - intros [E1 E2]%andb_prop (w1 & w2 & -> & H1 & H2). apply Forall_app. eauto.
  - intros [E1 E2]%andb_prop [H|H]; eauto.
  - intros H Hw. eapply Forall_impl; [done|]. intros c. by apply classWithin_sound.
  - by intros _ [-> _].
Qed.

Lemma tailWithin_sound q r : forall w rest,
  tailWithin q r = true -> lang r w rest -> Forall (fun c => q c = true) (tail w).
Proof.
  induction r as [|p|r1 IH1 r2 IH2|r1 IH1 r2 IH2|p|]; intros w rest; simpl.
  - by intros _ ->.
  - by intros _ (c & -> & _).
  - intros [E1 E2]%andb_prop (w1 & w2 & -> & H1 & H2).
    pose proof (charsWithin_sound _ _ _ _ E2 H2) as Hc.
    destruct w1 as [|c w1]; simpl.
    + by apply Forall_tail.
    + apply Forall_app. split; [|done]. by apply (IH1 _ _ E1 H1).
  - intros [E1 E2]%andb_prop [H|H]; eauto.
  - intros H Hw. apply Forall_tail. eapply Forall_impl; [done|].
    intros c. by apply classWithin_sound.
  - by intros _ [-> _].
Qed.

(** *** Inserting text cannot create a match

    If no match of [r] starts inside the inserted text [ins] (whatever
    follows it), and no word of [r] carries the first character of
    [ins] after its own first character, then a match in
    [u ++ ins ++ v] lies in [u] or in [v]. *)

Lemma blocked_not_lang r sfx v w post rest :
  eolFree r = true -> blocked r sfx -> sfx ++ v = w ++ post -> ~ lang r w rest.
Proof.
  intros He Hb Hs Hl. specialize (Hb v). rewrite Hs in Hb.
  apply matchAt_None in Hb. apply Hb. by eapply lang_eolFree.
Qed.

Lemma occurs_insert r c ins u v :
  eolFree r = true ->
  tailWithin (fun d => negb (eqc d c)) r = true ->
  (forall l1 l2, c :: ins = l1 ++ l2 -> l2 <> [] -> blocked r l2) ->
  occurs r (u ++ (c :: ins) ++ v) -> occurs r u \/ occurs r v.
Proof.
  intros He Ht Hb (pre & w & post & Hs & Hl).
  apply app_eq_app in Hs as [l [[-> Hs]|[-> Hs]]].
  - (* the match starts in [u] *)
    symmetry in Hs. apply app_eq_app in Hs as [l2 [[-> Hs]|[-> Hs]]].
    + left. exists pre, w, l2. split; [by rewrite <- ?app_assoc|]. by eapply lang_eolFree.
    + destruct l2 as [|d l2].
      * left. exists pre, (l ++ []), []. split; [by rewrite !app_nil_r|]. by eapply lang_eolFree.
      * exfalso. destruct l as [|e l].
        -- assert (Hbl : blocked r (c :: ins)) by (by apply (Hb [])).
           by eapply (blocked_not_lang r (c :: ins) v ([] ++ d :: l2) post post).
        -- simpl in Hs. injection Hs as <- Hs.
           pose proof (tailWithin_sound _ _ _ _ Ht Hl) as Hf.
           simpl in Hf. apply Forall_app in Hf as [_ Hf]. inversion Hf as [|? ? Hd _]; subst.
           unfold eqc in Hd. by rewrite Ascii.eqb_refl in Hd.
  - (* the match starts in the inserted text or in [v] *)
    apply app_eq_app in Hs as [l2 [[Hi Hs]|[-> Hs]]].
    + destruct l2 as [|d l2].
      * right. simpl in Hs. subst v. by exists [], w, post.
      * exfalso. assert (Hbl : blocked r (d :: l2)) by (by apply (Hb l)).
        by eapply (blocked_not_lang r (d :: l2) v w post post).
    + right. by exists l2, w, post.
Qed.

Lemma test_insert r c ins u v :
  eolFree r = true ->
  tailWithin (fun d => negb (eqc d c)) r = true ->
  (forall l1 l2, c :: ins = l1 ++ l2 -> l2 <> [] -> blocked r l2) ->
  test r u = false -> test r v = false -> test r (u ++ (c :: ins) ++ v) = false.
Proof.
  rewrite !test_false. intros He Ht Hb Hu Hv Ho.
  destruct (occurs_insert _ _ _ _ _ He Ht Hb Ho); tauto.
Qed.

Lemma tails_split s : forall l1 l2, s = l1 ++ l2 -> l2 <> [] -> In l2 (tails s).
Proof.
  induction s as [|c s IH]; intros l1 l2 Hs Hne.
  - symmetry in Hs. by apply app_eq_nil in Hs as [_ ->].
  - destruct l1 as [|d l1]; simpl in Hs.
    + subst l2. by left.
    + injection Hs as -> Hs. right. by apply (IH l1).
Qed.

Lemma insulated_insert r u v :
  insulated r ->
  test r u = false -> test r v = false -> test r (u ++ hiResSuffix ++ v) = false.
Proof.
  intros (He & Ht & Hb). apply test_insert; [done|done|].
  intros l1 l2 Hs Hne. rewrite Forall_forall in Hb. apply Hb.
  apply list_elem_of_In. by apply (tails_split _ l1).
Qed.

(** A global replacement by the high-resolution suffix cannot create a
    match of an insulated pattern. *)
Lemma replaceAllFrom_insulated r lr fuel : forall s u v,
  insulated r ->
  test r (u ++ s ++ v) = false ->
  test r (u ++ replaceAllFrom fuel lr (fun _ => hiResSuffix) s ++ v) = false.
Proof.
  induction fuel as [|fuel IH]; intros s u v Hi Ht; [done|].
  pose proof Hi as (He & _). cbn [replaceAllFrom].
  destruct (search lr s) as [[[pre mt] post]|] eqn:E; [|done].
  apply search_sound in E as (-> & _ & _).
  rewrite <- !app_assoc. rewrite app_assoc.
  apply insulated_insert; [done| |].
  - apply (test_prefix r _ (mt ++ post ++ v)); [done|]. by rewrite <- !app_assoc in *.
  - assert (Hpost : test r (post ++ v) = false).
    { apply (test_suffix r (u ++ pre ++ mt)); [done|]. by rewrite <- !app_assoc in *. }
    destruct mt as [|c mt]; [destruct post as [|c post]|].
    + done.
    + apply (IH post [c] v); done.
    + apply (IH post [] v); done.
Qed.

Lemma replaceAll_insulated r lr s v :
  insulated r ->
  test r (s ++ v) = false ->
  test r (replaceAll lr (fun _ => hiResSuffix) s ++ v) = false.
Proof. intros Hi Ht. by apply (replaceAllFrom_insulated r lr _ s [] v). Qed.

(** *** Splitting at the question mark *)

Lemma split_nonempty c s : split c s <> [].
Proof.
  destruct s as [|d s]; simpl; [done|].
  destruct (eqc d c); [done|]. by destruct (split c s).
Qed.

Lemma split_base_query s :
  exists tl, s = baseOf (split "?"%char s) ++ queryOf (split "?"%char s) ++ tl.
Proof.
  assert (Hbase : forall s, exists tl, s = baseOf (split "?"%char s) ++ tl).
  { clear s. induction s as [|d s [tl IH]]; simpl; [by exists []|].
    destruct (eqc d "?"%char); [by exists (d :: s)|].
    destruct (split "?"%char s) as [|h t] eqn:E; [by exists s|].
    exists tl. simpl in *. by rewrite <- IH. }
  induction s as [|d s [tl IH]]; simpl; [by exists []|].
  destruct (eqc d "?"%char) eqn:Ed.
  - apply Ascii.eqb_eq in Ed as ->. destruct (Hbase s) as [tl' Hs].
    destruct (split "?"%char s) as [|[|c q] t] eqn:E; simpl in *.
    + by exists ("?"%char :: s).
    + by exists ("?"%char :: s).
    + exists tl'. by rewrite <- Hs.
  - destruct (split "?"%char s) as [|h t] eqn:E.
    + by destruct (split_nonempty "?"%char s).
    + exists tl. simpl in *. by rewrite <- IH.
Qed.

(** ** The exclusion patterns are insulated *)

Lemma excludePatterns_insulated : Forall insulated Pat.excludePatterns.
Proof.
  unfold Pat.excludePatterns.
  repeat (apply Forall_cons_2; [insulate|]). apply Forall_nil_2.
Qed.

Lemma skipPatterns_insulated : Forall insulated Interception.skipPatterns.
Proof.
  unfold Interception.skipPatterns.
  repeat (apply Forall_cons_2; [insulate|]). apply Forall_nil_2.
Qed.

Lemma commonSkip_insulated : Forall insulated commonSkip.
Proof.
  unfold commonSkip.
  repeat (apply Forall_cons_2; [insulate|]). apply Forall_nil_2.
Qed.

Lemma existsb_test_false (rs : list re) (s : str) :
  existsb (fun r => test r s) rs = false <-> Forall (fun r => test r s = false) rs.
Proof.
  induction rs as [|r rs IH]; simpl.
  - split; [by constructor|done].
  - rewrite orb_false_iff, IH, Forall_cons. done.
Qed.

(** The insertion of the suffix before the extension. *)
Lemma replaceFirst_insulated r er s v :
  insulated r ->
  test r (s ++ v) = false ->
  test r (replaceFirst er insertSuffix s ++ v) = false.
Proof.
  intros Hi Ht. pose proof Hi as (He & _). unfold replaceFirst.
  destruct (search er s) as [[[pre mt] post]|] eqn:E; [|done].
  apply search_sound in E as (-> & _ & _).
  unfold insertSuffix. rewrite <- !app_assoc. rewrite <- !app_assoc in Ht.
  apply insulated_insert; [done| |].
  - by apply (test_prefix r _ (mt ++ post ++ v)).
  - by apply (test_suffix r pre).
Qed.

Lemma upgradeUrl_insulated r cleanUrl :
  insulated r -> test r cleanUrl = false -> test r (upgradeUrl cleanUrl) = false.
Proof.
  intros Hi Ht. pose proof Hi as (He & _). unfold upgradeUrl.
  destruct (split_base_query cleanUrl) as [tl Hs].
  assert (Hp : test r (baseOf (split "?"%char cleanUrl) ++ queryOf (split "?"%char cleanUrl)) = false).
  { rewrite Hs, app_assoc in Ht. by apply test_prefix in Ht. }
  destruct (test (Pat.highRes eqc) cleanUrl); [done|].
  destruct (test (Pat.lowRes eqc) cleanUrl).
  - by apply replaceAll_insulated.
  - destruct (includes "alicdn.com" cleanUrl && negb (test Pat.anySize cleanUrl)); [|done].
    destruct (test Pat.extAtEnd _ && negb (test Pat.anySize _)); [|done].
    by apply replaceFirst_insulated.
Qed.

Lemma upgradeDirect_insulated r url :
  insulated r -> test r url = false -> test r (Interception.upgradeDirect url) = false.
Proof.
  intros Hi Ht. pose proof Hi as (He & _). unfold Interception.upgradeDirect.
  destruct (split_base_query url) as [tl Hs].
  assert (Hp : test r (baseOf (split "?"%char url) ++ queryOf (split "?"%char url)) = false).
  { rewrite Hs, app_assoc in Ht. by apply test_prefix in Ht. }
  destruct (negb (test (Pat.highRes eqci) url)); [|done].
  destruct (test (Pat.lowRes' eqci) url).
  - by apply replaceAll_insulated.
  - destruct (negb (test Pat.anySize url)); [|done].
    destruct (test Pat.extAtEnd _ && negb (test Pat.anySize _)); [|done].
    by apply replaceFirst_insulated.
Qed.

Lemma existsb_insulated (rs : list re) (f : str -> str) (s : str) :
  Forall insulated rs ->
  (forall r, insulated r -> test r s = false -> test r (f s) = false) ->
  existsb (fun r => test r s) rs = false ->
  existsb (fun r => test r (f s)) rs = false.
Proof.
  rewrite !existsb_test_false. intros Hi Hf Hs.
  induction Hi as [|r rs Hr Hi IH]; [by constructor|].
  apply Forall_cons in Hs as [Hs1 Hs2]. apply Forall_cons. split; [by apply Hf|by apply IH].
Qed.

(** The upgrade step never turns an accepted candidate into an excluded
    one. *)
Lemma isExcluded_upgradeUrl cleanUrl :
  isExcluded cleanUrl = false -> isExcluded (upgradeUrl cleanUrl) = false.
Proof.
  apply existsb_insulated; [apply excludePatterns_insulated|].
  intros r. apply upgradeUrl_insulated.
Qed.

Lemma shouldSkip_upgradeDirect url :
  Interception.shouldSkip url = false ->
  Interception.shouldSkip (Interception.upgradeDirect url) = false.
Proof.
  apply existsb_insulated; [apply skipPatterns_insulated|].
  intros r. apply upgradeDirect_insulated.
Qed.

Lemma test_Alt r1 r2 s : test (Alt r1 r2) s = test r1 s || test r2 s.
Proof.
  apply eq_true_iff_eq. rewrite orb_true_iff, !test_true. split.
  - intros (pre & w & post & -> & [H|H]); [left|right]; by exists pre, w, post.
  - intros [(pre & w & post & -> & H)|(pre & w & post & -> & H)];
      exists pre, w, post; simpl; auto.
Qed.

Lemma isExcluded_commonlySkipped url :
  isExcluded url = false -> commonlySkipped url = false.
Proof.
  unfold isExcluded, commonlySkipped, Pat.excludePatterns, commonSkip, Pat.smallUi.
  cbn [existsb Alts]. rewrite !test_Alt. intros H. split_tests.
Qed.

Lemma shouldSkip_commonlySkipped url :
  Interception.shouldSkip url = false -> commonlySkipped url = false.
Proof.
  unfold Interception.shouldSkip, commonlySkipped, Interception.skipPatterns,
    commonSkip, Pat.lowRes'.
  cbn [existsb Alts]. rewrite !test_Alt. intros H. split_tests.
Qed.

Lemma fallbackSkip_isExcluded url :
  commonlySkipped url = false -> test Ranking.fallbackSkip url = false ->
  isExcluded url = false.
Proof.
  unfold isExcluded, commonlySkipped, Pat.excludePatterns, commonSkip, Pat.smallUi,
    Ranking.fallbackSkip.
  cbn [existsb Alts]. rewrite !test_Alt. intros H1 H2. split_tests.
Qed.

(** ** The store *)

Lemma elem_of_setAdd (u x : str) (s : list str) :
  u ∈ setAdd x s <-> u = x \/ u ∈ s.
Proof.
  unfold setAdd. destruct (decide (x ∈ s)).
  - split; [auto|]. by intros [->|?].
  - rewrite elem_of_app, list_elem_of_singleton. tauto.
Qed.

Lemma NoDup_setAdd (x : str) (s : list str) : NoDup s -> NoDup (setAdd x s).
Proof.
  unfold setAdd. intros Hs. destruct (decide (x ∈ s)); [done|].
  apply NoDup_app. repeat split; [done| |apply NoDup_singleton].
  intros y Hy ->%list_elem_of_singleton. done.
Qed.

Lemma imageUrls_addUrl productId x st :
  imageUrls (addUrl productId x st) = setAdd x (imageUrls st).
Proof. unfold addUrl. by destruct (truthy productId). Qed.

Lemma getProductUrls_addUrl productId x st pid u :
  u ∈ getProductUrls pid (addUrl productId x st) ->
  u = x \/ u ∈ getProductUrls pid st.
Proof.
  unfold addUrl. destruct (truthy productId) as [p|]; [|auto].
  unfold getProductUrls at 1. simpl. destruct (decide (p = pid)) as [->|Hne].
  - rewrite lookup_insert_eq. by intros ?%elem_of_setAdd.
  - rewrite lookup_insert_ne by done. auto.
Qed.

Lemma getProductUrls_addUrl_same productId x st pid :
  truthy productId = Some pid ->
  getProductUrls pid (addUrl productId x st) = setAdd x (getProductUrls pid st).
Proof.
  intros Ht. unfold addUrl. rewrite Ht. unfold getProductUrls at 1. simpl.
  by rewrite lookup_insert_eq.
Qed.

Lemma getProductUrls_addUrl_other productId x st q :
  truthy productId <> Some q ->
  getProductUrls q (addUrl productId x st) = getProductUrls q st.
Proof.
  intros Ht. unfold addUrl. destruct (truthy productId) as [p|]; [|done].
  unfold getProductUrls at 1. simpl. rewrite lookup_insert_ne; [done|congruence].
Qed.

Lemma storeClean_addUrl productId x st :
  isExcluded x = false -> storeClean st -> storeClean (addUrl productId x st).
Proof.
  intros Hx [Hp Hg]. split.
  - intros pid u [->|Hu]%getProductUrls_addUrl; eauto.
  - intros u. rewrite imageUrls_addUrl. intros [->|Hu]%elem_of_setAdd; [|eauto].
    by apply isExcluded_commonlySkipped.
Qed.

Lemma storeClean_processMatch productId acc mt :
  storeClean acc.1 -> storeClean (processMatch productId acc mt).1.
Proof.
  intros Hc. unfold processMatch.
  destruct (isDataUri (cleanUp mt)); [done|].
  destruct (isExcluded (cleanUp mt)) eqn:Hx; [done|].
  simpl. apply storeClean_addUrl; [|done]. by apply isExcluded_upgradeUrl.
Qed.

Lemma fold_patterns bodyString productId (ps : list re) : forall acc,
  fold_left (processPattern bodyString productId) ps acc =
  fold_left (processMatch productId)
    (flat_map (fun pattern => matchAll pattern bodyString) ps) acc.
Proof.
  induction ps as [|p ps IH]; intros acc; simpl; [done|].
  by rewrite fold_left_app, IH.
Qed.

Lemma extractFromResponse_candidates bodyString productId st :
  extractFromResponse bodyString productId st =
  fold_left (processMatch productId) (candidates bodyString) (st, false).
Proof. apply fold_patterns. Qed.

Lemma storeClean_extract bodyString productId st :
  storeClean st -> storeClean (extractFromResponse bodyString productId st).1.
Proof.
  rewrite extractFromResponse_candidates. generalize (candidates bodyString).
  intros ms. change st with ((st, false).1) at 1. generalize (st, false).
  induction ms as [|mt ms IH]; intros acc Hc; simpl; [done|].
  apply IH. by apply storeClean_processMatch.
Qed.

Lemma storeClean_intercept url st :
  storeClean st -> storeClean (Interception.interceptImage url st).
Proof.
  intros Hc. unfold Interception.interceptImage.
  destruct (test Interception.imageUrl url); [|done].
  destruct (Interception.shouldSkip url) eqn:Hs; [done|]. cbn [negb andb].
  destruct (includes "alicdn.com" url); [|done].
  destruct Hc as [Hp Hg]. split; [intros pid u; apply (Hp pid u)|].
  simpl. intros u [->|Hu]%elem_of_setAdd; [|eauto].
  by apply shouldSkip_commonlySkipped, shouldSkip_upgradeDirect.
Qed.

Lemma storeClean_reachable st : reachable st -> storeClean st.
Proof.
  induction 1.
  - split; [intros pid u|intros u]; unfold getProductUrls; simpl.
    + rewrite lookup_empty. by intros ?%elem_of_nil.
    + by intros ?%elem_of_nil.
  - by apply storeClean_extract.
  - by apply storeClean_intercept.
  - split; [intros pid u|intros u]; unfold getProductUrls; simpl.
    + rewrite lookup_empty. by intros ?%elem_of_nil.
    + by intros ?%elem_of_nil.
Qed.

(** ** Sets as duplicate-free lists *)

Lemma setAdd_elem (x : str) (s : list str) : x ∈ s -> setAdd x s = s.
Proof. unfold setAdd. intros H. by destruct (decide (x ∈ s)). Qed.

Lemma setAdd_fresh (x : str) (s : list str) : x ∉ s -> setAdd x s = s ++ [x].
Proof. unfold setAdd. intros H. by destruct (decide (x ∈ s)). Qed.

Lemma fold_setAdd_elem (l : list str) : forall acc u,
  u ∈ fold_left (fun s x => setAdd x s) l acc <-> u ∈ acc \/ u ∈ l.
Proof.
  induction l as [|x l IH]; intros acc u; simpl.
  - rewrite elem_of_nil. tauto.
  - rewrite IH, elem_of_setAdd, elem_of_cons. tauto.
Qed.

Lemma fold_setAdd_NoDup (l : list str) : forall acc,
  NoDup acc -> NoDup (fold_left (fun s x => setAdd x s) l acc).
Proof.
  induction l as [|x l IH]; intros acc Ha; simpl; [done|].
  by apply IH, NoDup_setAdd.
Qed.

Lemma elem_of_setFrom (l : list str) u : u ∈ setFrom l <-> u ∈ l.
Proof. unfold setFrom. rewrite fold_setAdd_elem, elem_of_nil. tauto. Qed.

Lemma NoDup_setFrom (l : list str) : NoDup (setFrom l).
Proof. apply fold_setAdd_NoDup, NoDup_nil_2. Qed.

(** A list without duplicates is its own set. *)
Lemma fold_setAdd_NoDup_id (l : list str) : forall acc,
  NoDup (acc ++ l) -> fold_left (fun s x => setAdd x s) l acc = acc ++ l.
Proof.
  induction l as [|x l IH]; intros acc Hn; simpl; [by rewrite app_nil_r|].
  rewrite setAdd_fresh.
  - rewrite IH; rewrite <- app_assoc; done.
  - apply NoDup_app in Hn as (_ & Hn & _). intros Hx. apply (Hn x Hx). by left.
Qed.

Lemma setFrom_NoDup_id (l : list str) : NoDup l -> setFrom l = l.
Proof. intros Hn. unfold setFrom. by rewrite fold_setAdd_NoDup_id. Qed.

Lemma setFrom_idem (l : list str) : setFrom (setFrom l) = setFrom l.
Proof. apply setFrom_NoDup_id, NoDup_setFrom. Qed.

(** ** The sort *)

Section Sort.
Variable cmp : str -> str -> Z.

Lemma insertBy_Permutation x l : insertBy cmp x l ≡ₚ x :: l.
Proof.
  induction l as [|y l IH]; simpl; [done|].
  destruct (cmp x y <=? 0)%Z; [done|]. rewrite IH. apply Permutation_swap.
Qed.

Lemma sortBy_Permutation l : sortBy cmp l ≡ₚ l.
Proof.
  induction l as [|x l IH]; simpl; [done|].
  by rewrite insertBy_Permutation, IH.
Qed.

Hypothesis cmp_anti : forall a b, (0 < cmp a b)%Z -> (cmp b a <= 0)%Z.
Hypothesis cmp_trans : forall a b c,
  (cmp a b <= 0)%Z -> (cmp b c <= 0)%Z -> (cmp a c <= 0)%Z.

Lemma insertBy_sorted x l :
  StronglySorted (fun a b => (cmp a b <= 0)%Z) l ->
  StronglySorted (fun a b => (cmp a b <= 0)%Z) (insertBy cmp x l).
Proof.
  induction 1 as [|y l Hs IH Hy]; simpl.
  - repeat constructor.
  - destruct (cmp x y <=? 0)%Z eqn:E.
    + apply Z.leb_le in E. constructor; [by constructor|].
      constructor; [done|]. eapply Forall_impl; [done|]. intros z Hz. simpl in Hz. eauto.
    + apply Z.leb_gt in E. constructor; [done|].
      rewrite insertBy_Permutation. constructor; [auto|done].
Qed.

Lemma sortBy_sorted l : StronglySorted (fun a b => (cmp a b <= 0)%Z) (sortBy cmp l).
Proof.
  induction l as [|x l IH]; simpl; [constructor|]. by apply insertBy_sorted.
Qed.

End Sort.


(** *** Numbers *)


Lemma nearest_pos n : (0 < n)%Z -> (0 < Js.nearest n)%Z.
Proof.
  intros Hn. unfold Js.nearest. destruct (Z.ltb_spec n (2 ^ 53)); [done|].
  assert (H53 : (53 <= Z.log2 n)%Z) by (apply Z.log2_le_pow2; lia).
  set (e := (Z.log2 n - 52)%Z).
  assert (He : (0 <= e)%Z) by lia.
  assert (Hq : (1 <= Z.shiftr n e)%Z).
  { rewrite Z.shiftr_div_pow2 by done. apply Z.div_le_lower_bound; [lia|].
    rewrite Z.mul_1_r. destruct (Z.log2_spec n Hn) as [Hl _].
    etrans; [|exact Hl]. apply Z.pow_le_mono_r; lia. }
  cbv zeta.
  assert (Hs : forall q', (1 <= q')%Z -> (0 < Z.shiftl q' e)%Z).
  { intros q' Hq'. rewrite Z.shiftl_mul_pow2 by done.
    assert (0 < 2 ^ e)%Z by lia. nia. }
  repeat match goal with |- context [if ?b then _ else _] => destruct b end;
    apply Hs; lia.
Qed.


Example nearest_examples :
  Js.ofZ (2 ^ 53 + 1) = Num (2 ^ 53) /\
  Js.ofZ (2 ^ 53 + 3) = Num (2 ^ 53 + 4) /\
  Js.ofZ (10 ^ 23) = Num 99999999999999991611392 /\
  Js.ofZ (2 ^ 1024 - 2 ^ 970 - 1) = Num (2 ^ 1024 - 2 ^ 971) /\
  Js.ofZ (2 ^ 1024 - 2 ^ 970) = PosInf /\
  Js.sub PosInf PosInf = NaN.
Proof. by vm_compute. Qed.

(** A number that [parseInt] returns for a string of digits, or the
    difference of two of them, keeps the sign of the integer it stands
    for. *)
Lemma ofZ_sgn d : Z.sgn (Js.sortCompare (Js.ofZ d)) = Z.sgn d.
Proof.
  unfold Js.ofZ. destruct (Z.eq_dec d 0) as [->|Hd]; [done|].
  pose proof (nearest_pos (Z.abs d) ltac:(lia)) as Hm.
  generalize dependent (Js.nearest (Z.abs d)). intros m Hm.
  destruct (2 ^ 1024 <=? m)%Z.
  - destruct (Z.ltb_spec d 0); simpl; lia.
  - simpl. rewrite Z.sgn_mul. lia.
Qed.

Lemma isZero_ofZ d : Js.isZero (Js.ofZ d) = bool_decide (d = 0%Z).
Proof.
  pose proof (ofZ_sgn d) as Hs. destruct (Js.ofZ d) as [z| | |] eqn:E; simpl in *.
  - case_bool_decide; [apply Z.eqb_eq|apply Z.eqb_neq]; lia.
  - case_bool_decide; [lia|done].
  - case_bool_decide; [lia|done].
  - unfold Js.ofZ in E. by repeat case_match.
Qed.


Lemma ofZ_sizeLike n : (0 <= n)%Z -> sizeLike (Js.ofZ n).
Proof.
  intros Hn. unfold Js.ofZ.
  destruct (Z.eq_dec n 0) as [->|Hn0].
  - left. exists 0%Z. split; [done|]. split; [done|]. by apply Z.pow_pos_nonneg.
  - pose proof (nearest_pos (Z.abs n) ltac:(lia)) as Hm.
    generalize dependent (Js.nearest (Z.abs n)). intros m Hm.
    destruct (Z.leb_spec (2 ^ 1024) m).
    + right. by destruct (Z.ltb_spec n 0); [lia|].
    + left. eexists. split; [done|]. rewrite Z.sgn_pos by lia. lia.
Qed.

Lemma isDigit_digitVal c : isDigit c = true -> (0 <= Js.digitVal c <= 9)%Z.
Proof.
  unfold isDigit, Js.digitVal. intros [H1 H2]%andb_prop.
  apply Nat.leb_le in H1, H2. lia.
Qed.

Lemma decimalValue_nonneg (s : str) :
  Forall (fun c => isDigit c = true) s -> (0 <= Js.decimalValue s)%Z.
Proof.
  unfold Js.decimalValue. intros Hs.
  assert (H : forall acc, (0 <= acc)%Z ->
            (0 <= fold_left (fun acc c => 10 * acc + Js.digitVal c) s acc)%Z); [|by apply H].
  induction Hs as [|c s Hc Hs IH]; intros acc Hacc; simpl; [done|].
  apply IH. pose proof (isDigit_digitVal c Hc). lia.
Qed.

Lemma sizeText_digits a : Forall (fun c => isDigit c = true) (sizeText a).
Proof.
  unfold sizeText. destruct (search Pat.anySize a) as [[[pre mt] post]|].
  - generalize (tail mt). intros s. induction s as [|c s IH]; simpl; [done|].
    destruct (isDigit c) eqn:E; [by constructor|done].
  - by repeat constructor.
Qed.

Lemma sizeValue_nonneg a : (0 <= sizeValue a)%Z.
Proof. apply decimalValue_nonneg, sizeText_digits. Qed.

Lemma sizeOf_sizeLike a : sizeLike (sizeOf a).
Proof. apply ofZ_sizeLike, sizeValue_nonneg. Qed.



(** *** The comparator *)

Lemma comparison_le a b :
  (comparison a b <= 0)%Z <->
  (sizeKey (sizeOf b) < sizeKey (sizeOf a))%Z \/
  (sizeKey (sizeOf a) = sizeKey (sizeOf b) /\ (tieKey b <= tieKey a)%Z).
Proof.
  unfold comparison, compareUrls, tieKey.
  destruct (sizeOf_sizeLike a) as [(x & -> & Hx)| ->];
    destruct (sizeOf_sizeLike b) as [(y & -> & Hy)| ->]; cbn [Js.sub sizeKey].
  - rewrite isZero_ofZ. pose proof (ofZ_sgn (y - x)) as Hs.
    case_bool_decide as Hd.
    + pose proof (ofZ_sgn (isKf b - isKf a)) as Hk. lia.
    + lia.
  - simpl. generalize dependent (2 ^ 1024)%Z. intros. lia.
  - simpl. generalize dependent (2 ^ 1024)%Z. intros. lia.
  - simpl. lia.
Qed.

Lemma comparison_anti a b : (0 < comparison a b)%Z -> (comparison b a <= 0)%Z.
Proof.
  intros H. apply comparison_le. pose proof (comparison_le a b) as Hab. lia.
Qed.

Lemma comparison_trans a b c :
  (comparison a b <= 0)%Z -> (comparison b c <= 0)%Z -> (comparison a c <= 0)%Z.
Proof. rewrite !comparison_le. lia. Qed.

Lemma elem_of_rank allUrls u :
  u ∈ rank allUrls <-> u ∈ allUrls /\ qualifies u = true.
Proof.
  unfold rank. rewrite (sortBy_Permutation comparison), elem_of_setFrom.
  rewrite !list_elem_of_In. apply filter_In.
Qed.

Lemma qualifies_not_excluded u : qualifies u = true -> isExcluded u = false.
Proof.
  unfold qualifies, isExcluded.
  destruct (negb (includes "alicdn.com" u)); [done|].
  by destruct (existsb _ Pat.excludePatterns).
Qed.

Lemma selectImageUrls_clean productId st u :
  storeClean st -> u ∈ selectImageUrls productId st -> isExcluded u = false.
Proof.
  intros [Hp Hg]. unfold selectImageUrls.
  destruct (negb (bool_decide (productId = "unknown")) && _).
  - apply Hp.
  - destruct (Nat.eqb (List.length (rank (imageUrls st))) 0).
    + rewrite list_elem_of_In, filter_In, <- list_elem_of_In.
      intros [Hu [_ Hf%negb_true_iff]%andb_prop]. apply fallbackSkip_isExcluded; auto.
    + intros [_ Hq]%elem_of_rank. by apply qualifies_not_excluded.
Qed.

(** ** The exclusion filter and the store (C3) *)

Lemma extract_adds_clean productId (ms : list str) : forall acc u,
  u ∈ imageUrls (fold_left (processMatch productId) ms acc).1 ->
  u ∈ imageUrls acc.1 \/ isExcluded u = false.
Proof.
  induction ms as [|mt ms IH]; intros acc u; simpl; [auto|].
  intros [Hu|Hu]%IH; [|auto]. revert Hu. unfold processMatch.
  destruct (isDataUri (cleanUp mt)); [auto|].
  destruct (isExcluded (cleanUp mt)) eqn:Hx; [auto|].
  simpl. rewrite imageUrls_addUrl. intros [->|Hu]%elem_of_setAdd; [|auto].
  right. by apply isExcluded_upgradeUrl.
Qed.

(** C3, as stated, fails: a URL that matches the exclusion pattern of the
    small-UI size markers ([_20x20]) enters the global set of the store
    when it arrives as a direct image response, whose skip list does not
    name that marker. *)
Lemma exclusion_bypassed_by_image_response :
  let st := Interception.interceptImage Sample.tinyImage empty in
  reachable st /\
  isExcluded Sample.tinyImage = true /\
  Sample.tinyImage ∈ imageUrls st.
Proof.
  split; [apply reach_intercept, reach_empty|].
  split; [by vm_compute|].
  vm_compute. apply list_elem_of_here.
Qed.

(** C3, amended: in every reachable state of the store no URL of a
    product-keyed set and no URL of a selected (ranked) list matches an
    exclusion pattern; a candidate that matches one is dropped by
    [extractFromResponse], which adds only URLs free of such matches to
    the global set; and the global set, which direct image responses
    also feed, holds no URL that matches one of the patterns common to
    both filters. *)
Theorem exclusion_invariant st :
  reachable st ->
  (forall pid u, u ∈ getProductUrls pid st -> isExcluded u = false) /\
  (forall productId u, u ∈ selectImageUrls productId st -> isExcluded u = false) /\
  (forall u, u ∈ imageUrls st -> commonlySkipped u = false) /\
  (forall productId acc mt,
      isExcluded (cleanUp mt) = true -> processMatch productId acc mt = acc) /\
  (forall bodyString productId u,
      u ∈ imageUrls (extractFromResponse bodyString productId st).1 ->
      u ∈ imageUrls st \/ isExcluded u = false).
Proof.
  intros Hr. pose proof (storeClean_reachable st Hr) as Hc.
  split; [apply Hc|]. split; [|split; [apply Hc|split]].
  - intros productId u. by apply selectImageUrls_clean.
  - intros productId acc mt Hx. unfold processMatch. rewrite Hx.
    by destruct (isDataUri (cleanUp mt)).
  - intros bodyString productId u. rewrite extractFromResponse_candidates.
    apply extract_adds_clean.
Qed.

Lemma exclusion_invariant_witness :
  let st := (extractFromResponse Sample.payload (Some ("42" : str)) empty).1 in
  reachable st /\
  (forall pid u, u ∈ getProductUrls pid st -> isExcluded u = false).
Proof.
  split.
  - apply reach_extract, reach_empty.
  - apply (exclusion_invariant _ (reach_extract _ Sample.payload (Some ("42" : str)) reach_empty)).
Defined.

(** The thumbnail and the high-resolution variant of one image collapse
    into a single entry of the product set. *)
Example two_variants_one_entry :
  let st := (extractFromResponse Sample.twoVariants (Some ("42" : str)) empty).1 in
  getProductUrls "42" st = [ "https://sc04.alicdn.com/kf/H123abc.jpg_960x960q80.jpg" : str ] /\
  imageUrls st = [ "https://sc04.alicdn.com/kf/H123abc.jpg_960x960q80.jpg" : str ].
Proof. by vm_compute. Qed.

(** ** The value returned by [extractFromResponse] (C9) *)

Lemma fold_found productId (ms : list str) : forall acc,
  (fold_left (processMatch productId) ms acc).2 = acc.2 || existsb survives ms.
Proof.
  induction ms as [|mt ms IH]; intros acc; simpl; [by rewrite orb_false_r|].
  rewrite IH. unfold processMatch, survives.
  destruct (isDataUri (cleanUp mt)); simpl; [done|].
  destruct (isExcluded (cleanUp mt)); simpl; [done|].
  by rewrite orb_true_r.
Qed.

Lemma fold_unchanged productId (ms : list str) : forall acc,
  existsb survives ms = false ->
  fold_left (processMatch productId) ms acc = acc.
Proof.
  induction ms as [|mt ms IH]; intros acc; simpl; [done|].
  intros [Hm Hms]%orb_false_iff. rewrite IH by done.
  revert Hm. unfold processMatch, survives.
  destruct (isDataUri (cleanUp mt)); simpl; [done|].
  by destruct (isExcluded (cleanUp mt)).
Qed.

Lemma addUrl_keeps productId x y st :
  (y ∈ imageUrls st -> y ∈ imageUrls (addUrl productId x st)) /\
  (forall pid, y ∈ getProductUrls pid st -> y ∈ getProductUrls pid (addUrl productId x st)).
Proof.
  split.
  - rewrite imageUrls_addUrl, elem_of_setAdd. auto.
  - intros pid Hy. destruct (decide (truthy productId = Some pid)) as [Ht|Ht].
    + rewrite (getProductUrls_addUrl_same _ _ _ _ Ht), elem_of_setAdd. auto.
    + by rewrite (getProductUrls_addUrl_other _ _ _ _ Ht).
Qed.

Lemma processMatch_keeps productId acc mt y :
  (y ∈ imageUrls acc.1 -> y ∈ imageUrls (processMatch productId acc mt).1) /\
  (forall pid, y ∈ getProductUrls pid acc.1 ->
               y ∈ getProductUrls pid (processMatch productId acc mt).1).
Proof.
  unfold processMatch.
  destruct (isDataUri (cleanUp mt)); [done|].
  destruct (isExcluded (cleanUp mt)); [done|]. cbn [fst]. apply addUrl_keeps.
Qed.

Lemma fold_keeps productId (ms : list str) : forall acc y,
  (y ∈ imageUrls acc.1 -> y ∈ imageUrls (fold_left (processMatch productId) ms acc).1) /\
  (forall pid, y ∈ getProductUrls pid acc.1 ->
               y ∈ getProductUrls pid (fold_left (processMatch productId) ms acc).1).
Proof.
  induction ms as [|mt ms IH]; intros acc y; simpl; [done|].
  destruct (IH (processMatch productId acc mt) y) as [H1 H2].
  destruct (processMatch_keeps productId acc mt y) as [H3 H4]. split; [auto|].
  intros pid Hy. apply H2. by apply H4.
Qed.

Lemma fold_files productId (ms : list str) : forall acc,
  filed productId ms (fold_left (processMatch productId) ms acc).1.
Proof.
  induction ms as [|mt ms IH]; intros acc m Hm Hs; [by apply elem_of_nil in Hm|].
  apply elem_of_cons in Hm as [->|Hm]; [|by apply (IH _ m)].
  cbn [fold_left].
  assert (Hin : upgradeUrl (cleanUp mt) ∈ imageUrls (processMatch productId acc mt).1 /\
                (forall pid, truthy productId = Some pid ->
                   upgradeUrl (cleanUp mt) ∈ getProductUrls pid (processMatch productId acc mt).1)).
  { unfold processMatch. unfold survives in Hs.
    apply andb_prop in Hs as [Hd%negb_true_iff Hx%negb_true_iff]. rewrite Hd, Hx. cbn [fst].
    split.
    - rewrite imageUrls_addUrl. apply elem_of_setAdd. by left.
    - intros pid Ht. rewrite (getProductUrls_addUrl_same _ _ _ _ Ht).
      apply elem_of_setAdd. by left. }
  destruct Hin as [H1 H2].
  destruct (fold_keeps productId ms (processMatch productId acc mt) (upgradeUrl (cleanUp mt)))
    as [H3 H4].
  split; [auto|]. intros pid Ht. apply H4. by apply H2.
Qed.

Lemma fold_adds_survivors productId (ms : list str) : forall acc u,
  u ∈ imageUrls (fold_left (processMatch productId) ms acc).1 ->
  u ∈ imageUrls acc.1 \/
  exists mt, mt ∈ ms /\ survives mt = true /\ u = upgradeUrl (cleanUp mt).
Proof.
  induction ms as [|mt ms IH]; intros acc u; simpl; [auto|].
  intros [Hu|(m & Hm & Hs & ->)]%IH.
  - revert Hu. unfold processMatch.
    destruct (isDataUri (cleanUp mt)) eqn:Hd; [auto|].
    destruct (isExcluded (cleanUp mt)) eqn:Hx; [auto|].
    cbn [fst]. rewrite imageUrls_addUrl. intros [->|Hu]%elem_of_setAdd; [|auto].
    right. exists mt. split; [by left|]. split; [|done].
    unfold survives. by rewrite Hd, Hx.
  - right. exists m. split; [by right|done].
Qed.

(** C9, as stated, fails: a second call on the same payload captures
    nothing new (the store is the same before and after) and still
    returns [true]. *)
Lemma found_without_new_capture :
  let st := (extractFromResponse Sample.onePicture None empty).1 in
  extractFromResponse Sample.onePicture None st = (st, true).
Proof. by vm_compute. Qed.

(** C9, amended: [extractFromResponse] returns [true] exactly when at
    least one match survived the data-URI check and the exclusion
    filter, whether or not its URL was already in the store.  The URL of
    every surviving match is in the store afterwards, in the global set
    and, when a product id is given, in the set of the product; the
    global set gains nothing else.  When the call returns [false] the
    store is unchanged.  The result is the boolean alone: no URL is
    returned. *)
Theorem extract_returns_found bodyString productId st :
  ((extractFromResponse bodyString productId st).2 = true <->
   exists mt, mt ∈ candidates bodyString /\ survives mt = true) /\
  (forall mt,
      mt ∈ candidates bodyString -> survives mt = true ->
      upgradeUrl (cleanUp mt) ∈ imageUrls (extractFromResponse bodyString productId st).1 /\
      (forall pid, truthy productId = Some pid ->
         upgradeUrl (cleanUp mt)
         ∈ getProductUrls pid (extractFromResponse bodyString productId st).1)) /\
  (forall u,
      u ∈ imageUrls (extractFromResponse bodyString productId st).1 ->
      u ∈ imageUrls st \/
      exists mt, mt ∈ candidates bodyString /\ survives mt = true /\
                 u = upgradeUrl (cleanUp mt)) /\
  ((extractFromResponse bodyString productId st).2 = false ->
   (extractFromResponse bodyString productId st).1 = st).
Proof.
  rewrite extractFromResponse_candidates, fold_found. simpl.
  split; [|split; [|split]].
  - rewrite existsb_exists. split.
    + intros (mt & Hin & Hs). exists mt. by rewrite list_elem_of_In.
    + intros (mt & Hin & Hs). exists mt. by rewrite <- list_elem_of_In.
  - apply fold_files.
  - intros u Hu. by apply fold_adds_survivors in Hu.
  - intros Hf. by rewrite fold_unchanged.
Qed.

(** ** Cleaning a candidate *)

Lemma replaceAll_no_match r f s : test r s = false -> replaceAll r f s = s.
Proof.
  unfold test, replaceAll. cbn [replaceAllFrom].
  by destruct (search r s) as [[[pre mt] post]|].
Qed.

Lemma urlChar_not_quote c : Pat.urlChar c = true -> Pat.quoteChar c = false.
Proof.
  unfold Pat.urlChar, Pat.quoteChar.
  destruct (eqc c Pat.dquote), (eqc c Pat.squote); simpl; done.
Qed.

Lemma urlChar_not_space c : Pat.urlChar c = true -> isSpace c = false.
Proof.
  unfold Pat.urlChar.
  destruct (eqc c Pat.dquote), (eqc c Pat.squote), (isSpace c); simpl; done.
Qed.

Lemma urlText_no_quotes s : urlText s -> test Pat.quotes s = false.
Proof.
  intros Hs. apply test_false. intros (pre & w & post & -> & c & -> & Hq).
  apply Forall_app in Hs as [_ Hs]. apply Forall_app in Hs as [Hs _].
  apply Forall_cons in Hs as [Hc _]. apply urlChar_not_quote in Hc. congruence.
Qed.

Lemma trimStart_urlText s : urlText s -> trimStart s = s.
Proof.
  destruct 1 as [|c s Hc Hs]; simpl; [done|].
  by rewrite (urlChar_not_space c Hc).
Qed.

Lemma trim_urlText s : urlText s -> trim s = s.
Proof.
  intros Hs. unfold trim, trimEnd. rewrite (trimStart_urlText s Hs).
  rewrite trimStart_urlText; [apply rev_involutive|].
  by apply List.Forall_rev.
Qed.

Lemma cleanUp_urlText s : urlText s -> cleanUp s = s.
Proof.
  intros Hs. unfold cleanUp.
  rewrite replaceAll_no_match by (by apply urlText_no_quotes). by apply trim_urlText.
Qed.

(** ** URLs that already carry a high-resolution marker (C4) *)

Lemma lang_Lit eq s rest : (forall c, eq c c = true) -> lang (Lit eq s) s rest.
Proof.
  intros Heq. induction s as [|c s IH]; simpl; [done|].
  exists [c], s. repeat split; [|done]. by exists c.
Qed.

Lemma eqc_refl c : eqc c c = true.
Proof. apply Ascii.eqb_refl. Qed.

Lemma eqci_refl c : eqci c c = true.
Proof. apply Ascii.eqb_refl. Qed.

Lemma highRes_occurs eq pre marker post :
  (forall c, eq c c = true) ->
  marker ∈ highResMarkers -> test (Pat.highRes eq) (pre ++ marker ++ post) = true.
Proof.
  intros Heq Hm. apply test_true. exists pre, marker, post. split; [done|].
  unfold highResMarkers in Hm. unfold Pat.highRes. cbn [Alts].
  repeat (apply elem_of_cons in Hm as [->|Hm]); [| | | |by apply elem_of_nil in Hm].
  - left. by apply lang_Lit.
  - right; left. by apply lang_Lit.
  - right; right; left. by apply lang_Lit.
  - right; right; right. by apply lang_Lit.
Qed.

(** C4: a string that contains one of the four high-resolution markers,
    anywhere and with any query string, is left unchanged by the upgrade
    step of [extractFromResponse] and by the one of the response
    handler; so the canonicalization returns such a URL (free of quotes
    and white space, and not a data URI, which is rejected before)
    unchanged. *)
Theorem highres_url_unchanged (pre marker post : str) :
  marker ∈ highResMarkers ->
  upgradeUrl (pre ++ marker ++ post) = pre ++ marker ++ post /\
  Interception.upgradeDirect (pre ++ marker ++ post) = pre ++ marker ++ post /\
  (urlText (pre ++ marker ++ post) ->
   isDataUri (pre ++ marker ++ post) = false ->
   canonicalize (pre ++ marker ++ post) = Some (pre ++ marker ++ post)).
Proof.
  intros Hm.
  assert (Hup : upgradeUrl (pre ++ marker ++ post) = pre ++ marker ++ post).
  { unfold upgradeUrl. by rewrite (highRes_occurs eqc pre marker post eqc_refl Hm). }
  split; [done|]. split.
  - unfold Interception.upgradeDirect.
    by rewrite (highRes_occurs eqci pre marker post eqci_refl Hm).
  - intros Hu Hd. unfold canonicalize. by rewrite (cleanUp_urlText _ Hu), Hd, Hup.
Qed.

Lemma highres_url_unchanged_witness :
  canonicalize ("https://sc04.alicdn.com/kf/a" ++ "_960x960" ++ "q80.jpg?sig=a?b=_50x50")
  = Some ("https://sc04.alicdn.com/kf/a" ++ "_960x960" ++ "q80.jpg?sig=a?b=_50x50" : str).
Proof.
  apply (highres_url_unchanged "https://sc04.alicdn.com/kf/a" "_960x960"
           "q80.jpg?sig=a?b=_50x50").
  - vm_compute. apply list_elem_of_here.
  - unfold urlText. apply Forall_forall. intros c Hc.
    apply list_elem_of_In in Hc. revert c Hc. apply forallb_forall. by vm_compute.
  - by vm_compute.
Defined.

(** ** Idempotence and the query string (C1, C2) *)

(** C1 fails on the code at a URL the extractor receives whole as a
    candidate: the first canonicalization cuts the query string at its
    second question mark, which removes the thumbnail marker, and the
    second canonicalization then inserts the high-resolution suffix. *)
Lemma canonicalize_not_idempotent :
  Sample.twoMarks ∈ candidates Sample.twoMarks /\
  canonicalize Sample.twoMarks
    = Some ("https://sc04.alicdn.com/kf/a.jpg?x=1" : str) /\
  canonicalize "https://sc04.alicdn.com/kf/a.jpg?x=1"
    = Some ("https://sc04.alicdn.com/kf/a_960x960q80.jpg?x=1" : str).
Proof.
  split; [|split]; [|by vm_compute|by vm_compute].
  apply list_elem_of_In. vm_compute. auto.
Qed.

(** C2 fails on the code when the query string contains a question
    mark: the thumbnail marker of the path is upgraded, but the query
    string is cut at its second question mark. *)
Lemma query_cut_at_second_mark :
  let u := Sample.thumbBase ++ "?" ++ Sample.thumbQuery in
  canonicalize u = Some ("https://sc04.alicdn.com/kf/a_960x960q80.jpg?x=1" : str) /\
  queryComponent (upgradeUrl u) = "x=1" /\
  queryComponent (upgradeUrl u) <> Sample.thumbQuery.
Proof. by vm_compute. Qed.

(** ** The ranking order (C6) *)





(** ** Deduplication in [downloadAll] (C7) *)

Section DownloadAllProps.
Context {W : Type}.
Variable downloadImage : str -> nat -> W -> (str + str) * W.

Abbreviation loop := (ImageDownloader.loop downloadImage).
Abbreviation iteration := (ImageDownloader.iteration downloadImage).
Abbreviation downloadAll := (ImageDownloader.downloadAll downloadImage).

Lemma iteration_fresh b i u :
  u ∉ ImageDownloader.seenUrls b ->
  ImageDownloader.calls (iteration b i u) = ImageDownloader.calls b ++ [(u, i)] /\
  ImageDownloader.seenUrls (iteration b i u) = ImageDownloader.seenUrls b ++ [u].
Proof.
  intros Hu. unfold ImageDownloader.iteration.
  destruct (decide (u ∈ ImageDownloader.seenUrls b)); [done|].
  rewrite (setAdd_fresh _ _ Hu).
  by destruct (downloadImage u i (ImageDownloader.world b)) as [[p|e] w'].
Qed.

Lemma loop_calls (uniqueImages : list str) : forall b i,
  NoDup (ImageDownloader.seenUrls b ++ uniqueImages) ->
  ImageDownloader.calls (loop b i uniqueImages) =
  ImageDownloader.calls b ++ imap (fun k u => (u, i + k)) uniqueImages.
Proof.
  induction uniqueImages as [|u us IH]; intros b i Hn; simpl; [by rewrite app_nil_r|].
  assert (Hu : u ∉ ImageDownloader.seenUrls b).
  { apply NoDup_app in Hn as (_ & Hn & _). intros Hx. apply (Hn u Hx). by left. }
  destruct (iteration_fresh b i u Hu) as [Hc Hs].
  rewrite IH, Hc, <- app_assoc; [|by rewrite Hs, <- app_assoc].
  simpl. rewrite Nat.add_0_r. do 2 f_equal.
  apply imap_ext. intros k x _. simpl. f_equal. lia.
Qed.

Lemma downloadAll_calls images w :
  ImageDownloader.calls (downloadAll images w).1 = imap (fun k u => (u, k)) (setFrom images).
Proof.
  unfold ImageDownloader.downloadAll. simpl.
  rewrite loop_calls; [done|]. simpl. apply NoDup_setFrom.
Qed.

Lemma iteration_fresh_result b i u :
  u ∉ ImageDownloader.seenUrls b ->
  iteration b i u =
  match downloadImage u i (ImageDownloader.world b) with
  | (inl filePath, w') =>
      ImageDownloader.Batch (ImageDownloader.downloaded b ++ [filePath])
        (ImageDownloader.failed b) (ImageDownloader.seenUrls b ++ [u])
        (ImageDownloader.calls b ++ [(u, i)]) w'
  | (inr message, w') =>
      ImageDownloader.Batch (ImageDownloader.downloaded b)
        (ImageDownloader.failed b ++ [(u, message)]) (ImageDownloader.seenUrls b ++ [u])
        (ImageDownloader.calls b ++ [(u, i)]) w'
  end.
Proof.
  intros Hu. unfold ImageDownloader.iteration.
  destruct (decide (u ∈ ImageDownloader.seenUrls b)); [done|].
  by rewrite (setAdd_fresh _ _ Hu).
Qed.

Lemma setFrom_three (u : str) : setFrom [u; u; u] = [u].
Proof.
  unfold setFrom. simpl. rewrite (setAdd_fresh u []) by apply not_elem_of_nil.
  simpl. by rewrite !(setAdd_elem u [u]) by (by left).
Qed.

Lemma downloadAll_three u w :
  (downloadAll [u; u; u] w).1 =
  match downloadImage u 0 w with
  | (inl filePath, w') => ImageDownloader.Batch [filePath] [] [u] [(u, 0)] w'
  | (inr message, w') => ImageDownloader.Batch [] [(u, message)] [u] [(u, 0)] w'
  end.
Proof.
  unfold ImageDownloader.downloadAll. cbn [fst]. rewrite setFrom_three.
  cbn [ImageDownloader.loop]. rewrite iteration_fresh_result by apply not_elem_of_nil.
  done.
Qed.

(** What the calls of the single-item download add to a log [log] of
    the world: at most the URL of each call, in the order of the
    calls. *)
Lemma loop_log (log : W -> list str) (uniqueImages : list str) :
  (forall u i w, exists k, log (downloadImage u i w).2 = log w ++ k /\ (k = [] \/ k = [u])) ->
  forall b i,
    NoDup (ImageDownloader.seenUrls b ++ uniqueImages) ->
    exists k, log (ImageDownloader.world (loop b i uniqueImages))
              = log (ImageDownloader.world b) ++ k /\
              sublist k uniqueImages.
Proof.
  intros Hlog. induction uniqueImages as [|u us IH]; intros b i Hn.
  - exists []. by rewrite app_nil_r.
  - assert (Hu : u ∉ ImageDownloader.seenUrls b).
    { apply NoDup_app in Hn as (_ & Hn & _). intros Hx. apply (Hn u Hx). by left. }
    cbn [ImageDownloader.loop].
    destruct (IH (iteration b i u) (S i)) as (k & Hk & Hs).
    { destruct (iteration_fresh b i u Hu) as [_ ->]. by rewrite <- app_assoc. }
    rewrite Hk. rewrite (iteration_fresh_result b i u Hu).
    destruct (Hlog u i (ImageDownloader.world b)) as (k0 & Hk0 & Hc).
    destruct (downloadImage u i (ImageDownloader.world b)) as [[filePath|message] w'];
      cbn [ImageDownloader.world snd] in *; rewrite Hk0, <- app_assoc;
      (exists (k0 ++ k); split; [done|]);
      (destruct Hc as [-> | ->]; [by apply sublist_cons|by apply sublist_skip]).
Qed.

End DownloadAllProps.

Section DownloadProps.
Context {N : Type}.
Variables (downloadDir : str) (join : str -> str -> str).
Variable mkdirSync : str -> gset str -> option str * gset str.
Variable pathnameOf : str -> option str.
Variable transfer : str -> str -> gset str -> N -> (str + str) * gset str * N.
Variables productId productName : option str.

Abbreviation downloadImage :=
  (Download.downloadImage downloadDir join mkdirSync pathnameOf transfer).

(** The requests of one call: the URL, when the directory is there, the
    URL parses and the destination does not exist yet. *)
Lemma downloadImage_requests url index (w : Download.world N) :
  Download.requests (downloadImage url productId productName index w).2 =
  Download.requests w ++
  match Download.ensureDir mkdirSync (Download.productDir downloadDir join productId)
          (Download.paths w), pathnameOf url with
  | (None, ps), Some pathname =>
      if decide (Download.filePathFor downloadDir join productId productName index pathname ∈ ps)
      then [] else [url]
  | _, _ => []
  end.
Proof.
  unfold Download.downloadImage.
  destruct (Download.ensureDir _ _ _) as [[message|] ps]; cbn [snd Download.requests];
    [by rewrite app_nil_r|].
  destruct (pathnameOf url) as [pathname|]; cbn [snd Download.requests];
    [|by rewrite app_nil_r].
  destruct (decide _); cbn [snd Download.requests]; [by rewrite app_nil_r|].
  by destruct (transfer _ _ _ _) as [[result ps'] n'].
Qed.

(** A destination that exists is returned as downloaded, without a
    request, whatever its content. *)
Lemma existing_file_is_returned url index (w : Download.world N) pathname :
  Download.productDir downloadDir join productId ∈ Download.paths w ->
  pathnameOf url = Some pathname ->
  Download.filePathFor downloadDir join productId productName index pathname
    ∈ Download.paths w ->
  downloadImage url productId productName index w
  = (inl (Download.filePathFor downloadDir join productId productName index pathname),
     Download.World (Download.paths w) (Download.requests w) (Download.network w)).
Proof.
  intros Hd Hp Hf. unfold Download.downloadImage, Download.ensureDir.
  destruct (decide _); [|done]. rewrite Hp. by destruct (decide _).
Qed.

End DownloadProps.

(** C7, as stated, fails: a call of the single-item download is not a
    fetch.  Once the file of a URL is stored, a second [downloadAll] on
    [u, u, u] returns its path without a request; and for a string that
    is not a URL it records the failure without a request. *)
Lemma no_fetch_for_stored_file :
  let downloadAll := ImageDownloader.downloadAll Inputs.downloadImage in
  let u := Inputs.picture in
  let first := (downloadAll [u; u; u] Inputs.emptyWorld).1 in
  let second := (downloadAll [u; u; u] (ImageDownloader.world first)).1 in
  Download.requests (ImageDownloader.world first) = [u] /\
  ImageDownloader.downloaded second = [ "images/42/image_0.jpg" : str ] /\
  Download.requests (ImageDownloader.world second) = [u] /\
  let third := (downloadAll [Inputs.notAUrl; Inputs.notAUrl; Inputs.notAUrl] Inputs.emptyWorld).1 in
  ImageDownloader.failed third = [ (Inputs.notAUrl, "Invalid URL: kf/a.jpg" : str) ] /\
  Download.requests (ImageDownloader.world third) = [].
Proof. by vm_compute. Qed.

(** C7, amended: [downloadAll] deduplicates its input up front and
    calls the single-item download once for each distinct URL, in order
    of first occurrence.  On [u, u, u] it makes one call, for [u] with
    index 0, and its results and effects are those of that call: one
    path or one failure, and one request for [u] when the product
    directory is there, [u] parses as a URL and the destination file
    does not exist yet, no request otherwise.  In general the requests
    are distinct URLs of the input, in order of first occurrence.  The
    number of duplicates only appears in the logged figures: two inputs
    with the same distinct URLs lead to the same results and the same
    world. *)
Theorem downloadAll_fetches_at_most_once {N : Type}
    (downloadDir : str) (join : str -> str -> str)
    (mkdirSync : str -> gset str -> option str * gset str)
    (pathnameOf : str -> option str)
    (transfer : str -> str -> gset str -> N -> (str + str) * gset str * N)
    (productId productName : option str) (w : Download.world N) :
  let downloadImage := fun url index =>
    Download.downloadImage downloadDir join mkdirSync pathnameOf transfer
      url productId productName index in
  let downloadAll := ImageDownloader.downloadAll downloadImage in
  (forall u,
      let b := (downloadAll [u; u; u] w).1 in
      let r := downloadImage u 0 w in
      ImageDownloader.calls b = [(u, 0)] /\
      ImageDownloader.world b = r.2 /\
      ImageDownloader.downloaded b
        = match r.1 with inl filePath => [filePath] | inr _ => [] end /\
      ImageDownloader.failed b
        = match r.1 with inl _ => [] | inr message => [(u, message)] end /\
      Download.requests (ImageDownloader.world b) =
        Download.requests w ++
        match Download.ensureDir mkdirSync (Download.productDir downloadDir join productId)
                (Download.paths w), pathnameOf u with
        | (None, ps), Some pathname =>
            if decide (Download.filePathFor downloadDir join productId productName 0 pathname ∈ ps)
            then [] else [u]
        | _, _ => []
        end) /\
  (forall images,
      map fst (ImageDownloader.calls (downloadAll images w).1) = setFrom images /\
      exists fetched,
        Download.requests (ImageDownloader.world (downloadAll images w).1)
          = Download.requests w ++ fetched /\
        sublist fetched (setFrom images) /\ NoDup fetched) /\
  (forall images images',
      setFrom images = setFrom images' ->
      (downloadAll images w).1 = (downloadAll images' w).1) /\
  (forall images,
      ImageDownloader.duplicatesRemoved (downloadAll images w).2
      = List.length images - List.length (setFrom images)).
Proof.
  intros downloadImage downloadAll. split; [|split; [|split]].
  - intros u b r. subst b r downloadAll.
    rewrite (downloadAll_three downloadImage u w).
    pose proof (downloadImage_requests downloadDir join mkdirSync pathnameOf transfer
                  productId productName u 0 w) as Hr.
    fold (downloadImage u 0) in Hr.
    destruct (downloadImage u 0 w) as [[filePath|message] w']; cbn [fst snd] in *; done.
  - intros images. split.
    + subst downloadAll. rewrite downloadAll_calls. generalize (setFrom images). intros l.
      change (fun k u => (u, k)) with (fun k (u : str) => (u, 0 + k)).
      generalize 0. induction l as [|x l IH]; intros n; simpl; [done|].
      f_equal. etrans; [|apply (IH (S n))].
      f_equal. apply imap_ext. intros k y _. simpl. f_equal. lia.
    + destruct (loop_log downloadImage Download.requests (setFrom images)) with
        (b := ImageDownloader.Batch [] [] [] [] w) (i := 0) as (k & Hk & Hs).
      * intros u i w0. subst downloadImage. cbv beta.
        rewrite downloadImage_requests. eexists. split; [done|].
        repeat case_match; auto.
      * apply NoDup_setFrom.
      * exists k. split; [exact Hk|]. split; [done|].
        eapply sublist_NoDup; [apply NoDup_setFrom|exact Hs].
  - intros images images' Hs. unfold downloadAll, ImageDownloader.downloadAll.
    cbn [fst]. by rewrite Hs.
  - done.
Qed.

(** ** Partial files (C10) *)

Section Stream.
Import ImageDownloader StreamInv.
Variable filePath : str.
Variable fs : gset str.

Lemma streamInv_start : streamInv filePath fs (start fs).
Proof.
  repeat split; simpl; try done.
  intros pre err post H. by destruct pre.
Qed.

Lemma snoc_eq_app_cons {A} (l pre post : list A) (a b : A) :
  l ++ [a] = pre ++ b :: post ->
  (post = [] /\ pre = l /\ a = b) \/ (exists post', post = post' ++ [a] /\ l = pre ++ b :: post').
Proof.
  intros H. destruct post as [|c post] using rev_ind.
  - left. apply app_inj_tail in H as [-> ->]. done.
  - right. exists post. clear IHpost.
    change (pre ++ b :: post ++ [c]) with (pre ++ (b :: post) ++ [c]) in H.
    rewrite app_assoc in H. apply app_inj_tail in H as [-> ->]. done.
Qed.

Lemma ordered_act (l : list action) a :
  (forall err, a <> Reject err) ->
  (forall pre err post,
      l = pre ++ Reject err :: post -> filePath ∈ fs -> Unlink filePath ∈ pre) ->
  forall pre err post,
    l ++ [a] = pre ++ Reject err :: post -> filePath ∈ fs -> Unlink filePath ∈ pre.
Proof.
  intros Ha Ho pre err post H Hf.
  apply snoc_eq_app_cons in H as [(_ & _ & ->)|(post' & _ & H)].
  - by destruct (Ha err).
  - by eapply Ho.
Qed.

Lemma ordered_reject (l : list action) err0 :
  (filePath ∈ fs -> Unlink filePath ∈ l) ->
  (forall pre err post,
      l = pre ++ Reject err :: post -> filePath ∈ fs -> Unlink filePath ∈ pre) ->
  forall pre err post,
    l ++ [Reject err0] = pre ++ Reject err :: post -> filePath ∈ fs ->
    Unlink filePath ∈ pre.
Proof.
  intros Hu Ho pre err post H Hf.
  apply snoc_eq_app_cons in H as [(_ & -> & _)|(post' & _ & H)].
  - by apply Hu.
  - by eapply Ho.
Qed.

Lemma streamInv_onFinish st :
  streamInv filePath fs st -> streamInv filePath fs (onFinish filePath st).
Proof.
  intros Hi. unfold onFinish.
  destruct (errorOccurred st) eqn:E; simpl; [done|].
  destruct Hi as (H1 & H2 & H3 & H4 & H5). rewrite E in *.
  destruct (H1 eq_refl) as [Hf Hn].
  assert (Hinv : forall p : settled, (forall err, p = Rejected err -> false = true) ->
    streamInv filePath fs (DState (files st) false p ((actions st ++ [LogSuccess]) ++ [Resolve filePath]))).
  { intros p Hp. repeat split; simpl; try done.
    - rewrite !Forall_app. repeat split; [done| |]; repeat constructor; done.
    - apply ordered_act; [done|]. apply ordered_act; [done|]. done. }
  unfold resolve, act. simpl. destruct (promise st) eqn:Ep; simpl; rewrite E; apply Hinv; done.
Qed.

Lemma streamInv_error st err (pre_actions : list action) :
  Forall (fun a => forall e, a <> Reject e) pre_actions ->
  streamInv filePath fs st ->
  streamInv filePath fs
    (reject err (unlinkIfExists filePath
       (DState (files st) true (promise st) (actions st ++ pre_actions)))).
Proof.
  intros Hpre (H1 & H2 & H3 & H4 & H5).
  assert (Hord : forall pre e post,
    actions st ++ pre_actions = pre ++ Reject e :: post -> filePath ∈ fs -> Unlink filePath ∈ pre).
  { clear -Hpre H5. revert Hpre.
    induction pre_actions as [|a l IH] using rev_ind; intros Hpre.
    - by rewrite app_nil_r.
    - apply Forall_app in Hpre as [Hl Ha]. apply Forall_cons in Ha as [Ha _].
      rewrite app_assoc. apply ordered_act; [done|]. by apply IH. }
  assert (Hmid : exists st',
    unlinkIfExists filePath (DState (files st) true (promise st) (actions st ++ pre_actions)) = st' /\
    errorOccurred st' = true /\ promise st' = promise st /\ (filePath ∉ files st') /\
    (filePath ∈ fs -> Unlink filePath ∈ actions st') /\
    (forall pre e post,
        actions st' = pre ++ Reject e :: post -> filePath ∈ fs -> Unlink filePath ∈ pre)).
  { unfold unlinkIfExists. simpl. destruct (decide (filePath ∈ files st)) as [Hin|Hout].
    - eexists. split; [done|]. simpl. repeat split; [| |].
      + intros [_ Hx]%elem_of_difference. apply Hx. by apply elem_of_singleton.
      + intros _. apply elem_of_app. right. by left.
      + by apply ordered_act.
    - eexists. split; [done|]. simpl. repeat split; [done| |done].
      intros Hfs. destruct (errorOccurred st) eqn:E.
      + apply elem_of_app. left. by apply H3.
      + destruct (H1 eq_refl) as [Hf _]. by rewrite Hf in Hout. }
  destruct Hmid as (st' & -> & He & Hp & Hf & Hu & Ho).
  unfold reject, act. destruct (promise st') eqn:Ep; simpl; rewrite ?He.
  all: repeat split; simpl; try done.
  all: try (intros _ Hfs; apply elem_of_app; left; by apply Hu).
  all: try by apply ordered_reject.
Qed.

Lemma streamInv_handle st ev :
  isOpen ev = false ->
  streamInv filePath fs st -> streamInv filePath fs (handle filePath st ev).
Proof.
  intros Ho Hi. destruct ev as [| |err|err]; simpl; [done| | |].
  - by apply streamInv_onFinish.
  - unfold onWriterError, setErrorOccurred.
    pose proof (streamInv_error st err [] (Forall_nil_2 _) Hi) as H.
    by rewrite app_nil_r in H.
  - unfold onResponseError, setErrorOccurred, act. simpl.
    apply (streamInv_error st err [DestroyWriter]); [|done].
    by repeat constructor.
Qed.

Lemma errorOccurred_handle st ev :
  errorOccurred st || isError ev = true -> errorOccurred (handle filePath st ev) = true.
Proof.
  destruct ev as [| |err|err]; simpl.
  - by rewrite orb_false_r.
  - rewrite orb_false_r. intros E. unfold onFinish. by rewrite E.
  - intros _. unfold onWriterError, reject, act, unlinkIfExists. simpl.
    destruct (decide _); simpl; by destruct (promise st).
  - intros _. unfold onResponseError, reject, act, unlinkIfExists. simpl.
    destruct (decide _); simpl; by destruct (promise st).
Qed.

Lemma run_inv (evs : list event) : forall st,
  existsb isOpen evs = false ->
  streamInv filePath fs st ->
  streamInv filePath fs (fold_left (handle filePath) evs st) /\
  (errorOccurred st || existsb isError evs = true ->
   errorOccurred (fold_left (handle filePath) evs st) = true).
Proof.
  induction evs as [|ev evs IH]; intros st Ho Hi; simpl.
  - split; [done|]. by rewrite orb_false_r.
  - simpl in Ho. apply orb_false_iff in Ho as [Ho Hos].
    destruct (IH _ Hos (streamInv_handle st ev Ho Hi)) as [H1 H2]. split; [done|].
    intros He. apply H2. rewrite orb_assoc in He.
    apply orb_true_iff in He as [He|He]; [|by rewrite He, orb_true_r].
    by rewrite (errorOccurred_handle st ev He).
Qed.

Lemma promise_settled_handle st ev :
  promise st <> Pending -> promise (handle filePath st ev) = promise st.
Proof.
  intros Hp. destruct ev as [| |err|err]; simpl; [done| | |].
  - unfold onFinish, resolve, act. destruct (errorOccurred st); simpl; [done|].
    by destruct (promise st).
  - unfold onWriterError, reject, act, unlinkIfExists, setErrorOccurred. simpl.
    destruct (decide _); simpl; by destruct (promise st).
  - unfold onResponseError, reject, act, unlinkIfExists, setErrorOccurred. simpl.
    destruct (decide _); simpl; by destruct (promise st).
Qed.

Lemma promise_settled_run (evs : list event) : forall st,
  promise st <> Pending -> promise (fold_left (handle filePath) evs st) = promise st.
Proof.
  induction evs as [|ev evs IH]; intros st Hp; simpl; [done|].
  rewrite IH; rewrite promise_settled_handle; done.
Qed.

Lemma promise_first_error ev err :
  ev = WriterError err \/ ev = ResponseError err ->
  promise (handle filePath (start fs) ev) = Rejected err.
Proof.
  intros [->| ->]; simpl.
  - unfold onWriterError, reject, unlinkIfExists. simpl. by destruct (decide _).
  - unfold onResponseError, reject, unlinkIfExists. simpl. by destruct (decide _).
Qed.

(** When the open of the writer has completed before the promise is
    created, the clean-up works: whatever the order of the events, once
    an error of the response stream or of the file writer has been
    handled the destination file does not exist; a rejected promise
    implies that the file is gone; when the destination existed at the
    start, every rejection in the trace of the handlers comes after the
    deletion of the file. *)
Lemma cleanup_after_open (evs : list event) :
  existsb isOpen evs = false ->
  (existsb isError evs = true -> filePath ∉ files (run filePath fs evs)) /\
  (forall err, promise (run filePath fs evs) = Rejected err ->
               filePath ∉ files (run filePath fs evs)) /\
  (forall pre err post,
      actions (run filePath fs evs) = pre ++ Reject err :: post ->
      filePath ∈ fs -> Unlink filePath ∈ pre).
Proof.
  intros Ho.
  destruct (run_inv evs _ Ho streamInv_start) as [(H1 & H2 & H3 & H4 & H5) He].
  split; [|split].
  - intros Hev. apply H2, He. by rewrite Hev, orb_true_r.
  - intros err Hp. by apply H2, (H4 err).
  - apply H5.
Qed.

(** A stream error that arrives first rejects the promise with that
    error, whatever follows. *)
Lemma first_error_rejects ev err evs :
  ev = WriterError err \/ ev = ResponseError err ->
  promise (run filePath fs (ev :: evs)) = Rejected err.
Proof.
  intros Hev. unfold run. simpl.
  rewrite promise_settled_run; rewrite (promise_first_error ev err Hev); done.
Qed.

End Stream.

(** C10 fails on the code when an error of the response stream is
    handled before the writer has opened the destination: the handler
    finds no file to delete and rejects the promise; the open, which
    [writer.destroy()] does not call off, then creates the file, and
    nothing deletes it.  The error has been surfaced and the file is on
    disk. *)
Theorem partial_file_left_by_late_open (filePath : str) (fs : gset str) (err : str) :
  let st := ImageDownloader.run filePath fs
              [ImageDownloader.ResponseError err; ImageDownloader.WriterOpen] in
  ImageDownloader.promise st = ImageDownloader.Rejected err /\
  filePath ∈ ImageDownloader.files st /\
  (filePath ∉ fs ->
   ImageDownloader.actions st
   = [ImageDownloader.DestroyWriter; ImageDownloader.Reject err] /\
   ImageDownloader.files st = {[filePath]} ∪ fs).
Proof.
  cbv zeta. unfold ImageDownloader.run. cbn [fold_left ImageDownloader.handle].
  unfold ImageDownloader.onOpen, ImageDownloader.onResponseError,
    ImageDownloader.reject, ImageDownloader.unlinkIfExists, ImageDownloader.act,
    ImageDownloader.setErrorOccurred, ImageDownloader.start. simpl.
  destruct (decide (filePath ∈ fs)) as [Hin|Hout]; simpl.
  - split; [done|]. split; [set_solver|done].
  - split; [done|]. split; [set_solver|done].
Qed.

(** ** Whole-attempt retry (C5) *)

Section RetryProps.
Import Retry RetryRuns.
Context {R E : Type}.
Variable cfg : config.
Variable body : nat -> outcome R E.
Variable draw : nat -> Z.

Abbreviation scrapeFrom := (scrapeProductPage cfg body draw).

(** Enough fuel: the self-call is at most [retryAttempts] deep, and
    every backoff is [retryDelay] plus the draw. *)
Lemma scrapeFrom_total fuel : forall retryCount,
  retryAttempts cfg - retryCount <= fuel ->
  exists tr o,
    scrapeFrom fuel retryCount = Some (tr, o) /\
    Forall (fun d => exists n, d = (retryDelay cfg + draw n)%Z) (backoffs tr).
Proof.
  induction fuel as [|fuel IH]; intros retryCount Hf; simpl.
  - destruct (body retryCount) as [r|e]; [eexists _, _; split; [done|constructor]|].
    destruct (Nat.ltb_spec retryCount (retryAttempts cfg)); [lia|].
    eexists _, _. split; [done|constructor].
  - destruct (body retryCount) as [r|e]; [eexists _, _; split; [done|constructor]|].
    destruct (Nat.ltb_spec retryCount (retryAttempts cfg)).
    + destruct (IH (retryCount + 1)) as (tr & o & -> & Hb); [lia|].
      eexists _, _. split; [done|]. simpl. constructor; [|done].
      exists retryCount. unfold randomDelay. lia.
    + eexists _, _. split; [done|constructor].
Qed.

(** When every attempt throws, the attempts are numbered from the
    current one to [retryAttempts + 1] and the error of the last one is
    thrown. *)
Lemma scrapeFrom_exhausted fuel : forall retryCount,
  retryCount <= retryAttempts cfg ->
  retryAttempts cfg - retryCount <= fuel ->
  (forall n, n <= retryAttempts cfg -> exists e, body n = Thrown e) ->
  exists tr,
    scrapeFrom fuel retryCount = Some (tr, body (retryAttempts cfg)) /\
    attempts tr = seq (retryCount + 1) (retryAttempts cfg + 1 - retryCount).
Proof.
  induction fuel as [|fuel IH]; intros retryCount Hle Hf Hall; simpl.
  - assert (retryCount = retryAttempts cfg) as -> by lia.
    destruct (Hall _ (Nat.le_refl _)) as [e ->].
    rewrite Nat.ltb_irrefl. eexists. split; [done|].
    replace (retryAttempts cfg + 1 - retryAttempts cfg) with 1 by lia. done.
  - destruct (Hall _ Hle) as [e He]. rewrite He.
    destruct (Nat.ltb_spec retryCount (retryAttempts cfg)).
    + destruct (IH (retryCount + 1)) as (tr & -> & Ha); [lia|lia|done|].
      eexists. split; [done|]. simpl. rewrite Ha.
      replace (retryAttempts cfg + 1 - retryCount)
        with (S (retryAttempts cfg + 1 - (retryCount + 1))) by lia.
      cbn [seq]. do 2 f_equal. lia.
    + assert (retryCount = retryAttempts cfg) as -> by lia.
      rewrite <- He. eexists. split; [done|].
      replace (retryAttempts cfg + 1 - retryAttempts cfg) with 1 by lia. done.
Qed.

Lemma scrapeFrom_returned fuel retryCount r :
  body retryCount = Returned r ->
  scrapeFrom fuel retryCount = Some ([Attempt (retryCount + 1)], Returned r).
Proof. intros Hb. destruct fuel; simpl; by rewrite Hb. Qed.

End RetryProps.

(** C5, as stated, fails: the backoff does not grow with the attempt
    number.  With the default configuration and navigation failing
    twice, the delays before attempts 2 and 3 are equal when the random
    draws are equal, and the second is the smaller one when the draws
    are 5000 and 0. *)
Lemma backoff_does_not_grow :
  Retry.scrape Retry.defaultConfig RetryRuns.twoFailures (fun _ => 0%Z)
  = Some ([Retry.Attempt 1; Retry.Backoff 5000; Retry.Attempt 2;
           Retry.Backoff 5000; Retry.Attempt 3], Retry.Returned tt) /\
  Retry.scrape Retry.defaultConfig RetryRuns.twoFailures
    (fun n => if Nat.eqb n 0 then 5000%Z else 0%Z)
  = Some ([Retry.Attempt 1; Retry.Backoff 10000; Retry.Attempt 2;
           Retry.Backoff 5000; Retry.Attempt 3], Retry.Returned tt) /\
  ~ RetryRuns.delaysGrow [Retry.Attempt 1; Retry.Backoff 5000; Retry.Attempt 2;
                          Retry.Backoff 5000; Retry.Attempt 3] /\
  ~ RetryRuns.delaysGrow [Retry.Attempt 1; Retry.Backoff 10000; Retry.Attempt 2;
                          Retry.Backoff 5000; Retry.Attempt 3].
Proof.
  split; [done|]. split; [done|].
  unfold RetryRuns.delaysGrow. simpl.
  split; intros H; apply StronglySorted_cons in H as [H _];
    apply Forall_cons in H as [H _]; lia.
Qed.

(** C5, amended: a call always returns or throws; when an attempt
    throws and fewer than [retryAttempts] retries have been made, the
    next attempt follows after a random delay between [retryDelay] and
    twice [retryDelay], the same range for every attempt; when all
    [retryAttempts + 1] attempts throw, the error of the last one is
    thrown; and when navigation throws on the first two attempts and
    succeeds on the third, with at least two retries configured, the
    call returns the result of the third attempt, with one backoff
    before attempt 2, one before attempt 3 and none before attempt 1. *)
Theorem retry_policy {R E : Type} (cfg : Retry.config)
    (body : nat -> Retry.outcome R E) (draw : nat -> Z) :
  (forall n, (0 <= draw n <= Retry.retryDelay cfg * 2 - Retry.retryDelay cfg)%Z) ->
  (exists tr o,
      Retry.scrape cfg body draw = Some (tr, o) /\
      Forall (fun d => (Retry.retryDelay cfg <= d <= Retry.retryDelay cfg * 2)%Z)
             (Retry.backoffs tr)) /\
  ((forall n, n <= Retry.retryAttempts cfg -> exists e, body n = Retry.Thrown e) ->
   exists tr,
     Retry.scrape cfg body draw = Some (tr, body (Retry.retryAttempts cfg)) /\
     RetryRuns.attempts tr = seq 1 (Retry.retryAttempts cfg + 1)) /\
  (forall e0 e1 r,
      2 <= Retry.retryAttempts cfg ->
      body 0 = Retry.Thrown e0 -> body 1 = Retry.Thrown e1 -> body 2 = Retry.Returned r ->
      Retry.scrape cfg body draw
      = Some ([Retry.Attempt 1; Retry.Backoff (Retry.retryDelay cfg + draw 0);
               Retry.Attempt 2; Retry.Backoff (Retry.retryDelay cfg + draw 1);
               Retry.Attempt 3], Retry.Returned r)).
Proof.
  intros Hdraw. split; [|split].
  - destruct (scrapeFrom_total cfg body draw (Retry.retryAttempts cfg) 0)
      as (tr & o & Hs & Hb); [lia|].
    exists tr, o. split; [done|]. eapply Forall_impl; [done|].
    intros d [n ->]. specialize (Hdraw n). simpl. lia.
  - intros Hall.
    destruct (scrapeFrom_exhausted cfg body draw (Retry.retryAttempts cfg) 0)
      as (tr & Hs & Ha); [lia|lia|done|].
    exists tr. split; [done|]. by rewrite Ha, Nat.sub_0_r.
  - intros e0 e1 r Hra H0 H1 H2. unfold Retry.scrape.
    destruct (Retry.retryAttempts cfg) as [|[|n]] eqn:Era; [lia|lia|].
    simpl. rewrite H0, H1, Era. simpl.
    rewrite (scrapeFrom_returned cfg body draw n 2 r H2).
    unfold Retry.randomDelay. by rewrite (Z.add_comm (draw 0)), (Z.add_comm (draw 1)).
Qed.

Lemma retry_policy_witness :
  exists tr,
    Retry.scrape Retry.defaultConfig RetryRuns.alwaysFails (fun _ => 7%Z)
    = Some (tr, Retry.Thrown 3) /\
    RetryRuns.attempts tr = [1; 2; 3; 4].
Proof.
  apply (retry_policy Retry.defaultConfig RetryRuns.alwaysFails (fun _ => 7%Z)).
  - intros n. simpl. lia.
  - intros n _. by exists n.
Defined.

(** ** Extension derivation (C8) *)

Lemma endsAnchored_sound r : forall w rest,
  endsAnchored r = true -> lang r w rest -> rest = [].
Proof.
  induction r as [|p|r1 IH1 r2 IH2|r1 IH1 r2 IH2|p|]; intros w rest; simpl; try done.
  - intros He (w1 & w2 & -> & H1 & H2). eauto.
  - intros [E1 E2]%andb_prop [H|H]; eauto.
  - by intros _ [_ ->].
Qed.

(** An anchored pattern whose words carry their first character nowhere
    else has its leftmost match exactly where a match starts with that
    character. *)
Lemma search_anchored r c pre sfx :
  endsAnchored r = true ->
  tailWithin (fun d => negb (eqc d c)) r = true ->
  lang r (c :: sfx) [] ->
  search r (pre ++ c :: sfx) = Some (pre, c :: sfx, []).
Proof.
  intros Ha Ht Hl.
  destruct (search r (pre ++ c :: sfx)) as [[[pre' mt] post]|] eqn:E.
  - apply search_sound in E as (Hs & Hm & Hmin).
    pose proof (endsAnchored_sound _ _ _ Ha Hm) as ->.
    specialize (Hmin pre (c :: sfx) [] ltac:(by rewrite app_nil_r) Hl).
    rewrite app_nil_r in Hs. apply app_eq_app in Hs as [l [[-> Hs]|[-> Hs]]].
    + destruct l as [|d l]; [simpl in Hs; subst mt; by rewrite app_nil_r|].
      exfalso. subst mt. pose proof (tailWithin_sound _ _ _ _ Ht Hm) as Hf.
      simpl in Hf. apply Forall_app in Hf as [_ Hf]. apply Forall_cons in Hf as [Hc _].
      unfold eqc in Hc. by rewrite Ascii.eqb_refl in Hc.
    + rewrite length_app in Hmin. destruct l; [|simpl in Hmin; lia].
      simpl in Hs. subst mt. by rewrite app_nil_r.
  - exfalso. apply search_None in E. apply E. exists pre, (c :: sfx), [].
    by rewrite app_nil_r.
Qed.

Lemma dropUntil_skip c (a b : str) :
  Forall (fun d => eqc d c = false) a ->
  ImageDownloader.dropUntil c (a ++ c :: b) = b.
Proof.
  induction 1 as [|d a Hd Ha IH]; simpl.
  - by rewrite eqc_refl.
  - by rewrite Hd.
Qed.

Lemma takeWhile_all f (a b : str) :
  Forall (fun d => f d = true) a -> takeWhile f (a ++ b) = a ++ takeWhile f b.
Proof.
  induction 1 as [|d a Hd Ha IH]; simpl; [done|]. by rewrite Hd, IH.
Qed.

Lemma startsWith_app (p b : str) : startsWith p (p ++ b) = true.
Proof. induction p as [|c p IH]; simpl; [done|]. by rewrite eqc_refl, IH. Qed.

Lemma includes_startsWith (p s : str) : startsWith p s = true -> includes p s = true.
Proof. intros H. destruct s; simpl; by rewrite H. Qed.

Lemma includes_app (p a b : str) : includes p (a ++ p ++ b) = true.
Proof.
  induction a as [|c a IH]; simpl.
  - apply includes_startsWith, startsWith_app.
  - rewrite IH. apply orb_true_r.
Qed.

Section Extname.
Import ImageDownloader.
Variables stem e : str.
Hypothesis e_nonempty : e <> [].
Hypothesis e_plain :
  Forall (fun c => negb (eqc c "/"%char || eqc c "."%char || eqc c "_"%char) = true) e.

Lemma e_not c : (c = "/" \/ c = "." \/ c = "_")%char -> Forall (fun d => eqc d c = false) e.
Proof.
  intros Hc. eapply Forall_impl; [exact e_plain|]. intros d Hd. simpl in Hd.
  apply negb_true_iff in Hd. apply orb_false_iff in Hd as [[H1 H2]%orb_false_iff H3].
  by destruct Hc as [->|[->| ->]].
Qed.

Lemma afterLast_ext c (pre : str) :
  (c = "/" \/ c = "." \/ c = "_")%char ->
  afterLast c (pre ++ "." ++ e) = afterLast c (pre ++ ".") ++ e.
Proof.
  intros Hc. unfold afterLast.
  rewrite (app_assoc pre), (rev_app_distr (pre ++ ".")), takeWhile_all, rev_app_distr, rev_involutive.
  - done.
  - apply List.Forall_rev. eapply Forall_impl; [exact (e_not c Hc)|].
    intros d Hd. simpl in Hd. by rewrite Hd.
Qed.

Lemma extname_plain (pre : str) :
  extname (pre ++ "." ++ e) =
  match afterLast "/"%char pre with
  | [] => []
  | _ :: _ => "." ++ e
  end.
Proof.
  unfold extname.
  assert (Htrim : rev (dropWhile (eqc "/"%char) (rev (pre ++ "." ++ e))) = pre ++ "." ++ e).
  { rewrite (app_assoc pre), rev_app_distr.
    destruct (rev e) as [|d re] eqn:Er.
    - apply (f_equal (@rev ascii)) in Er. rewrite rev_involutive in Er. by destruct e_nonempty.
    - assert (Hd : eqc "/"%char d = false).
      { pose proof (e_not "/"%char ltac:(by left)) as Hf. apply List.Forall_rev in Hf.
        rewrite Er in Hf. apply Forall_cons in Hf as [Hf _].
        unfold eqc in *. by rewrite Ascii.eqb_sym. }
      cbn [dropWhile app]. rewrite Hd. rewrite app_comm_cons, <- Er.
      by rewrite <- rev_app_distr, rev_involutive. }
  rewrite Htrim.
  assert (Hbase : afterLast "/"%char (pre ++ "." ++ e) = afterLast "/"%char pre ++ "." ++ e).
  { rewrite afterLast_ext by (by left). unfold afterLast.
    rewrite rev_app_distr. simpl. by rewrite <- app_assoc. }
  rewrite Hbase.
  rewrite (includes_app "." (afterLast "/"%char pre) e). simpl negb. cbv iota.
  assert (Hstem : beforeLast "."%char (afterLast "/"%char pre ++ "." ++ e) = afterLast "/"%char pre).
  { unfold beforeLast. rewrite (app_assoc _ "." e), rev_app_distr, rev_app_distr. simpl.
    rewrite dropUntil_skip; [apply rev_involutive|].
    apply List.Forall_rev. apply e_not. by right; left. }
  assert (Hext : afterLast "."%char (afterLast "/"%char pre ++ "." ++ e) = e).
  { rewrite afterLast_ext by (by right; left). unfold afterLast.
    rewrite rev_app_distr. by simpl. }
  rewrite Hstem, Hext.
  destruct (afterLast "/"%char pre) as [|d [|d' s]]; [done| |done].
  destruct e; [by destruct e_nonempty|done].
Qed.

End Extname.

Lemma lang_Seq r1 r2 w1 w2 rest :
  lang r1 w1 (w2 ++ rest) -> lang r2 w2 rest -> lang (Seq r1 r2) (w1 ++ w2) rest.
Proof. intros H1 H2. simpl. eauto. Qed.

Lemma lang_Chr (p : ascii -> bool) c rest : p c = true -> lang (Chr p) [c] rest.
Proof. intros H. simpl. eauto. Qed.

Lemma lang_Plus p w rest :
  Forall (fun c => p c = true) w -> w <> [] -> lang (Plus p) w rest.
Proof.
  intros Hw Hne. destruct Hw as [|c w Hc Hw]; [done|].
  apply (lang_Seq (Chr p) (Star p) [c] w); [by apply lang_Chr|done].
Qed.

Lemma imageExtension_plain e :
  imageExtension e ->
  e <> [] /\
  Forall (fun c => negb (eqc c "/"%char || eqc c "."%char || eqc c "_"%char) = true) e.
Proof.
  intros He. split.
  - intros ->. apply (matchAt_complete Pat.imgExt [] []) in He. by destruct He.
  - apply (charsWithin_sound _ Pat.imgExt e []); [by vm_compute|done].
Qed.

Lemma sizeSuffix_word (n m k e : str) :
  digits n -> n <> [] -> digits m -> m <> [] -> digits k -> imageExtension e ->
  lang Pat.sizeSuffix ("_"%char :: n ++ "x" ++ m ++ "q" ++ k ++ "." ++ e) [].
Proof.
  intros Hn Hn0 Hm Hm0 Hk He. unfold Pat.sizeSuffix. cbn [Seqs].
  apply (lang_Seq _ _ ["_"%char]); [by apply lang_Chr|].
  apply lang_Seq; [by apply lang_Plus|].
  apply (lang_Seq _ _ ["x"%char]); [by apply lang_Chr|].
  apply lang_Seq; [by apply lang_Plus|].
  apply (lang_Seq _ _ ["q"%char]); [left; by apply lang_Chr|].
  apply lang_Seq; [done|].
  apply (lang_Seq _ _ ["."%char]); [by apply lang_Chr|].
  rewrite <- (app_nil_r e). apply lang_Seq; [by rewrite app_nil_r|done].
Qed.

Lemma no_underscore_no_size (s : str) :
  Forall (fun c => eqc c "_"%char = false) s -> test Pat.anySize s = false.
Proof.
  intros Hs. apply test_false. intros (pre & w & post & -> & Hl).
  unfold Pat.anySize in Hl. cbn [Seqs lang] in Hl.
  destruct Hl as (w1 & w2 & -> & (c & -> & Hc) & _).
  apply Forall_app in Hs as [_ Hs]. apply Forall_app in Hs as [Hs _].
  apply Forall_cons in Hs as [Hs _].
  unfold eqc in *. rewrite Ascii.eqb_sym in Hc. congruence.
Qed.

Lemma digits_not_dot (s : str) :
  digits s -> Forall (fun d => eqc d "."%char = false) s.
Proof.
  intros Hs. eapply Forall_impl; [exact Hs|]. intros c Hc. simpl in Hc.
  apply negb_true_iff.
  by apply (classWithin_sound isDigit (fun d => negb (eqc d "."%char)) c).
Qed.

Lemma deriveExtension_size_suffix (pre n m k e : str) :
  digits n -> n <> [] -> digits m -> m <> [] -> digits k -> imageExtension e ->
  ImageDownloader.deriveExtension (pre ++ "_" ++ n ++ "x" ++ m ++ "q" ++ k ++ "." ++ e) =
  match ImageDownloader.afterLast "/"%char pre with
  | [] => ".jpg" : str
  | _ :: _ => "." ++ e
  end.
Proof.
  intros Hn Hn0 Hm Hm0 Hk He.
  destruct (imageExtension_plain e He) as [He0 Hplain].
  unfold ImageDownloader.deriveExtension, replaceFirst.
  cbn [list_ascii_of_string app].
  rewrite (search_anchored Pat.sizeSuffix "_"%char pre);
    [|done|by vm_compute|by apply sizeSuffix_word].
  assert (Hg : ImageDownloader.extGroup
                 ("_"%char :: n ++ "x"%char :: m ++ "q"%char :: k ++ "."%char :: e) = e).
  { unfold ImageDownloader.extGroup.
    replace ("_"%char :: n ++ "x"%char :: m ++ "q"%char :: k ++ "."%char :: e)
      with (("_"%char :: n ++ "x"%char :: m ++ "q"%char :: k) ++ "."%char :: e)
      by (by repeat (rewrite <- app_assoc || rewrite <- app_comm_cons)).
    apply dropUntil_skip. apply Forall_cons. split; [done|].
    apply Forall_app. split; [by apply digits_not_dot|].
    apply Forall_cons. split; [done|].
    apply Forall_app. split; [by apply digits_not_dot|].
    apply Forall_cons. split; [done|]. by apply digits_not_dot. }
  rewrite Hg, app_nil_r.
  change ("."%char :: e) with ("." ++ e).
  rewrite (extname_plain e He0 Hplain pre).
  by destruct (ImageDownloader.afterLast "/"%char pre).
Qed.

(** The text after the last slash of a path: what follows its
    directory part. *)
Lemma afterLast_slash (directory stem : str) :
  directory = [] \/ (exists dir, directory = dir ++ "/") ->
  Forall (fun c => eqc c "/"%char = false) stem ->
  ImageDownloader.afterLast "/"%char (directory ++ stem) = stem.
Proof.
  intros Hd Hs. unfold ImageDownloader.afterLast.
  rewrite rev_app_distr, takeWhile_all.
  - assert (Ht : takeWhile (fun d => negb (eqc d "/"%char)) (rev directory) = []).
    { destruct Hd as [->|[dir ->]]; [done|]. by rewrite rev_app_distr. }
    by rewrite Ht, app_nil_r, rev_involutive.
  - apply List.Forall_rev. eapply Forall_impl; [exact Hs|].
    intros c Hc. simpl in Hc. by rewrite Hc.
Qed.

(** C8, as stated, fails for a file name that is nothing but the
    suffix: what is left of it after the size marker is stripped,
    [.png], is a name without extension for [path.extname], and the
    download falls back on [.jpg]. *)
Lemma plain_extension_lost_without_stem :
  ImageDownloader.deriveExtension "/kf/_960x960q80.png" = (".jpg" : str) /\
  ImageDownloader.deriveExtension "/kf/_960x960q80.png" <> (".png" : str).
Proof. split; [by vm_compute|]. vm_compute. discriminate. Qed.

(** C8, amended: for a pathname that ends with a size marker and quality
    suffix [_<N>x<M>q<K>] followed by an image extension, the single-item
    download strips that suffix before it takes the extension.  When the
    file name (the text after the last slash) has at least one character
    before the suffix, the derived extension is the plain extension: the
    dot and the image extension.  When the file name is nothing but the
    suffix, it is the default [.jpg].  In neither case does it contain a
    size marker. *)
Theorem extension_without_size_marker (directory stem n m k e : str) :
  digits n -> n <> [] -> digits m -> m <> [] -> digits k -> imageExtension e ->
  directory = [] \/ (exists dir, directory = dir ++ "/") ->
  Forall (fun c => eqc c "/"%char = false) stem ->
  let pathname := directory ++ stem ++ "_" ++ n ++ "x" ++ m ++ "q" ++ k ++ "." ++ e in
  (stem <> [] -> ImageDownloader.deriveExtension pathname = "." ++ e) /\
  (stem = [] -> ImageDownloader.deriveExtension pathname = ".jpg") /\
  test Pat.anySize (ImageDownloader.deriveExtension pathname) = false.
Proof.
  intros Hn Hn0 Hm Hm0 Hk He Hdir Hstem pathname.
  destruct (imageExtension_plain e He) as [He0 Hplain].
  assert (Hd : ImageDownloader.deriveExtension pathname =
               match stem with
               | [] => ".jpg" : str
               | _ :: _ => "." ++ e
               end).
  { unfold pathname. rewrite (app_assoc directory stem).
    rewrite (deriveExtension_size_suffix (directory ++ stem) n m k e) by done.
    by rewrite (afterLast_slash directory stem Hdir Hstem). }
  rewrite Hd. split; [|split].
  - by destruct stem.
  - by intros ->.
  - destruct stem; [by vm_compute|].
    apply no_underscore_no_size. apply Forall_cons. split; [done|].
    eapply Forall_impl; [exact Hplain|]. intros c Hc. simpl in Hc.
    apply negb_true_iff in Hc. by apply orb_false_iff in Hc as [_ Hc].
Qed.

Lemma extension_without_size_marker_witness :
  ImageDownloader.deriveExtension "/kf/H4ab0d3b7_960x960q80.png" = (".png" : str) /\
  test Pat.anySize (ImageDownloader.deriveExtension "/kf/H4ab0d3b7_960x960q80.png") = false.
Proof.
  assert (He : imageExtension "png").
  { unfold imageExtension, Pat.imgExt. cbn [Alts]. right. right. left.
    apply lang_Lit, eqci_refl. }
  assert (Hn : digits "960").
  { apply Forall_forall. intros c Hc. apply list_elem_of_In in Hc.
    revert c Hc. apply forallb_forall. by vm_compute. }
  assert (Hk : digits "80").
  { apply Forall_forall. intros c Hc. apply list_elem_of_In in Hc.
    revert c Hc. apply forallb_forall. by vm_compute. }
  assert (Hs : Forall (fun c => eqc c "/"%char = false) ("H4ab0d3b7" : str)).
  { cbv [list_ascii_of_string].
    repeat (apply Forall_cons_2; [by vm_compute|]). apply Forall_nil_2. }
  destruct (extension_without_size_marker "/kf/" "H4ab0d3b7" "960" "960" "80" "png"
              Hn ltac:(done) Hn ltac:(done) Hk He
              ltac:(right; by exists ("/kf" : str)) Hs) as (H1 & _ & H3).
  split; [|exact H3]. apply H1. done.
Defined.

(** ** Where the query string survives *)

Lemma split_none c (s : str) :
  Forall (fun d => eqc d c = false) s -> split c s = [s].
Proof.
  induction 1 as [|d s Hd Hs IH]; simpl; [done|]. by rewrite Hd, IH.
Qed.

Lemma split_single c (base q : str) :
  Forall (fun d => eqc d c = false) base ->
  Forall (fun d => eqc d c = false) q ->
  split c (base ++ c :: q) = [base; q].
Proof.
  intros Hb Hq. induction Hb as [|d s Hd Hs IH]; simpl.
  - by rewrite eqc_refl, split_none.
  - by rewrite Hd, IH.
Qed.

Lemma dropUntil_none c (s : str) :
  Forall (fun d => eqc d c = false) s -> ImageDownloader.dropUntil c s = [].
Proof.
  induction 1 as [|d s Hd Hs IH]; simpl; [done|]. by rewrite Hd.
Qed.

Lemma replaceAllFrom_Forall (P : ascii -> Prop) r (f : str -> str) fuel : forall s,
  (forall mt, Forall P (f mt)) -> Forall P s -> Forall P (replaceAllFrom fuel r f s).
Proof.
  induction fuel as [|fuel IH]; intros s Hf Hs; [done|]. cbn [replaceAllFrom].
  destruct (search r s) as [[[pre mt] post]|] eqn:E; [|done].
  apply search_sound in E as (-> & _ & _).
  apply Forall_app in Hs as [Hpre Hs]. apply Forall_app in Hs as [_ Hpost].
  apply Forall_app. split; [done|]. apply Forall_app. split; [done|].
  destruct mt as [|c mt]; [destruct post as [|c post]|]; [done| |by apply IH].
  apply Forall_cons in Hpost as [Hc Hpost]. apply Forall_cons. split; [done|by apply IH].
Qed.

Lemma replaceFirst_Forall (P : ascii -> Prop) r (f : str -> str) s :
  (forall mt, Forall P mt -> Forall P (f mt)) -> Forall P s -> Forall P (replaceFirst r f s).
Proof.
  intros Hf Hs. unfold replaceFirst.
  destruct (search r s) as [[[pre mt] post]|] eqn:E; [|done].
  apply search_sound in E as (-> & _ & _).
  apply Forall_app in Hs as [Hpre Hs]. apply Forall_app in Hs as [Hmt Hpost].
  apply Forall_app. split; [done|]. apply Forall_app. split; [by apply Hf|done].
Qed.

Lemma hiResSuffix_no_mark : Forall (fun d => eqc d "?"%char = false) hiResSuffix.
Proof. unfold hiResSuffix. simpl. repeat constructor. Qed.

(** The query string of a URL with a single question mark is returned
    untouched by the upgrade step, whatever it does to the path. *)
Lemma query_preserved (base q : str) :
  Forall (fun d => eqc d "?"%char = false) base ->
  Forall (fun d => eqc d "?"%char = false) q ->
  queryComponent (upgradeUrl (base ++ "?" ++ q)) = q.
Proof.
  intros Hb Hq. unfold queryComponent.
  assert (Hsame : ImageDownloader.dropUntil "?"%char (base ++ "?" ++ q) = q)
    by (by apply dropUntil_skip).
  assert (Hmod : forall base' : str,
    Forall (fun d => eqc d "?"%char = false) base' ->
    ImageDownloader.dropUntil "?"%char (base' ++ queryOf [base; q]) = q).
  { intros base' Hb'. destruct q as [|c q]; simpl.
    - rewrite app_nil_r. by apply dropUntil_none.
    - by apply dropUntil_skip. }
  unfold upgradeUrl. change ("?" ++ q) with ("?"%char :: q) in *.
  rewrite (split_single _ _ _ Hb Hq). simpl baseOf.
  destruct (test (Pat.highRes eqc) _); [done|].
  destruct (test (Pat.lowRes eqc) _).
  - apply Hmod. apply replaceAllFrom_Forall; [intros _; apply hiResSuffix_no_mark|done].
  - destruct (includes "alicdn.com" _ && _); [|done].
    destruct (test Pat.extAtEnd base && _); [|done].
    apply Hmod. apply replaceFirst_Forall; [|done].
    intros mt Hmt. apply Forall_app. split; [apply hiResSuffix_no_mark|done].
Qed.

(** ** Where canonicalization is idempotent

    The defect behind C1 and C2 needs a second question mark: on URLs
    with at most one, a second canonicalization changes nothing. *)

Lemma split_at_most_two (x : str) :
  List.length (split "?"%char x) <= 2 ->
  split "?"%char x = [x] \/
  exists base q, x = base ++ "?"%char :: q /\ split "?"%char x = [base; q].
Proof.
  induction x as [|c x IH]; simpl; [by left|].
  destruct (eqc c "?"%char) eqn:Ec.
  - apply Ascii.eqb_eq in Ec as ->. simpl. intros Hl. right. exists [].
    destruct (split "?"%char x) as [|h [|h' t]] eqn:Es; simpl in Hl; [| |lia].
    + by destruct (split_nonempty "?"%char x).
    + destruct IH as [IH|(base & q & _ & IH)]; [simpl; lia| |congruence].
      injection IH as ->. by exists x.
  - destruct (split "?"%char x) as [|h t] eqn:Es.
    + by destruct (split_nonempty "?"%char x).
    + simpl. intros Hl. destruct (IH Hl) as [[= -> ->]|(base & q & -> & [= -> ->])].
      * by left.
      * right. by exists (c :: base), q.
Qed.

Lemma startsWith_cut (p pre v w : str) c :
  Forall (fun d => eqc d c = false) p ->
  startsWith p (pre ++ c :: v) = true -> startsWith p (pre ++ w) = true.
Proof.
  intros Hp. revert pre. induction Hp as [|a p Ha Hp IH]; intros pre; [done|].
  destruct pre as [|d pre]; simpl.
  - intros [E _]%andb_prop. unfold eqc in *. congruence.
  - intros [-> E]%andb_prop. by rewrite (IH pre E).
Qed.

Lemma lowRes_not_across_mark (base q : str) :
  test (Pat.lowRes eqc) (base ++ "?"%char :: q) = true ->
  test (Pat.lowRes eqc) base = true \/ test (Pat.lowRes eqc) q = true.
Proof.
  rewrite !test_true. apply (occurs_insert (Pat.lowRes eqc) "?"%char [] base q).
  - done.
  - by vm_compute.
  - intros l1 l2 Hs Hne. destruct l1 as [|d [|d' l1]]; [| |by destruct l1].
    + simpl in Hs. subst l2. by intros v.
    + simpl in Hs. injection Hs as <- <-. done.
Qed.

(** The upgrade step either returns its argument or puts the
    high-resolution suffix where a match started. *)
Lemma upgradeUrl_shape (x : str) :
  List.length (split "?"%char x) <= 2 ->
  upgradeUrl x = x \/
  exists pre rest X,
    x = pre ++ rest /\ upgradeUrl x = pre ++ hiResSuffix ++ X /\
    forall P : ascii -> Prop, Forall P x -> Forall P hiResSuffix -> Forall P X.
Proof.
  intros Hlen. unfold upgradeUrl.
  destruct (split_base_query x) as [tl Hx].
  destruct (test (Pat.highRes eqc) x); [by left|].
  destruct (test (Pat.lowRes eqc) x) eqn:Hlow.
  - unfold replaceAll. cbn [replaceAllFrom].
    destruct (search (Pat.lowRes eqc) (baseOf (split "?"%char x)))
      as [[[pre mt] post]|] eqn:E.
    + right. pose proof E as (Hb & _ & _)%search_sound.
      eexists pre, _, _. split; [|split].
      * rewrite Hx, Hb at 1. by rewrite <- !app_assoc.
      * by rewrite <- !app_assoc.
      * intros P HP HH. rewrite Hx, Hb in HP.
        rewrite !Forall_app in HP. destruct HP as ((Hpre & Hmt & Hpost) & Hq & Htl).
        apply Forall_app. split; [|done].
        destruct mt as [|c mt]; [destruct post as [|c post]|]; [done| |].
        -- apply Forall_cons in Hpost as [Hc Hpost]. apply Forall_cons. split; [done|].
           by apply replaceAllFrom_Forall.
        -- by apply replaceAllFrom_Forall.
    + left. destruct (split_at_most_two x Hlen) as [Hs|(base & q & -> & Hs)].
      * rewrite Hs. simpl. by rewrite app_nil_r.
      * rewrite Hs in *. simpl in *.
        destruct (lowRes_not_across_mark base q Hlow) as [Hb|Hq].
        -- unfold test in Hb. by rewrite E in Hb.
        -- destruct q as [|c q]; [by vm_compute in Hq|done].
  - destruct (includes "alicdn.com" x && negb (test Pat.anySize x)); [|by left].
    destruct (test Pat.extAtEnd (baseOf (split "?"%char x)) && _) eqn:Hc; [|by left].
    right. apply andb_prop in Hc as [Hc _]. unfold test in Hc. unfold replaceFirst.
    destruct (search Pat.extAtEnd (baseOf (split "?"%char x)))
      as [[[pre mt] post]|] eqn:E; [|done].
    pose proof E as (Hb & _ & _)%search_sound. unfold insertSuffix.
    eexists pre, _, _. split; [|split].
    + rewrite Hx, Hb at 1. by rewrite <- !app_assoc.
    + by rewrite <- !app_assoc.
    + intros P HP HH. rewrite Hx, Hb in HP.
      rewrite !Forall_app in HP. destruct HP as ((Hpre & Hmt & Hpost) & Hq & Htl).
      by rewrite !Forall_app.
Qed.

(** X8: on a URL text with at most one question mark the
    canonicalization of the revised extractor is idempotent: what it
    returns, it returns unchanged when applied again. *)
Lemma canonicalize_idempotent_one_mark (x : str) :
  urlText x ->
  List.length (split "?"%char x) <= 2 ->
  forall y, canonicalize x = Some y -> canonicalize y = Some y.
Proof.
  intros Hx Hlen y. unfold canonicalize at 1. rewrite (cleanUp_urlText x Hx).
  destruct (isDataUri x) eqn:Hd; [done|]. intros [= <-].
  destruct (upgradeUrl_shape x Hlen) as [Hy|(pre & rest & X & Hs & Hy & HX)].
  - rewrite Hy. unfold canonicalize. by rewrite (cleanUp_urlText x Hx), Hd, Hy.
  - assert (Hu : urlText (upgradeUrl x)).
    { rewrite Hy. unfold urlText in *.
      assert (Hpre : Forall (fun c => Pat.urlChar c = true) pre).
      { rewrite Hs in Hx. by apply Forall_app in Hx as [Hpre _]. }
      apply Forall_app. split; [done|]. apply Forall_app. split.
      - unfold hiResSuffix. simpl. by repeat constructor.
      - apply HX; [done|]. unfold hiResSuffix. simpl. by repeat constructor. }
    unfold canonicalize. rewrite (cleanUp_urlText _ Hu).
    assert (Hd' : isDataUri (upgradeUrl x) = false).
    { destruct (isDataUri (upgradeUrl x)) eqn:Hd'; [|done].
      unfold isDataUri in *. rewrite Hy in Hd'. unfold hiResSuffix in Hd'.
      change (list_ascii_of_string "_960x960q80" ++ X)
        with ("_"%char :: list_ascii_of_string "960x960q80" ++ X) in Hd'.
      apply (startsWith_cut _ _ _ rest) in Hd'; [|by repeat constructor].
      rewrite <- Hs in Hd'. congruence. }
    rewrite Hd'. f_equal. rewrite Hy.
    assert (Hhi : test (Pat.highRes eqc) (pre ++ hiResSuffix ++ X) = true).
    { change hiResSuffix with ("_960x960" ++ "q80" : str). rewrite <- app_assoc.
      apply highRes_occurs; [apply eqc_refl|by left]. }
    unfold upgradeUrl. by rewrite Hhi.
Qed.

(** ** The earlier revision is idempotent *)

Lemma neverEmpty_sound r : forall w rest,
  neverEmpty r = true -> lang r w rest -> w <> [].
Proof.
  induction r as [|p|r1 IH1 r2 IH2|r1 IH1 r2 IH2|p|]; intros w rest; simpl; try done.
  - by intros _ (c & -> & _).
  - intros [E|E]%orb_prop (w1 & w2 & -> & H1 & H2) [Hw1 Hw2]%app_eq_nil.
    + by apply (IH1 _ _ E H1).
    + by apply (IH2 _ _ E H2).
  - intros [E1 E2]%andb_prop [H|H]; eauto.
Qed.

(** Nothing matches before the leftmost match. *)
Lemma search_prefix_clean r s pre mt post :
  eolFree r = true -> neverEmpty r = true ->
  search r s = Some (pre, mt, post) -> test r pre = false.
Proof.
  intros He Hn E. apply search_sound in E as (-> & _ & Hmin).
  apply test_false. intros (p & w & q & -> & Hl).
  specialize (Hmin p w (q ++ mt ++ post)).
  rewrite <- !app_assoc in Hmin. specialize (Hmin eq_refl (lang_eolFree _ _ _ _ He Hl)).
  rewrite !length_app in Hmin.
  pose proof (neverEmpty_sound _ _ _ Hn Hl). destruct w; [done|simpl in Hmin; lia].
Qed.

(** A global replacement removes every match when the replacement text
    cannot take part in a new one. *)
Lemma replaceAllFrom_eliminates r c ins fuel : forall s,
  eolFree r = true -> neverEmpty r = true ->
  tailWithin (fun d => negb (eqc d c)) r = true ->
  (forall l1 l2, c :: ins = l1 ++ l2 -> l2 <> [] -> blocked r l2) ->
  List.length s < fuel ->
  test r (replaceAllFrom fuel r (fun _ => c :: ins) s) = false.
Proof.
  induction fuel as [|fuel IH]; intros s He Hn Ht Hb Hlen; [lia|].
  cbn [replaceAllFrom].
  destruct (search r s) as [[[pre mt] post]|] eqn:E.
  - pose proof (search_prefix_clean _ _ _ _ _ He Hn E) as Hpre.
    apply search_sound in E as (-> & Hl & _).
    pose proof (neverEmpty_sound _ _ _ Hn Hl) as Hmt.
    destruct mt as [|d mt]; [done|].
    apply test_insert; [done|done|done|done|].
    apply IH; try done. rewrite !length_app in Hlen. simpl in Hlen. lia.
  - unfold test. by rewrite E.
Qed.

Lemma earlier_upgrade_stable (x : str) :
  Earlier.upgradeUrl (Earlier.upgradeUrl x) = Earlier.upgradeUrl x.
Proof.
  unfold Earlier.upgradeUrl at 2.
  destruct (includes "_50x50" x || includes "_100x100" x) eqn:Hi.
  - assert (Hc : test Earlier.thumbnail
                   (replaceAll Earlier.thumbnail (fun _ => "_800x800" : str) x) = false).
    { apply (replaceAllFrom_eliminates Earlier.thumbnail "_"%char "800x800");
        [done|done|by vm_compute| |lia].
      intros l1 l2 Hs Hne. apply (tails_split _ l1 l2 Hs) in Hne. simpl in Hne.
      intros v. repeat (destruct Hne as [<-|Hne]; [reflexivity|]). done. }
    unfold Earlier.upgradeUrl. rewrite (replaceAll_no_match _ _ _ Hc), Hi.
    by match goal with |- (if ?b then _ else _) = _ => destruct b end.
  - unfold Earlier.upgradeUrl. by rewrite Hi.
Qed.

(** X9: the canonicalization of the earlier revision (thumbnail markers
    rewritten to [_800x800] on the whole string) is idempotent on every
    URL text, whatever its query string. *)
Lemma earlier_canonicalize_idempotent (x y : str) :
  urlText x -> Earlier.canonicalize x = Some y -> Earlier.canonicalize y = Some y.
Proof.
  intros Hx. unfold Earlier.canonicalize at 1. rewrite (cleanUp_urlText x Hx).
  destruct (isDataUri x) eqn:Hd; [done|]. intros [= <-].
  assert (Hu : urlText (Earlier.upgradeUrl x)).
  { unfold Earlier.upgradeUrl. destruct (includes "_50x50" x || includes "_100x100" x); [|done].
    apply replaceAllFrom_Forall; [|done]. intros _. simpl. by repeat constructor. }
  assert (Hd' : isDataUri (Earlier.upgradeUrl x) = false).
  { unfold Earlier.upgradeUrl. destruct (includes "_50x50" x || includes "_100x100" x); [|done].
    unfold replaceAll. cbn [replaceAllFrom].
    destruct (search Earlier.thumbnail x) as [[[pre mt] post]|] eqn:E; [|done].
    apply search_sound in E as (Hs & _ & _). cbn beta.
    match goal with |- isDataUri (pre ++ _ ++ ?X) = false => generalize X; intros X' end.
    destruct (isDataUri (pre ++ ("_800x800" : str) ++ X')) eqn:Hd'; [|done].
    unfold isDataUri in *.
    change (("_800x800" : str) ++ X') with ("_"%char :: ("800x800" : str) ++ X') in Hd'.
    apply (startsWith_cut "data:" pre _ (mt ++ post)) in Hd'; [|by repeat constructor].
    rewrite <- Hs in Hd'. congruence. }
  unfold Earlier.canonicalize.
  by rewrite (cleanUp_urlText _ Hu), Hd', earlier_upgrade_stable.
Qed.

(** * Further properties of the scraper

    The invariants of the store, the accounting of [downloadAll], the
    scroll loop, the retry loop and the batch of products, file names,
    product ids, and the remaining branches of the two intake paths. *)

(** ** The sets of the store *)

Import StoreSets.

Lemma getProductUrls_empty pid : getProductUrls pid empty = [].
Proof. unfold getProductUrls. simpl. by rewrite lookup_empty. Qed.

Lemma wellFormed_empty : wellFormed empty.
Proof.
  split; [apply NoDup_nil_2|]. split; intros pid; rewrite getProductUrls_empty.
  - apply NoDup_nil_2.
  - by intros u ?%elem_of_nil.
Qed.

Lemma wellFormed_addUrl productId x st :
  wellFormed st -> wellFormed (addUrl productId x st).
Proof.
  intros (Hg & Hp & Hs). split; [|split].
  - rewrite imageUrls_addUrl. by apply NoDup_setAdd.
  - intros pid. destruct (decide (truthy productId = Some pid)) as [Ht|Ht].
    + rewrite (getProductUrls_addUrl_same _ _ _ _ Ht). by apply NoDup_setAdd.
    + by rewrite (getProductUrls_addUrl_other _ _ _ _ Ht).
  - intros pid u Hu. rewrite imageUrls_addUrl. apply elem_of_setAdd.
    apply getProductUrls_addUrl in Hu as [->|Hu]; [by left|right; eauto].
Qed.

(** A property of the store that the insertion of an accepted URL keeps
    is kept by the whole extraction. *)
Lemma extract_preserves_accepted (P : store -> Prop) bodyString productId st :
  (forall mt s,
      isDataUri (cleanUp mt) = false -> isExcluded (cleanUp mt) = false ->
      P s -> P (addUrl productId (upgradeUrl (cleanUp mt)) s)) ->
  P st -> P (extractFromResponse bodyString productId st).1.
Proof.
  intros Hadd. rewrite extractFromResponse_candidates. generalize (candidates bodyString).
  intros ms. change st with ((st, false).1) at 1. generalize (st, false).
  induction ms as [|mt ms IH]; intros acc Hc; simpl; [done|].
  apply IH. unfold processMatch.
  destruct (isDataUri (cleanUp mt)) eqn:Hd; [done|].
  destruct (isExcluded (cleanUp mt)) eqn:Hx; [done|]. simpl. by apply Hadd.
Qed.

Lemma extract_preserves (P : store -> Prop) bodyString productId st :
  (forall x s, P s -> P (addUrl productId x s)) ->
  P st -> P (extractFromResponse bodyString productId st).1.
Proof. intros Hadd. apply extract_preserves_accepted. intros mt s _ _. apply Hadd. Qed.

Lemma productImages_intercept url st :
  productImages (Interception.interceptImage url st) = productImages st.
Proof.
  unfold Interception.interceptImage.
  destruct (test Interception.imageUrl url); [|done].
  by destruct (negb (Interception.shouldSkip url) && includes "alicdn.com" url).
Qed.

Lemma wellFormed_intercept url st :
  wellFormed st -> wellFormed (Interception.interceptImage url st).
Proof.
  intros Hw. unfold Interception.interceptImage.
  destruct (test Interception.imageUrl url); [|done].
  destruct (negb (Interception.shouldSkip url) && includes "alicdn.com" url); [|done].
  destruct Hw as (Hg & Hp & Hs). split; [|split]; simpl.
  - by apply NoDup_setAdd.
  - apply Hp.
  - intros pid u Hu. apply elem_of_setAdd. right. by apply (Hs pid).
Qed.

Lemma wellFormed_reachable st : reachable st -> wellFormed st.
Proof.
  induction 1 as [|st bodyString productId _ IH|st url _ IH|st _ _].
  - apply wellFormed_empty.
  - apply (extract_preserves wellFormed); [|done]. intros x s. apply wellFormed_addUrl.
  - by apply wellFormed_intercept.
  - apply wellFormed_empty.
Qed.

(** X1: in every reachable state of the store the global set and every
    product set hold no URL twice, and every URL of a product set is
    also in the global set: what [getProductUrls] can return,
    [getAllUrls] returns as well. *)
Theorem store_sets_well_formed st :
  reachable st ->
  NoDup (imageUrls st) /\
  (forall pid, NoDup (getProductUrls pid st)) /\
  (forall pid u, u ∈ getProductUrls pid st -> u ∈ imageUrls st).
Proof. apply wellFormed_reachable. Qed.

Lemma store_sets_well_formed_witness :
  let st := (extractFromResponse Sample.payload (Some ("42" : str)) empty).1 in
  NoDup (imageUrls st) /\
  (forall pid, NoDup (getProductUrls pid st)) /\
  (forall pid u, u ∈ getProductUrls pid st -> u ∈ imageUrls st).
Proof.
  apply (store_sets_well_formed _ (reach_extract _ Sample.payload (Some ("42" : str)) reach_empty)).
Defined.

(** X2: [extractFromResponse] called with one product id leaves the set
    of every other product as it was; called with [null] or an empty id
    it leaves the whole product map as it was; and a direct image
    response never changes the product map. *)
Theorem product_sets_isolated bodyString productId st :
  (forall q, truthy productId <> Some q ->
     getProductUrls q (extractFromResponse bodyString productId st).1 = getProductUrls q st) /\
  (truthy productId = None ->
     productImages (extractFromResponse bodyString productId st).1 = productImages st) /\
  (forall url, productImages (Interception.interceptImage url st) = productImages st).
Proof.
  split; [|split].
  - intros q Hq.
    apply (extract_preserves (fun s => getProductUrls q s = getProductUrls q st)); [|done].
    intros x s Hs. by rewrite getProductUrls_addUrl_other.
  - intros Hn.
    apply (extract_preserves (fun s => productImages s = productImages st)); [|done].
    intros x s Hs. unfold addUrl. by rewrite Hn.
  - intros url. apply productImages_intercept.
Qed.

Lemma setAdd_prefix (x : str) (s : list str) : s `prefix_of` setAdd x s.
Proof.
  unfold setAdd. destruct (decide (x ∈ s)); [done|]. by apply prefix_app_r.
Qed.

(** X3: [extractFromResponse] and the direct image branch only append:
    the global set before the call is a prefix of the global set after
    it, and so is every product set, so no URL is removed or moved (only
    [clear] empties the store). *)
Theorem store_grows_by_appending bodyString productId url st :
  imageUrls st `prefix_of` imageUrls (extractFromResponse bodyString productId st).1 /\
  (forall q, getProductUrls q st `prefix_of`
             getProductUrls q (extractFromResponse bodyString productId st).1) /\
  imageUrls st `prefix_of` imageUrls (Interception.interceptImage url st).
Proof.
  split; [|split].
  - apply (extract_preserves (fun s => imageUrls st `prefix_of` imageUrls s)); [|done].
    intros x s Hs. rewrite imageUrls_addUrl. etrans; [done|apply setAdd_prefix].
  - intros q.
    apply (extract_preserves (fun s => getProductUrls q st `prefix_of` getProductUrls q s)); [|done].
    intros x s Hs. destruct (decide (truthy productId = Some q)) as [Ht|Ht].
    + rewrite (getProductUrls_addUrl_same _ _ _ _ Ht). etrans; [done|apply setAdd_prefix].
    + by rewrite (getProductUrls_addUrl_other _ _ _ _ Ht).
  - unfold Interception.interceptImage.
    destruct (test Interception.imageUrl url); [|done].
    destruct (negb (Interception.shouldSkip url) && includes "alicdn.com" url); [|done].
    simpl. apply setAdd_prefix.
Qed.

(** ** What [downloadAll] accounts for *)

Lemma fold_setAdd_length (l : list str) : forall acc,
  List.length (fold_left (fun s x => setAdd x s) l acc) <= List.length acc + List.length l.
Proof.
  induction l as [|x l IH]; intros acc; simpl; [lia|].
  etrans; [apply IH|]. unfold setAdd. destruct (decide (x ∈ acc)); [lia|].
  rewrite length_app. simpl. lia.
Qed.

Lemma setFrom_length (l : list str) : List.length (setFrom l) <= List.length l.
Proof. apply (fold_setAdd_length l []). Qed.

Section DownloadAllAccounts.
Context {W : Type}.
Variable downloadImage : str -> nat -> W -> (str + str) * W.

Lemma loop_accounts (uniqueImages : list str) : forall b i,
  NoDup (ImageDownloader.seenUrls b ++ uniqueImages) ->
  let b' := ImageDownloader.loop downloadImage b i uniqueImages in
  List.length (ImageDownloader.downloaded b') + List.length (ImageDownloader.failed b')
  = List.length (ImageDownloader.downloaded b) + List.length (ImageDownloader.failed b)
    + List.length uniqueImages /\
  (exists l, l `sublist_of` uniqueImages /\
     map fst (ImageDownloader.failed b') = map fst (ImageDownloader.failed b) ++ l) /\
  ImageDownloader.seenUrls b' = ImageDownloader.seenUrls b ++ uniqueImages.
Proof.
  induction uniqueImages as [|u us IH]; intros b i Hn; simpl.
  - split; [lia|]. split; [|by rewrite app_nil_r]. exists []. by rewrite app_nil_r.
  - assert (Hu : u ∉ ImageDownloader.seenUrls b).
    { apply NoDup_app in Hn as (_ & Hn & _). intros Hx. apply (Hn u Hx). by left. }
    destruct (iteration_fresh downloadImage b i u Hu) as [_ Hs].
    destruct (IH (ImageDownloader.iteration downloadImage b i u) (S i)) as (Hl & (l & Hsub & Hf) & Hseen).
    { by rewrite Hs, <- app_assoc. }
    rewrite Hl, Hf, Hseen, Hs, <- app_assoc. clear IH Hl Hf Hseen Hs.
    unfold ImageDownloader.iteration.
    destruct (decide (u ∈ ImageDownloader.seenUrls b)); [done|].
    destruct (downloadImage u i (ImageDownloader.world b)) as [[p|e] w']; simpl.
    + rewrite length_app. simpl. split; [lia|]. split; [|done].
      exists l. split; [by apply sublist_cons|done].
    + rewrite length_app. simpl. split; [lia|]. split; [|done].
      exists (u :: l). split; [by apply sublist_skip|].
      by rewrite map_app, <- app_assoc.
Qed.

End DownloadAllAccounts.

(** X12: [downloadAll] accounts for every distinct URL: the downloaded
    paths and the failures together are as many as the distinct URLs, the
    distinct URLs and the removed duplicates together are as many as the
    input, the URLs of the failures are distinct URLs of the input in
    their order, and all distinct URLs have been visited whatever
    failed. *)
Theorem downloadAll_accounts_for_every_url {W : Type}
    (downloadImage : str -> nat -> W -> (str + str) * W) (images : list str) (w : W) :
  let b := (ImageDownloader.downloadAll downloadImage images w).1 in
  let r := (ImageDownloader.downloadAll downloadImage images w).2 in
  ImageDownloader.successful r + ImageDownloader.failures r = ImageDownloader.total r /\
  ImageDownloader.total r + ImageDownloader.duplicatesRemoved r = List.length images /\
  List.length (ImageDownloader.downloaded b) + List.length (ImageDownloader.failed b)
    = List.length (setFrom images) /\
  map fst (ImageDownloader.failed b) `sublist_of` setFrom images /\
  ImageDownloader.seenUrls b = setFrom images.
Proof.
  unfold ImageDownloader.downloadAll. cbn [fst snd ImageDownloader.total
    ImageDownloader.duplicatesRemoved ImageDownloader.successful ImageDownloader.failures].
  destruct (loop_accounts downloadImage (setFrom images) (ImageDownloader.Batch [] [] [] [] w) 0)
    as (Hl & (l & Hsub & Hf) & Hseen); [apply NoDup_setFrom|].
  simpl in Hl, Hf, Hseen. pose proof (setFrom_length images).
  repeat split; [lia|lia|lia| |done]. by rewrite Hf.
Qed.

Lemma map_fst_imap (l : list str) : forall n,
  map fst (imap (fun k (u : str) => (u, n + k)) l) = l.
Proof.
  induction l as [|x l IH]; intros n; simpl; [done|].
  f_equal. etrans; [|apply (IH (S n))].
  f_equal. apply imap_ext. intros k y _. simpl. f_equal. lia.
Qed.

Lemma NoDup_List_filter (f : str -> bool) (l : list str) :
  NoDup l -> NoDup (List.filter f l).
Proof.
  induction 1 as [|x l Hx Hl IH]; simpl; [constructor|].
  destruct (f x); [|done]. constructor; [|done].
  rewrite list_elem_of_In, filter_In, <- list_elem_of_In. tauto.
Qed.

Lemma NoDup_selectImageUrls productId st :
  NoDup (imageUrls st) -> (forall pid, NoDup (getProductUrls pid st)) ->
  NoDup (selectImageUrls productId st).
Proof.
  intros Hg Hp. unfold selectImageUrls.
  destruct (negb (bool_decide (productId = "unknown")) && _); [apply Hp|].
  destruct (Nat.eqb (List.length (rank (imageUrls st))) 0).
  - by apply NoDup_List_filter.
  - unfold rank. rewrite (sortBy_Permutation comparison). apply NoDup_setFrom.
Qed.

(** X11: the URLs that [scrapeProductPage] selects from a reachable
    store hold no duplicate, so [downloadAll] calls the single-item
    download for exactly these URLs, in the selected order, and removes
    no duplicate. *)
Theorem selected_urls_attempted_once {W : Type}
    (downloadImage : str -> nat -> W -> (str + str) * W) (productId : str) (st : store) (w : W) :
  reachable st ->
  let selected := selectImageUrls productId st in
  NoDup selected /\
  map fst (ImageDownloader.calls (ImageDownloader.downloadAll downloadImage selected w).1)
    = selected /\
  ImageDownloader.duplicatesRemoved (ImageDownloader.downloadAll downloadImage selected w).2 = 0.
Proof.
  intros Hr. cbv zeta.
  assert (Hn : NoDup (selectImageUrls productId st)).
  { destruct (wellFormed_reachable st Hr) as (Hg & Hp & _). by apply NoDup_selectImageUrls. }
  split; [done|].
  rewrite downloadAll_calls. unfold ImageDownloader.downloadAll. simpl.
  rewrite (setFrom_NoDup_id _ Hn). split; [apply (map_fst_imap _ 0)|lia].
Qed.

Lemma selected_urls_attempted_once_witness :
  let st := (extractFromResponse Sample.payload (Some ("42" : str)) empty).1 in
  let download := fun (_ : str) (_ : nat) (w : unit) => (inl [] : str + str, w) in
  NoDup (selectImageUrls "42" st) /\
  map fst (ImageDownloader.calls
             (ImageDownloader.downloadAll download (selectImageUrls "42" st) tt).1)
  = selectImageUrls "42" st /\
  ImageDownloader.duplicatesRemoved
    (ImageDownloader.downloadAll download (selectImageUrls "42" st) tt).2 = 0.
Proof.
  apply (selected_urls_attempted_once
           (fun (_ : str) (_ : nat) (w : unit) => (inl [] : str + str, w)) "42"
           (extractFromResponse Sample.payload (Some ("42" : str)) empty).1 tt).
  apply reach_extract, reach_empty.
Defined.

(** ** The scroll loop *)

Section ScrollProps.
Import LazyLoad.
Variable scrollHeight : nat -> nat.

Abbreviation previous := (LazyLoad.previous scrollHeight).

Lemma rounds_round (h : nat) (tr : list action) :
  rounds ([SmoothScroll; RandomScroll; Delay; Measure h] ++ map Hover imageSelectors ++ tr)
  = S (rounds tr).
Proof. done. Qed.

Lemma scrollLoop_stops fuel : forall j tr p c,
  scrollLoop scrollHeight fuel (S j) (previous j) (scrollHeight j) = Some (tr, p, c) ->
  (forall i, j <= i < j + rounds tr -> previous i < scrollHeight i) /\
  scrollHeight (j + rounds tr) <= previous (j + rounds tr) /\
  p = previous (j + rounds tr) /\ c = scrollHeight (j + rounds tr).
Proof.
  induction fuel as [|fuel IH]; intros j tr p c; cbn [scrollLoop].
  - destruct (Nat.ltb_spec (previous j) (scrollHeight j)); [done|].
    intros [= <- <- <-]. cbn [rounds List.filter List.length]. rewrite Nat.add_0_r.
    repeat split; [lia|done].
  - destruct (Nat.ltb_spec (previous j) (scrollHeight j)) as [Hlt|Hge].
    + destruct (scrollLoop scrollHeight fuel (S (S j)) (scrollHeight j) (scrollHeight (S j)))
        as [[[tr' p'] c']|] eqn:E; [|done].
      intros [= Htr <- <-].
      assert (Hr : rounds tr = S (rounds tr')) by (by rewrite <- Htr). rewrite Hr.
      apply (IH (S j)) in E as (H1 & H2 & H3 & H4).
      replace (j + S (rounds tr')) with (S j + rounds tr') by lia.
      repeat split; try done.
      intros i Hi. destruct (decide (i = j)) as [->|Hne]; [done|]. apply H1. lia.
    + intros [= <- <- <-]. cbn [rounds List.filter List.length]. rewrite Nat.add_0_r.
      repeat split; [lia|done].
Qed.

Lemma scrollLoop_bounded (B : nat) fuel : forall k p c,
  (forall i, scrollHeight i <= B) -> c <= B -> B - p <= fuel ->
  exists tr p' c',
    scrollLoop scrollHeight fuel k p c = Some (tr, p', c') /\ rounds tr <= B - p.
Proof.
  induction fuel as [|fuel IH]; intros k p c HB Hc Hf; cbn [scrollLoop].
  - destruct (Nat.ltb_spec p c); [lia|]. eexists _, _, _. split; [done|]. cbn. lia.
  - destruct (Nat.ltb_spec p c) as [Hlt|Hge].
    + destruct (IH (S k) c (scrollHeight k) HB (HB k)) as (tr & p' & c' & -> & Hr); [lia|].
      eexists _, _, _. split; [done|]. rewrite rounds_round. lia.
    + eexists _, _, _. split; [done|]. cbn. lia.
Qed.

End ScrollProps.

(** X21: the scroll loop of [scrapeProductPage] runs one round for each
    evaluation of the page height that exceeds the one before (the first
    is compared with 0) and stops at the first that does not, a smaller
    height included; it ends after at most [B] rounds when the height
    never exceeds [B]; and a page of height 0 is not scrolled at all. *)
Theorem lazy_load_stops (scrollHeight : nat -> nat) :
  (forall fuel tr p c,
      LazyLoad.lazyLoad scrollHeight fuel = Some (tr, p, c) ->
      (forall i, i < LazyLoad.rounds tr ->
         LazyLoad.previous scrollHeight i < scrollHeight i) /\
      scrollHeight (LazyLoad.rounds tr)
        <= LazyLoad.previous scrollHeight (LazyLoad.rounds tr) /\
      p = LazyLoad.previous scrollHeight (LazyLoad.rounds tr) /\
      c = scrollHeight (LazyLoad.rounds tr)) /\
  (forall B fuel,
      (forall i, scrollHeight i <= B) -> B <= fuel ->
      exists tr p c,
        LazyLoad.lazyLoad scrollHeight fuel = Some (tr, p, c) /\ LazyLoad.rounds tr <= B) /\
  (scrollHeight 0 = 0 -> forall fuel, LazyLoad.lazyLoad scrollHeight fuel = Some ([], 0, 0)).
Proof.
  split; [|split].
  - intros fuel tr p c H. apply (scrollLoop_stops scrollHeight fuel 0) in H as (H1 & H2 & H3 & H4).
    simpl in *. repeat split; [|done|done|done]. intros i Hi. apply H1. lia.
  - intros B fuel HB Hf.
    destruct (scrollLoop_bounded scrollHeight B fuel 1 0 (scrollHeight 0) HB (HB 0))
      as (tr & p & c & H & Hr); [lia|].
    exists tr, p, c. split; [done|lia].
  - intros H0 fuel. unfold LazyLoad.lazyLoad. rewrite H0. by destruct fuel.
Qed.

(** ** The first attempt that returns *)

Section RetryFirst.
Import Retry RetryRuns.
Context {R E : Type}.
Variable cfg : config.
Variable body : nat -> outcome R E.
Variable draw : nat -> Z.

Lemma scrapeFrom_first_return (k : nat) (r : R) fuel : forall retryCount,
  k <= retryAttempts cfg -> retryCount <= k -> k - retryCount <= fuel ->
  (forall n, n < k -> exists e, body n = Thrown e) ->
  body k = Returned r ->
  exists tr,
    scrapeProductPage cfg body draw fuel retryCount = Some (tr, Returned r) /\
    attempts tr = seq (retryCount + 1) (k - retryCount + 1) /\
    backoffs tr = map (fun n => (retryDelay cfg + draw n)%Z) (seq retryCount (k - retryCount)).
Proof.
  induction fuel as [|fuel IH]; intros retryCount Hk Hle Hf Hthrow Hret.
  - assert (retryCount = k) as -> by lia.
    rewrite (scrapeFrom_returned cfg body draw 0 k r Hret).
    eexists. split; [done|]. by rewrite Nat.sub_diag.
  - destruct (decide (retryCount = k)) as [->|Hne].
    + rewrite (scrapeFrom_returned cfg body draw (S fuel) k r Hret).
      eexists. split; [done|]. by rewrite Nat.sub_diag.
    + cbn [scrapeProductPage]. destruct (Hthrow retryCount) as [e ->]; [lia|].
      destruct (Nat.ltb_spec retryCount (retryAttempts cfg)); [|lia].
      destruct (IH (retryCount + 1)) as (tr & -> & Ha & Hb); [lia|lia|lia|done|done|].
      eexists. split; [done|]. cbn [attempts backoffs flat_map app].
      fold (attempts tr). fold (backoffs tr). rewrite Ha, Hb.
      replace (k - retryCount) with (S (k - (retryCount + 1))) by lia.
      cbn [seq map]. unfold randomDelay.
      rewrite (Z.add_comm (draw retryCount)).
      replace (S retryCount) with (retryCount + 1) by lia.
      replace (S (k - (retryCount + 1)) + 1) with (S (k - (retryCount + 1) + 1)) by lia.
      cbn [seq]. replace (S (retryCount + 1)) with (retryCount + 1 + 1) by lia. done.
Qed.


End RetryFirst.

(** X22: when the attempts before attempt [k + 1] throw and that one
    returns, within the configured retries, [scrapeProductPage] returns
    its result after exactly [k + 1] attempts and [k] backoff delays,
    each [retryDelay] plus the random draw; no later attempt is made. *)
Theorem first_returning_attempt_wins {R E : Type} (cfg : Retry.config)
    (body : nat -> Retry.outcome R E) (draw : nat -> Z) (k : nat) (r : R) :
  k <= Retry.retryAttempts cfg ->
  (forall n, n < k -> exists e, body n = Retry.Thrown e) ->
  body k = Retry.Returned r ->
  exists tr,
    Retry.scrape cfg body draw = Some (tr, Retry.Returned r) /\
    RetryRuns.attempts tr = seq 1 (k + 1) /\
    Retry.backoffs tr = map (fun n => (Retry.retryDelay cfg + draw n)%Z) (seq 0 k).
Proof.
  intros Hk Hthrow Hret.
  destruct (scrapeFrom_first_return cfg body draw k r (Retry.retryAttempts cfg) 0)
    as (tr & Hs & Ha & Hb); [lia|lia|lia|done|done|].
  exists tr. rewrite Nat.sub_0_r in Ha, Hb. done.
Qed.

Lemma first_returning_attempt_wins_witness :
  exists tr,
    Retry.scrape Retry.defaultConfig RetryRuns.twoFailures (fun _ => 7%Z)
    = Some (tr, Retry.Returned tt) /\
    RetryRuns.attempts tr = [1; 2; 3] /\
    Retry.backoffs tr = [5007%Z; 5007%Z].
Proof.
  apply (first_returning_attempt_wins Retry.defaultConfig RetryRuns.twoFailures
           (fun _ => 7%Z) 2 tt).
  - simpl. lia.
  - intros n Hn. exists n. unfold RetryRuns.twoFailures.
    by destruct (Nat.ltb_spec n 2); [|lia].
  - reflexivity.
Defined.


(** ** The batch of products *)

Section BatchProps.
Import Retry Batch.
Context {R : Type}.
Variable scrapeProductPage : str -> store -> outcome R str * store.

Lemma visit_results url (acc : list (entry (R:=R)) * store) :
  exists e, (visit scrapeProductPage acc url).1 = acc.1 ++ [e].
Proof.
  unfold visit. destruct (scrapeProductPage url acc.2) as [[r|e] st']; simpl; eauto.
Qed.

Lemma fold_visit_results (urls : list str) : forall acc,
  exists es, (fold_left (visit scrapeProductPage) urls acc).1 = acc.1 ++ es /\
             List.length es = List.length urls.
Proof.
  induction urls as [|u urls IH]; intros acc; simpl.
  - exists []. by rewrite app_nil_r.
  - destruct (IH (visit scrapeProductPage acc u)) as (es & -> & Hl).
    destruct (visit_results u acc) as [e ->].
    exists (e :: es). rewrite <- app_assoc. simpl. by rewrite Hl.
Qed.

End BatchProps.

(** X24: [scrapeMultipleProducts] yields one entry for each URL, in
    order, and a failing product does not stop the batch: the entry of a
    URL is the result of its scrape, after which the store is empty, or
    the failure record with that URL and the message of the error, after
    which the store is left as the failed scrape left it ([clear] is not
    called on that path). *)
Theorem batch_results_line_up {R : Type}
    (scrapeProductPage : str -> store -> Retry.outcome R str * store)
    (productUrls : list str) (st : store) :
  let results := (Batch.scrapeMultipleProducts scrapeProductPage productUrls st).1 in
  List.length results = List.length productUrls /\
  (forall pre url post,
      productUrls = pre ++ url :: post ->
      let before := (Batch.scrapeMultipleProducts scrapeProductPage pre st).2 in
      let after := (Batch.scrapeMultipleProducts scrapeProductPage (pre ++ [url]) st).2 in
      match scrapeProductPage url before with
      | (Retry.Returned result, _) =>
          results !! List.length pre = Some (Batch.Result result) /\ after = empty
      | (Retry.Thrown error, remaining) =>
          results !! List.length pre = Some (Batch.Failure url error) /\ after = remaining
      end).
Proof.
  cbv zeta. unfold Batch.scrapeMultipleProducts. split.
  - destruct (fold_visit_results scrapeProductPage productUrls ([], st)) as (es & -> & Hl). done.
  - intros pre url post ->. rewrite !fold_left_app. cbn [fold_left].
    set (acc := fold_left (Batch.visit scrapeProductPage) pre ([], st)).
    destruct (fold_visit_results scrapeProductPage post (Batch.visit scrapeProductPage acc url))
      as (es & -> & _).
    assert (Hlen : List.length acc.1 = List.length pre).
    { destruct (fold_visit_results scrapeProductPage pre ([], st)) as (es' & He & Hl).
      unfold acc. by rewrite He. }
    unfold Batch.visit.
    destruct (scrapeProductPage url acc.2) as [[result|error] remaining]; cbn [fst snd].
    + split; [|done]. rewrite <- app_assoc, lookup_app_r by lia.
      by rewrite Hlen, Nat.sub_diag.
    + split; [|done]. rewrite <- app_assoc, lookup_app_r by lia.
      by rewrite Hlen, Nat.sub_diag.
Qed.

(** ** Replacing the characters of a class *)

Lemma test_Chr_false p s :
  test (Chr p) s = false <-> Forall (fun c => p c = false) s.
Proof.
  rewrite test_false. split.
  - intros Hn. apply Forall_forall. intros c Hc.
    destruct (p c) eqn:Hp; [|done]. exfalso. apply Hn.
    apply list_elem_of_split in Hc as (pre & post & ->).
    exists pre, [c], post. split; [done|]. by exists c.
  - intros Hf (pre & w & post & -> & c & -> & Hp).
    apply Forall_app in Hf as [_ Hf]. apply Forall_cons in Hf as [Hc _]. congruence.
Qed.

Lemma test_Plus_false p s :
  test (Plus p) s = false <-> Forall (fun c => p c = false) s.
Proof.
  rewrite <- test_Chr_false, !test_false. split.
  - intros Hn (pre & w & post & -> & c & -> & Hp). apply Hn.
    exists pre, [c], post. split; [done|]. apply lang_Plus; [by repeat constructor|done].
  - intros Hn (pre & w & post & -> & w1 & w2 & -> & (c & -> & Hp) & _). apply Hn.
    exists pre, [c], (w2 ++ post). split; [by rewrite <- !app_assoc|]. by exists c.
Qed.

Lemma flat_map_id (p : ascii -> bool) (t s : str) :
  Forall (fun c => p c = false) s -> flat_map (fun c => if p c then t else [c]) s = s.
Proof. induction 1 as [|c s Hc Hs IH]; simpl; [done|]. by rewrite Hc, IH. Qed.

(** A global replacement of the characters of a class works character
    by character. *)
Lemma replaceAllFrom_Chr p (t : str) fuel : forall s,
  List.length s < fuel ->
  replaceAllFrom fuel (Chr p) (fun _ => t) s = flat_map (fun c => if p c then t else [c]) s.
Proof.
  induction fuel as [|fuel IH]; intros s Hlen; [lia|]. cbn [replaceAllFrom].
  destruct (search (Chr p) s) as [[[pre mt] post]|] eqn:E.
  - pose proof (search_prefix_clean (Chr p) _ _ _ _ eq_refl eq_refl E) as Hpre.
    apply test_Chr_false in Hpre.
    apply search_sound in E as (-> & (c & -> & Hp) & _).
    rewrite !flat_map_app, (flat_map_id p t pre Hpre). simpl. rewrite Hp, app_nil_r.
    rewrite IH; [done|]. rewrite !length_app in Hlen. simpl in Hlen. lia.
  - symmetry. apply flat_map_id, test_Chr_false. unfold test. by rewrite E.
Qed.

Lemma replaceAll_Chr p (t s : str) :
  replaceAll (Chr p) (fun _ => t) s = flat_map (fun c => if p c then t else [c]) s.
Proof. apply replaceAllFrom_Chr. lia. Qed.

Lemma replaceAll_Chr_map p (d : ascii) (s : str) :
  replaceAll (Chr p) (fun _ => [d]) s = map (fun c => if p c then d else c) s.
Proof.
  rewrite replaceAll_Chr. induction s as [|c s IH]; simpl; [done|].
  rewrite IH. by destruct (p c).
Qed.

(** ** Runs of a class: the greedy match *)

Lemma mstar_Some p (s : str) : mstar p Some s = Some (ImageDownloader.dropWhile p s).
Proof.
  induction s as [|c s IH]; simpl; [done|]. destruct (p c); [|done]. by rewrite IH.
Qed.

Lemma matchAt_Plus p (s : str) :
  matchAt (Plus p) s =
  match s with
  | c :: s' => if p c then Some (ImageDownloader.dropWhile p s') else None
  | [] => None
  end.
Proof.
  unfold matchAt, Plus. cbn [m]. destruct s as [|c s]; [done|].
  destruct (p c); [|done]. change (m (Star p) Some s) with (mstar p Some s). apply mstar_Some.
Qed.

(** The text after a match is what the matcher left. *)
Lemma search_matchAt r s : forall pre mt post,
  search r s = Some (pre, mt, post) -> matchAt r (mt ++ post) = Some post.
Proof.
  induction s as [|c s IH]; intros pre mt post; cbn [search].
  - destruct (matchAt r []) as [rest|] eqn:E; [|done]. intros [= <- <- <-].
    pose proof E as (w & Hs & _)%matchAt_sound.
    symmetry in Hs. apply app_eq_nil in Hs as [-> ->]. done.
  - destruct (matchAt r (c :: s)) as [rest|] eqn:E.
    + intros [= <- <- <-]. pose proof E as (w & Hs & _)%matchAt_sound.
      change (S (List.length s)) with (List.length (c :: s)).
      rewrite Hs, take_matched. by rewrite <- Hs.
    + destruct (search r s) as [[[pre0 mt0] post0]|] eqn:Es; [|done].
      intros [= <- <- <-]. by apply (IH pre0).
Qed.

Lemma dropWhile_head p (s : str) :
  match ImageDownloader.dropWhile p s with
  | [] => True
  | d :: _ => p d = false
  end.
Proof.
  induction s as [|c s IH]; simpl; [done|]. destruct (p c) eqn:Hp; [done|]. done.
Qed.

(** The leftmost run of a class: nothing of the class before it, and
    the run is not followed by a character of the class. *)
Lemma search_Plus p s pre mt post :
  search (Plus p) s = Some (pre, mt, post) ->
  s = pre ++ mt ++ post /\
  Forall (fun c => p c = false) pre /\
  Forall (fun c => p c = true) mt /\ mt <> [] /\
  match post with
  | [] => True
  | d :: _ => p d = false
  end.
Proof.
  intros E.
  pose proof (search_prefix_clean (Plus p) _ _ _ _ eq_refl eq_refl E) as Hpre.
  apply test_Plus_false in Hpre.
  pose proof (search_matchAt _ _ _ _ _ E) as Hm.
  apply search_sound in E as (-> & Hl & _).
  split; [done|]. split; [done|].
  pose proof (charsWithin_sound p (Plus p) mt post) as Hc.
  split; [|split].
  - apply Hc; [|done]. simpl. rewrite andb_diag. unfold classWithin.
    apply forallb_forall. intros c _. by destruct (p c).
  - by apply (neverEmpty_sound (Plus p) mt post).
  - rewrite matchAt_Plus in Hm. destruct (mt ++ post) as [|c s']; [done|].
    destruct (p c); [|done]. injection Hm as <-. apply dropWhile_head.
Qed.

(** ** Collapsing the runs of a character *)

Section Collapse.
Variable c : ascii.

Abbreviation run := (Plus (eqc c)).

Lemma includes_prefix (p a b : str) : includes p a = true -> includes p (a ++ b) = true.
Proof.
  assert (Hs : forall p a, startsWith p a = true -> startsWith p (a ++ b) = true).
  { clear. intros p. induction p as [|x p IH]; intros a; [done|].
    destruct a as [|y a]; simpl; [done|]. intros [-> H]%andb_prop. by rewrite (IH a H). }
  induction a as [|y a IH].
  - cbn [includes]. rewrite orb_false_r. intros H. apply includes_startsWith. by apply (Hs p []).
  - change ((y :: a) ++ b) with (y :: (a ++ b)). cbn [includes].
    intros [H|H]%orb_prop.
    + pose proof (Hs _ _ H) as H'. change ((y :: a) ++ b) with (y :: (a ++ b)) in H'.
      by rewrite H'.
    + rewrite (IH H). apply orb_true_r.
Qed.

Lemma includes_suffix (p a b : str) : includes p b = true -> includes p (a ++ b) = true.
Proof. intros H. induction a as [|y a IH]; simpl; [done|]. rewrite IH. apply orb_true_r. Qed.

Lemma includes_double_cons (d : ascii) (t : str) :
  eqc c d = false -> includes [c; c] (d :: t) = includes [c; c] t.
Proof. intros Hd. cbn [includes startsWith]. by rewrite Hd. Qed.

(** No double [c] in [pre ++ c :: t] when [pre] has no [c], [t] does
    not start with [c] and has no double [c]. *)
Lemma includes_double_join (pre t : str) :
  Forall (fun d => eqc c d = false) pre ->
  match t with [] => True | d :: _ => eqc c d = false end ->
  includes [c; c] t = false ->
  includes [c; c] (pre ++ c :: t) = false.
Proof.
  intros Hpre Ht Hn. induction Hpre as [|d pre Hd Hpre IH].
  - cbn [app includes startsWith]. rewrite Hn, orb_false_r.
    destruct t as [|d t]; [by rewrite andb_false_r|]. by rewrite Ht, andb_false_r.
  - change ((d :: pre) ++ c :: t) with (d :: (pre ++ c :: t)).
    by rewrite includes_double_cons.
Qed.

Lemma includes_double_none (s : str) :
  Forall (fun d => eqc c d = false) s -> includes [c; c] s = false.
Proof.
  induction 1 as [|d s Hd Hs IH]; [done|]. by rewrite includes_double_cons.
Qed.

Lemma replaceAllFrom_head (f : str -> str) fuel (d : ascii) (s : str) :
  eqc c d = false ->
  exists t, replaceAllFrom fuel run f (d :: s) = d :: t.
Proof.
  intros Hd. destruct fuel as [|fuel]; [by eexists|]. cbn [replaceAllFrom].
  destruct (search run (d :: s)) as [[[pre mt] post]|] eqn:E; [|by eexists].
  apply search_Plus in E as (Hs & Hpre & Hmt & Hne & _).
  destruct pre as [|e pre].
  - destruct mt as [|e mt]; [done|]. simpl in Hs. injection Hs as <- _.
    apply Forall_cons in Hmt as [Hmt _]. congruence.
  - simpl in Hs. injection Hs as <- _. by eexists.
Qed.

Lemma collapse_no_double fuel : forall s,
  includes [c; c] (replaceAllFrom fuel run (fun _ => [c]) s) = false \/
  fuel <= List.length s.
Proof.
  induction fuel as [|fuel IH]; intros s; [right; lia|]. cbn [replaceAllFrom].
  destruct (search run s) as [[[pre mt] post]|] eqn:E.
  - apply search_Plus in E as (-> & Hpre & Hmt & Hne & Hpost).
    destruct mt as [|e mt]; [done|].
    destruct (IH post) as [Hn|Hle].
    + left. apply includes_double_join; [done| |done].
      destruct post as [|d post].
      * by destruct fuel.
      * destruct (replaceAllFrom_head (fun _ => [c]) fuel d post Hpost) as [t ->]. done.
    + right. rewrite !length_app. simpl. lia.
  - left. apply includes_double_none. apply test_Plus_false. unfold test. by rewrite E.
Qed.

Lemma collapse_clean fuel : forall s,
  includes [c; c] s = false -> replaceAllFrom fuel run (fun _ => [c]) s = s.
Proof.
  induction fuel as [|fuel IH]; intros s Hs; [done|]. cbn [replaceAllFrom].
  destruct (search run s) as [[[pre mt] post]|] eqn:E; [|done].
  apply search_Plus in E as (-> & Hpre & Hmt & Hne & Hpost).
  assert (Hpn : includes [c; c] post = false).
  { destruct (includes [c; c] post) eqn:Hp; [|done].
    rewrite app_assoc, (includes_suffix _ _ _ Hp) in Hs. done. }
  destruct mt as [|e [|e' mt]]; [done| |].
  - apply Forall_cons in Hmt as [He _]. apply Ascii.eqb_eq in He as <-.
    by rewrite (IH post Hpn).
  - exfalso. apply Forall_cons in Hmt as [He Hmt]. apply Forall_cons in Hmt as [He' _].
    apply Ascii.eqb_eq in He as <-. apply Ascii.eqb_eq in He' as <-.
    change (c :: c :: mt) with ([c; c] ++ mt) in Hs.
    rewrite <- app_assoc, includes_app in Hs. done.
Qed.

End Collapse.

Lemma replaceAllFrom_nonempty r (f : str -> str) fuel (s : str) :
  (forall mt, f mt <> []) -> s <> [] -> replaceAllFrom fuel r f s <> [].
Proof.
  intros Hf Hs. destruct fuel as [|fuel]; [done|]. cbn [replaceAllFrom].
  destruct (search r s) as [[[pre mt] post]|]; [|done].
  intros [_ [H _]%app_eq_nil]%app_eq_nil. by apply (Hf mt).
Qed.

Lemma trimStart_no_space (s : str) :
  Forall (fun c => isSpace c = false) s -> trimStart s = s.
Proof. destruct 1 as [|c s Hc Hs]; simpl; [done|]. by rewrite Hc. Qed.

Lemma trim_no_space (s : str) :
  Forall (fun c => isSpace c = false) s -> trim s = s.
Proof.
  intros Hs. unfold trim, trimEnd. rewrite (trimStart_no_space s Hs).
  rewrite trimStart_no_space; [apply rev_involutive|]. by apply List.Forall_rev.
Qed.

(** ** [sanitizeFileName] *)

Section Sanitize.
Import FileName.

Lemma sanitize_steps (fileName : str) :
  fileName <> [] ->
  safe (take 200
    (replaceAll underscores (fun _ => underscore)
      (replaceAll spaces (fun _ => underscore)
        (replaceAll invalidChars (fun _ => underscore) fileName)))).
Proof.
  intros Hne.
  set (s1 := replaceAll invalidChars (fun _ => underscore) fileName).
  set (s2 := replaceAll spaces (fun _ => underscore) s1).
  set (s3 := replaceAll underscores (fun _ => underscore) s2).
  assert (Hu : forall P : ascii -> Prop, P "_"%char -> forall mt : str, Forall P ((fun _ => underscore) mt)).
  { intros P HP _. by repeat constructor. }
  assert (H1 : Forall (fun c => invalidChar c = false) s1).
  { unfold s1, invalidChars. change underscore with ["_"%char]. rewrite replaceAll_Chr_map.
    apply Forall_forall. intros c [d [-> _]]%list_elem_of_fmap.
    by destruct (invalidChar d) eqn:Hd. }
  assert (H2 : Forall (fun c => invalidChar c = false) s2).
  { by apply replaceAllFrom_Forall; [apply Hu|]. }
  assert (H2' : Forall (fun c => isSpace c = false) s2).
  { apply test_Plus_false.
    apply (replaceAllFrom_eliminates spaces "_"%char []); [done|done|by vm_compute| |lia].
    intros l1 l2 Hs Hl. apply (tails_split _ l1 l2 Hs) in Hl. simpl in Hl.
    destruct Hl as [<-|[]]. by intros v. }
  assert (H3 : Forall (fun c => invalidChar c = false /\ isSpace c = false) s3).
  { apply replaceAllFrom_Forall; [by apply Hu|].
    apply Forall_forall. intros c Hc. rewrite Forall_forall in H2, H2'. auto. }
  assert (H3' : includes "__" s3 = false).
  { destruct (collapse_no_double "_"%char (S (List.length s2)) s2) as [H|H]; [exact H|lia]. }
  assert (Hn : s3 <> []).
  { do 3 (apply replaceAllFrom_nonempty; [done|]). done. }
  split; [|split; [|split]].
  - destruct s3; [done|]. done.
  - rewrite length_take. lia.
  - by apply Forall_take.
  - destruct (includes "__" (take 200 s3)) eqn:Hi; [|done].
    apply (includes_prefix _ _ (drop 200 s3)) in Hi. rewrite take_drop in Hi. congruence.
Qed.

Lemma sanitize_safe (fileName : option str) : safe (sanitizeFileName fileName).
Proof.
  unfold sanitizeFileName.
  destruct (truthy fileName) as [f|] eqn:Ht.
  - assert (Hf : f <> []) by (destruct fileName as [[|c s]|]; simpl in Ht; congruence).
    pose proof (sanitize_steps f Hf) as Hs. rewrite trim_no_space; [done|].
    destruct Hs as (_ & _ & Hs & _). eapply Forall_impl; [exact Hs|]. by intros c [_ ?].
  - split; [done|]. split; [simpl; lia|]. split; [|done].
    cbv [list_ascii_of_string].
    repeat (apply Forall_cons_2; [by vm_compute|]). apply Forall_nil_2.
Qed.

Lemma sanitize_clean (name : str) : safe name -> sanitizeFileName (Some name) = name.
Proof.
  intros (Hne & Hlen & Hc & Hd). unfold sanitizeFileName.
  destruct name as [|c name]; [done|]. cbn [truthy].
  set (w := c :: name) in *.
  assert (Hi : Forall (fun c => invalidChar c = false) w).
  { eapply Forall_impl; [exact Hc|]. by intros d [? _]. }
  assert (Hs : Forall (fun c => isSpace c = false) w).
  { eapply Forall_impl; [exact Hc|]. by intros d [_ ?]. }
  rewrite (replaceAll_no_match invalidChars) by (by apply test_Chr_false).
  rewrite (replaceAll_no_match spaces) by (by apply test_Plus_false).
  unfold replaceAll, underscores. change underscore with ["_"%char].
  rewrite (collapse_clean "_"%char _ w Hd).
  rewrite take_ge by done. by apply trim_no_space.
Qed.

End Sanitize.

(** X13: the result of [sanitizeFileName] is never empty, has at most
    200 characters, contains none of the characters that are invalid in
    file names (slash and backslash among them), no white space and no
    two underscores in a row; this holds for every argument, [null] and
    the empty string included. *)
Theorem sanitized_name_is_safe (fileName : option str) :
  let name := FileName.sanitizeFileName fileName in
  name <> [] /\ List.length name <= 200 /\
  Forall (fun c => FileName.invalidChar c = false /\ isSpace c = false) name /\
  includes "__" name = false.
Proof. apply sanitize_safe. Qed.

(** X14: [sanitizeFileName] is idempotent; it returns unchanged every
    name that is already safe, in particular a product id made of at
    most 200 digits. *)
Theorem sanitize_idempotent :
  (forall fileName,
      FileName.sanitizeFileName (Some (FileName.sanitizeFileName fileName))
      = FileName.sanitizeFileName fileName) /\
  (forall name,
      name <> [] -> List.length name <= 200 ->
      Forall (fun c => FileName.invalidChar c = false /\ isSpace c = false) name ->
      includes "__" name = false ->
      FileName.sanitizeFileName (Some name) = name) /\
  (forall productId,
      digits productId -> productId <> [] -> List.length productId <= 200 ->
      FileName.sanitizeFileName (Some productId) = productId).
Proof.
  split; [|split].
  - intros fileName. apply sanitize_clean, sanitize_safe.
  - intros name H1 H2 H3 H4. by apply sanitize_clean.
  - intros productId Hd Hne Hlen. apply sanitize_clean.
    split; [done|]. split; [done|]. split.
    + eapply Forall_impl; [exact Hd|]. intros c Hc. simpl in Hc. split.
      * apply negb_true_iff.
        by apply (classWithin_sound isDigit (fun d => negb (FileName.invalidChar d)) c).
      * apply negb_true_iff.
        by apply (classWithin_sound isDigit (fun d => negb (isSpace d)) c).
    + apply includes_double_none. eapply Forall_impl; [exact Hd|]. intros c Hc. simpl in Hc.
      apply negb_true_iff.
      by apply (classWithin_sound isDigit (fun d => negb (eqc "_"%char d)) c).
Qed.

(** X15: the [sanitizeFileName] of the earlier revision replaces, in
    place, every character that is not an ASCII letter or digit by an
    underscore and keeps the first 200 characters: the length of the
    result is the smaller of 200 and the length of the argument (an
    empty name stays empty), its characters are letters, digits and
    underscores, and a second application changes nothing. *)
Theorem earlier_sanitize_in_place (fileName : str) :
  let name := EarlierFileName.sanitizeFileName fileName in
  name = take 200 (map (fun c => if EarlierFileName.notAlnum c then "_"%char else c) fileName) /\
  List.length name = Nat.min 200 (List.length fileName) /\
  Forall (fun c => EarlierFileName.notAlnum c = false \/ c = "_"%char) name /\
  EarlierFileName.sanitizeFileName name = name.
Proof.
  cbv zeta. unfold EarlierFileName.sanitizeFileName.
  change FileName.underscore with ["_"%char]. rewrite !replaceAll_Chr_map.
  set (f := fun c => if EarlierFileName.notAlnum c then "_"%char else c).
  assert (Hf : forall c, f (f c) = f c).
  { intros c. unfold f. destruct (EarlierFileName.notAlnum c) eqn:Hc; [done|]. by rewrite Hc. }
  split; [done|]. split; [by rewrite length_take, length_map|]. split.
  - apply Forall_take. apply Forall_forall. intros c [d [-> _]]%list_elem_of_fmap.
    unfold f. destruct (EarlierFileName.notAlnum d) eqn:Hd; auto.
  - rewrite !firstn_map, map_map, firstn_firstn, Nat.min_id.
    apply map_ext. intros c. apply Hf.
Qed.

(** ** The derived extension and the file name *)

Lemma takeWhile_Forall (f : ascii -> bool) (s : str) :
  Forall (fun c => f c = true) (takeWhile f s).
Proof.
  induction s as [|c s IH]; simpl; [constructor|].
  destruct (f c) eqn:Hc; [by constructor|constructor].
Qed.

Lemma takeWhile_keeps (P : ascii -> Prop) (f : ascii -> bool) (s : str) :
  Forall P s -> Forall P (takeWhile f s).
Proof.
  induction 1 as [|c s Hc Hs IH]; simpl; [constructor|].
  destruct (f c); [by constructor|constructor].
Qed.

Lemma afterLast_Forall (c : ascii) (s : str) :
  Forall (fun d => eqc d c = false) (ImageDownloader.afterLast c s).
Proof.
  unfold ImageDownloader.afterLast. apply List.Forall_rev.
  eapply Forall_impl; [apply takeWhile_Forall|]. intros d Hd. simpl in Hd.
  by apply negb_true_iff.
Qed.

Lemma afterLast_keeps (P : ascii -> Prop) (c : ascii) (s : str) :
  Forall P s -> Forall P (ImageDownloader.afterLast c s).
Proof.
  intros Hs. unfold ImageDownloader.afterLast.
  by apply List.Forall_rev, takeWhile_keeps, List.Forall_rev.
Qed.

(** The extension of a path is empty or a dot followed by characters
    that are neither dots nor slashes. *)
Lemma extname_shape (path : str) :
  ImageDownloader.extname path = [] \/
  exists e, ImageDownloader.extname path = "."%char :: e /\
            Forall (fun d => eqc d "/"%char = false /\ eqc d "."%char = false) e.
Proof.
  unfold ImageDownloader.extname.
  set (base := ImageDownloader.afterLast "/"%char _).
  assert (He : Forall (fun d => eqc d "/"%char = false /\ eqc d "."%char = false)
                 (ImageDownloader.afterLast "."%char base)).
  { apply Forall_forall. intros d Hd. split.
    - pose proof (afterLast_keeps (fun d => eqc d "/"%char = false) "."%char base
                    (afterLast_Forall _ _)) as H.
      rewrite Forall_forall in H. by apply H.
    - pose proof (afterLast_Forall "."%char base) as H.
      rewrite Forall_forall in H. by apply H. }
  destruct (negb (includes "." base)); [by left|].
  destruct (ImageDownloader.beforeLast "."%char base) as [|d [|d' stem]]; [by left| |].
  - destruct (ImageDownloader.afterLast "."%char base) as [|x ext] eqn:Ex.
    + destruct (eqc d "."%char); [by left|]. right. by exists [].
    + right. by exists (x :: ext).
  - right. by eexists.
Qed.

Lemma deriveExtension_shape (pathname : str) :
  exists e, ImageDownloader.deriveExtension pathname = "."%char :: e /\
            Forall (fun d => eqc d "/"%char = false /\ eqc d "."%char = false) e.
Proof.
  unfold ImageDownloader.deriveExtension.
  destruct (extname_shape
              (replaceFirst Pat.sizeSuffix (fun mt => "." ++ ImageDownloader.extGroup mt) pathname))
    as [->|(e & -> & He)].
  - exists ("jpg" : str). split; [done|]. by repeat constructor.
  - by exists e.
Qed.

Lemma decimal_digits (n : nat) : digits (FileName.decimal n).
Proof.
  unfold FileName.decimal. generalize (Nat.to_uint n). intros d.
  induction d; simpl; try (apply Forall_cons_2; [done|]); try done. constructor.
Qed.

Lemma decimal_inj (i j : nat) : FileName.decimal i = FileName.decimal j -> i = j.
Proof.
  unfold FileName.decimal. intros H.
  apply (f_equal string_of_list_ascii) in H. rewrite !string_of_list_ascii_of_string in H.
  apply (f_equal DecimalString.NilEmpty.uint_of_string) in H.
  rewrite !DecimalString.NilEmpty.usu in H. injection H as H.
  by apply DecimalNat.Unsigned.to_uint_inj.
Qed.

(** Two texts that agree after a run of a class that ends at the same
    delimiter have the same run. *)
Lemma run_delimited (p : ascii -> bool) (x : ascii) : forall (a a' b b' : str),
  p x = false ->
  Forall (fun c => p c = true) a -> Forall (fun c => p c = true) a' ->
  a ++ x :: b = a' ++ x :: b' -> a = a'.
Proof.
  intros a a' b b' Hx Ha. revert a'. induction Ha as [|c a Hc Ha IH]; intros a' Ha' H.
  - destruct Ha' as [|c' a' Hc' _]; [done|]. simpl in H. injection H as <- _. congruence.
  - destruct Ha' as [|c' a' Hc' Ha']; simpl in H.
    + injection H as -> _. congruence.
    + injection H as <- H. f_equal. by apply IH.
Qed.

Lemma decimal_extension_inj (i j : nat) (pi pj : str) :
  FileName.decimal i ++ ImageDownloader.deriveExtension pi
  = FileName.decimal j ++ ImageDownloader.deriveExtension pj -> i = j.
Proof.
  destruct (deriveExtension_shape pi) as (ei & -> & _).
  destruct (deriveExtension_shape pj) as (ej & -> & _).
  intros H. apply decimal_inj.
  apply (run_delimited isDigit "."%char _ _ ei ej); [done| | |done]; apply decimal_digits.
Qed.

Lemma fileNameFor_inj productName (i j : nat) (pi pj : str) :
  FileName.fileNameFor productName i pi = FileName.fileNameFor productName j pj -> i = j.
Proof.
  unfold FileName.fileNameFor, FileName.fileName.
  destruct (truthy productName) as [name|].
  - intros H. apply app_inv_head in H. apply app_inv_head in H.
    by apply decimal_extension_inj in H.
  - intros H. apply app_inv_head in H. by apply decimal_extension_inj in H.
Qed.

Lemma fileNameFor_no_slash productName (i : nat) (p : str) :
  Forall (fun c => eqc c "/"%char = false) (FileName.fileNameFor productName i p).
Proof.
  assert (Hd : Forall (fun c => eqc c "/"%char = false) (FileName.decimal i)).
  { eapply Forall_impl; [apply decimal_digits|]. intros c Hc. simpl in Hc.
    apply negb_true_iff.
    by apply (classWithin_sound isDigit (fun d => negb (eqc d "/"%char)) c). }
  assert (He : Forall (fun c => eqc c "/"%char = false) (ImageDownloader.deriveExtension p)).
  { destruct (deriveExtension_shape p) as (e & -> & He). apply Forall_cons_2; [done|].
    eapply Forall_impl; [exact He|]. by intros c [? _]. }
  unfold FileName.fileNameFor, FileName.fileName.
  destruct (truthy productName) as [name|].
  - destruct (sanitize_safe (Some name)) as (_ & _ & Hs & _).
    apply Forall_app. split.
    + eapply Forall_impl; [exact Hs|]. intros c [Hc _]. simpl in Hc.
      unfold FileName.invalidChar in Hc.
      destruct (eqc c "/"%char); [|done]. by rewrite !orb_true_r in Hc.
    + apply Forall_app. split; [by repeat constructor|]. by apply Forall_app.
  - apply Forall_app. split; [by repeat constructor|]. by apply Forall_app.
Qed.

(** ** The product id *)

Lemma lang_Lit_eqc (s w rest : str) : lang (Lit eqc s) w rest -> w = s.
Proof.
  revert w. induction s as [|c s IH]; intros w; simpl; [done|].
  intros (w1 & w2 & -> & (d & -> & Hd) & H2). apply Ascii.eqb_eq in Hd as <-.
  simpl. f_equal. by apply IH.
Qed.

Lemma lang_Plus_inv p (w rest : str) :
  lang (Plus p) w rest -> w <> [] /\ Forall (fun c => p c = true) w.
Proof.
  intros (w1 & w2 & -> & (c & -> & Hc) & H2). split; [done|]. by constructor.
Qed.

Lemma takeWhile_stop f (a b : str) :
  Forall (fun d => f d = true) a ->
  match b with [] => True | d :: _ => f d = false end ->
  takeWhile f (a ++ b) = a.
Proof.
  intros Ha Hb. rewrite takeWhile_all by done.
  destruct b as [|d b]; simpl; [by rewrite app_nil_r|]. by rewrite Hb, app_nil_r.
Qed.

Section ProductIdProps.
Import ProductId.

(** A word of one of the two path patterns: the separator, the digits of
    the id and [.html]. *)
Lemma pathId_word (sep : ascii) (mt rest : str) :
  lang (Seqs [Chr (eqc sep); Plus isDigit; Lit eqc ".html"]) mt rest ->
  exists id, mt = sep :: id ++ ".html" /\ id <> [] /\ digits id /\ leadingGroup mt = id.
Proof.
  cbn [Seqs]. intros (w1 & w' & -> & (c & -> & Hc) & w2 & w3 & -> & H2 & H3).
  apply Ascii.eqb_eq in Hc as <-. apply lang_Plus_inv in H2 as [Hne Hd].
  apply lang_Lit_eqc in H3 as ->. exists w2. repeat split; try done.
  unfold leadingGroup. simpl tail. by apply takeWhile_stop.
Qed.

Lemma group1_pathId (sep : ascii) (url id : str) :
  group1 (Seqs [Chr (eqc sep); Plus isDigit; Lit eqc ".html"], leadingGroup) url = Some id ->
  id <> [] /\ digits id /\ exists pre post, url = pre ++ sep :: id ++ ".html" ++ post.
Proof.
  unfold group1. cbn [fst snd].
  destruct (search _ url) as [[[pre mt] post]|] eqn:E; [|done].
  apply search_sound in E as (-> & Hl & _). intros [= <-].
  apply pathId_word in Hl as (id & -> & Hne & Hd & ->).
  repeat split; try done. exists pre, post. cbn [app]. by rewrite <- app_assoc.
Qed.

Lemma group1_pathId_found (sep : ascii) (pre id post : str) :
  id <> [] -> digits id ->
  is_Some (group1 (Seqs [Chr (eqc sep); Plus isDigit; Lit eqc ".html"], leadingGroup)
             (pre ++ sep :: id ++ ".html" ++ post)).
Proof.
  intros Hne Hd. unfold group1. cbn [fst snd].
  destruct (search _ _) as [[[pre' mt] post']|] eqn:E; [done|].
  exfalso. apply search_None in E. apply E.
  exists pre, (sep :: id ++ ".html"), post. split; [cbn [app]; by rewrite <- app_assoc|].
  cbn [Seqs]. apply (lang_Seq _ _ [sep]); [apply lang_Chr, eqc_refl|].
  apply lang_Seq; [by apply lang_Plus|]. apply lang_Lit, eqc_refl.
Qed.

(** The leftmost match of a path pattern is at the first separator when
    that one is followed by digits and [.html]. *)
Lemma group1_pathId_first (sep : ascii) (pre id post : str) :
  Forall (fun c => eqc c sep = false) pre ->
  id <> [] -> digits id ->
  group1 (Seqs [Chr (eqc sep); Plus isDigit; Lit eqc ".html"], leadingGroup)
    (pre ++ sep :: id ++ ".html" ++ post) = Some id.
Proof.
  intros Hpre Hne Hd. unfold group1. cbn [fst snd].
  destruct (search _ _) as [[[pre' mt] post']|] eqn:E.
  - apply search_sound in E as (Hs & Hl & Hmin). f_equal.
    assert (Hw : lang (Seqs [Chr (eqc sep); Plus isDigit; Lit eqc ".html"])
                   (sep :: id ++ ".html") post).
    { cbn [Seqs]. apply (lang_Seq _ _ [sep]); [apply lang_Chr, eqc_refl|].
      apply lang_Seq; [by apply lang_Plus|]. apply lang_Lit, eqc_refl. }
    specialize (Hmin pre (sep :: id ++ ".html") post
                  ltac:(cbn [app]; by rewrite <- app_assoc) Hw).
    apply pathId_word in Hl as (id' & -> & Hne' & Hd' & ->).
    apply app_eq_app in Hs as [l [[-> Hs]|[-> Hs]]].
    + destruct l as [|c l].
      * simpl in Hs. injection Hs as Hs. rewrite <- app_assoc in Hs.
        first [ eapply (run_delimited isDigit "."%char); [| | |exact Hs]; done
              | symmetry; eapply (run_delimited isDigit "."%char); [| | |exact Hs]; done ].
      * exfalso. simpl in Hs. injection Hs as <- _.
        apply Forall_app in Hpre as [_ Hpre]. apply Forall_cons in Hpre as [Hc _].
        by rewrite eqc_refl in Hc.
    + rewrite length_app in Hmin. destruct l as [|c l]; [|simpl in Hmin; lia].
      simpl in Hs. injection Hs as Hs. rewrite <- app_assoc in Hs.
      first [ eapply (run_delimited isDigit "."%char); [| | |exact Hs]; done
            | symmetry; eapply (run_delimited isDigit "."%char); [| | |exact Hs]; done ].
  - exfalso. apply search_None in E. apply E.
    exists pre, (sep :: id ++ ".html"), post. split; [cbn [app]; by rewrite <- app_assoc|].
    cbn [Seqs]. apply (lang_Seq _ _ [sep]); [apply lang_Chr, eqc_refl|].
    apply lang_Seq; [by apply lang_Plus|]. apply lang_Lit, eqc_refl.
Qed.

Lemma lang_Lit_inv eq (s w rest : str) :
  lang (Lit eq s) w rest -> Forall2 (fun x c => eq x c = true) s w.
Proof.
  revert w. induction s as [|x s IH]; intros w; simpl.
  - intros ->. constructor.
  - intros (w1 & w2 & -> & (c & -> & Hc) & H2). constructor; [done|by apply IH].
Qed.

Lemma lang_Lit_intro eq (s w rest : str) :
  Forall2 (fun x c => eq x c = true) s w -> lang (Lit eq s) w rest.
Proof.
  induction 1 as [|x c s w Hc Hs IH]; simpl; [done|].
  exists [c], w. split; [done|]. split; [by exists c|done].
Qed.

Lemma trailingGroup_app (w : str) (c : ascii) (id : str) :
  isDigit c = false -> digits id -> trailingGroup (w ++ c :: id) = id.
Proof.
  intros Hc Hd. unfold trailingGroup.
  rewrite rev_app_distr. simpl rev. rewrite <- app_assoc.
  rewrite takeWhile_stop; [apply rev_involutive|by apply List.Forall_rev|done].
Qed.

(** A word of a parameter pattern ends with its group, a run of
    digits after a character that is no digit. *)
Lemma param_word (name : str) (last : ascii) (mt rest : str) :
  classWithin (eqci last) (fun c => negb (isDigit c)) = true ->
  lang (Seqs [Lit eqci (name ++ [last]); Plus isDigit]) mt rest ->
  trailingGroup mt <> [] /\ digits (trailingGroup mt).
Proof.
  intros Hlast. cbn [Seqs]. intros (w1 & w2 & -> & H1 & H2).
  apply lang_Plus_inv in H2 as [Hne Hd].
  apply lang_Lit_inv in H1. apply Forall2_app_inv_l in H1 as (k1 & k2 & _ & Hk & ->).
  apply Forall2_cons_inv_l in Hk as (c & kt & Hc & Hkt & ->).
  apply Forall2_nil_inv_l in Hkt as ->.
  rewrite <- app_assoc. simpl. rewrite trailingGroup_app; [done| |done].
  apply negb_true_iff. by apply (classWithin_sound _ _ c Hlast).
Qed.

Lemma productIdParam_word (mt rest : str) :
  lang productIdParam mt rest -> trailingGroup mt <> [] /\ digits (trailingGroup mt).
Proof.
  unfold productIdParam. cbn [Seqs].
  intros (w1 & wa & -> & _ & w2 & wb & -> & _ & w3 & wc & -> & _
          & w4 & w5 & -> & (c & -> & Hc) & H5).
  apply lang_Plus_inv in H5 as [Hne Hd].
  rewrite !app_assoc. rewrite <- (app_assoc _ [c] w5). simpl.
  rewrite trailingGroup_app; [done| |done].
  apply negb_true_iff.
  by apply (classWithin_sound (fun c => eqc c "="%char || eqc c ":"%char)
              (fun c => negb (isDigit c)) c).
Qed.

(** Whatever [productId=] followed by digits matches is matched by the
    first pattern of the handler as well. *)
Lemma productIdEq_subsumed (w rest : str) :
  lang productIdEq w rest -> lang productIdParam w rest.
Proof.
  unfold productIdEq, productIdParam. cbn [Seqs].
  intros (w1 & w2 & -> & H1 & H2). apply lang_Lit_inv in H1.
  change (list_ascii_of_string "productId=")
    with (list_ascii_of_string "product" ++ list_ascii_of_string "Id" ++ ["="%char]) in H1.
  apply Forall2_app_inv_l in H1 as (k1 & kr & Hk1 & H1 & ->).
  apply Forall2_app_inv_l in H1 as (k2 & k3 & Hk2 & Hk3 & ->).
  apply Forall2_cons_inv_l in Hk3 as (c & kt & Hc & Hkt & ->).
  apply Forall2_nil_inv_l in Hkt as ->.
  assert (Hid : Forall2 (fun x c => eqci x c = true) (list_ascii_of_string "id") k2).
  { apply Forall2_cons_inv_l in Hk2 as (c1 & kt & Hc1 & Hkt & ->).
    apply Forall2_cons_inv_l in Hkt as (c2 & kt' & Hc2 & Hkt' & ->).
    apply Forall2_nil_inv_l in Hkt' as ->. by repeat constructor. }
  rewrite <- !app_assoc.
  apply lang_Seq; [by apply lang_Lit_intro|].
  apply (lang_Seq _ _ []); [by right|].
  apply lang_Seq; [by apply lang_Lit_intro|].
  apply (lang_Seq _ _ [c]); [|done].
  apply lang_Chr.
  by apply (classWithin_sound (eqci "="%char) (fun c => eqc c "="%char || eqc c ":"%char) c).
Qed.

Lemma group1_None (pattern : re * (str -> str)) (url : str) :
  group1 pattern url = None <-> test pattern.1 url = false.
Proof.
  unfold group1, test. by destruct (search pattern.1 url) as [[[pre mt] post]|].
Qed.

Lemma group1_word (pattern : re * (str -> str)) (url id : str) :
  group1 pattern url = Some id ->
  exists pre mt post, url = pre ++ mt ++ post /\ lang pattern.1 mt post /\ id = pattern.2 mt.
Proof.
  unfold group1. destruct (search pattern.1 url) as [[[pre mt] post]|] eqn:E; [|done].
  intros [= <-]. apply search_sound in E as (-> & Hl & _). by exists pre, mt, post.
Qed.

End ProductIdProps.

(** X19: the product id that [scrapeProductPage] reads from the address
    of the page is a non-empty run of digits that stands in the address
    between an underscore or a slash and [.html]; an address that holds
    such a run yields an id; when the first underscore of the address is
    followed by digits and [.html], these digits are the id; and the id
    falls back to ['unknown'] exactly when none was found. *)
Theorem page_product_id (url : str) :
  (forall id, ProductId.fromPage url = Some id ->
     id <> [] /\ digits id /\
     exists pre sep post,
       (sep = "_" \/ sep = "/")%char /\ url = pre ++ sep :: id ++ ".html" ++ post) /\
  (forall pre sep id post,
     (sep = "_" \/ sep = "/")%char -> id <> [] -> digits id ->
     url = pre ++ sep :: id ++ ".html" ++ post -> is_Some (ProductId.fromPage url)) /\
  (forall pre id post,
     Forall (fun c => eqc c "_"%char = false) pre -> id <> [] -> digits id ->
     url = pre ++ "_" ++ id ++ ".html" ++ post -> ProductId.fromPage url = Some id) /\
  (ProductId.orUnknown (ProductId.fromPage url) = "unknown" <-> ProductId.fromPage url = None).
Proof.
  assert (Hsound : forall id, ProductId.fromPage url = Some id ->
     id <> [] /\ digits id /\
     exists pre sep post,
       (sep = "_" \/ sep = "/")%char /\ url = pre ++ sep :: id ++ ".html" ++ post).
  { intros id. unfold ProductId.fromPage. cbn [ProductId.firstMatch].
    destruct (ProductId.group1 (ProductId.underscoreId, _) url) as [id1|] eqn:E1.
    - intros [= <-]. apply group1_pathId in E1 as (Hne & Hd & pre & post & ->).
      repeat split; try done. exists pre, "_"%char, post. auto.
    - destruct (ProductId.group1 (ProductId.slashId, _) url) as [id2|] eqn:E2; [|done].
      intros [= <-]. apply group1_pathId in E2 as (Hne & Hd & pre & post & ->).
      repeat split; try done. exists pre, "/"%char, post. auto. }
  split; [done|]. split; [|split].
  - intros pre sep id post Hsep Hne Hd ->. unfold ProductId.fromPage.
    cbn [ProductId.firstMatch].
    destruct (ProductId.group1 (ProductId.underscoreId, _) _) as [id1|] eqn:E1; [done|].
    destruct Hsep as [->| ->].
    + destruct (group1_pathId_found "_"%char pre id post Hne Hd) as [x Hx].
      unfold ProductId.underscoreId in E1. congruence.
    + destruct (group1_pathId_found "/"%char pre id post Hne Hd) as [x Hx].
      unfold ProductId.slashId. by rewrite Hx.
  - intros pre id post Hpre Hne Hd ->. unfold ProductId.fromPage.
    cbn [ProductId.firstMatch]. unfold ProductId.underscoreId.
    change (pre ++ "_" ++ id ++ ".html" ++ post)
      with (pre ++ "_"%char :: id ++ ".html" ++ post).
    by rewrite (group1_pathId_first "_"%char pre id post Hpre Hne Hd).
  - split; [|by intros ->].
    destruct (ProductId.fromPage url) as [id|] eqn:E; [|done].
    destruct (Hsound id eq_refl) as (Hne & Hd & _).
    destruct id as [|c id]; [done|]. simpl. intros [= -> _].
    apply Forall_cons in Hd as [Hd _]. done.
Qed.

(** X20: the product id that the response handler reads from the URL of
    a response is a non-empty run of digits, and the last of its five
    patterns never decides: whatever it matches the first pattern
    matches too, so the id is the one given by the first four. *)
Theorem response_product_id (url : str) :
  (forall id, ProductId.fromResponseUrl url = Some id -> id <> [] /\ digits id) /\
  ProductId.fromResponseUrl url
  = ProductId.firstMatch
      [(ProductId.productIdParam, ProductId.trailingGroup);
       (ProductId.underscoreId, ProductId.leadingGroup);
       (ProductId.slashId, ProductId.leadingGroup);
       (ProductId.detailIdParam, ProductId.trailingGroup)] url.
Proof.
  unfold ProductId.fromResponseUrl. cbn [ProductId.firstMatch]. split.
  - intros id.
    destruct (ProductId.group1 (ProductId.productIdParam, _) url) as [x|] eqn:E1.
    { intros [= <-]. apply group1_word in E1 as (pre & mt & post & _ & Hl & ->).
      by apply productIdParam_word in Hl. }
    destruct (ProductId.group1 (ProductId.underscoreId, _) url) as [x|] eqn:E2.
    { intros [= <-]. by apply group1_pathId in E2 as (Hne & Hd & _). }
    destruct (ProductId.group1 (ProductId.slashId, _) url) as [x|] eqn:E3.
    { intros [= <-]. by apply group1_pathId in E3 as (Hne & Hd & _). }
    destruct (ProductId.group1 (ProductId.detailIdParam, _) url) as [x|] eqn:E4.
    { intros [= <-]. apply group1_word in E4 as (pre & mt & post & _ & Hl & ->).
      by apply (param_word "detailId" "="%char mt post). }
    destruct (ProductId.group1 (ProductId.productIdEq, _) url) as [x|] eqn:E5; [|done].
    intros [= <-]. apply group1_word in E5 as (pre & mt & post & _ & Hl & ->).
    by apply (param_word "productId" "="%char mt post).
  - destruct (ProductId.group1 (ProductId.productIdParam, _) url) as [x|] eqn:E1; [done|].
    destruct (ProductId.group1 (ProductId.underscoreId, _) url) as [x|]; [done|].
    destruct (ProductId.group1 (ProductId.slashId, _) url) as [x|]; [done|].
    destruct (ProductId.group1 (ProductId.detailIdParam, _) url) as [x|]; [done|].
    destruct (ProductId.group1 (ProductId.productIdEq, _) url) as [x|] eqn:E5; [|done].
    exfalso. apply group1_None in E1. apply test_false in E1. apply E1.
    apply group1_word in E5 as (pre & mt & post & -> & Hl & _).
    exists pre, mt, post. split; [done|]. by apply productIdEq_subsumed.
Qed.

(** ** File names in a batch *)

(** X16: for every pathname the extension that [downloadImage] derives
    is a dot followed by characters that are neither dots nor slashes;
    it is [.jpg] when the path has no extension. *)
Theorem derived_extension_is_plain (pathname : str) :
  exists e,
    ImageDownloader.deriveExtension pathname = "." ++ e /\
    Forall (fun d => eqc d "/"%char = false /\ eqc d "."%char = false) e /\
    (ImageDownloader.extname
       (replaceFirst Pat.sizeSuffix (fun mt => "." ++ ImageDownloader.extGroup mt) pathname) = [] ->
     e = "jpg").
Proof.
  unfold ImageDownloader.deriveExtension.
  destruct (extname_shape
              (replaceFirst Pat.sizeSuffix (fun mt => "." ++ ImageDownloader.extGroup mt) pathname))
    as [->|(e & -> & He)].
  - exists ("jpg" : str). split; [done|]. split; [by repeat constructor|done].
  - exists e. split; [done|]. split; [done|]. done.
Qed.

(** X17: the file name that [downloadImage] builds from the product
    name, the index and the derived extension contains no slash and is
    neither [.] nor [..]: joined to the product directory it names a
    file of that directory. *)
Theorem file_name_is_one_segment (productName : option str) (index : nat) (pathname : str) :
  let name := FileName.fileNameFor productName index pathname in
  Forall (fun c => eqc c "/"%char = false) name /\
  name <> "." /\ name <> "..".
Proof.
  cbv zeta. split; [apply fileNameFor_no_slash|].
  assert (Hlen : 2 < List.length (FileName.fileNameFor productName index pathname)).
  { unfold FileName.fileNameFor, FileName.fileName.
    destruct (deriveExtension_shape pathname) as (e & -> & _).
    destruct (truthy productName) as [name|].
    - destruct (sanitize_safe (Some name)) as (Hne & _).
      destruct (FileName.sanitizeFileName (Some name)); [done|].
      rewrite !length_app. simpl. lia.
    - rewrite !length_app. simpl. lia. }
  split; intros H; rewrite H in Hlen; simpl in Hlen; lia.
Qed.

(** X18: two different calls that [downloadAll] makes in one batch
    have different URLs and different indices, and the file names built
    for them differ whatever the pathnames of the two URLs are: no
    download of a batch writes to the file of another. *)
Theorem batch_file_names_distinct {W : Type}
    (downloadImage : str -> nat -> W -> (str + str) * W)
    (productName : option str) (images : list str) (w : W)
    (a b : nat) (urlA urlB : str) (indexA indexB : nat) (pathA pathB : str) :
  ImageDownloader.calls (ImageDownloader.downloadAll downloadImage images w).1 !! a
    = Some (urlA, indexA) ->
  ImageDownloader.calls (ImageDownloader.downloadAll downloadImage images w).1 !! b
    = Some (urlB, indexB) ->
  a <> b ->
  urlA <> urlB /\ indexA <> indexB /\
  FileName.fileNameFor productName indexA pathA <> FileName.fileNameFor productName indexB pathB.
Proof.
  rewrite downloadAll_calls. intros Ha Hb Hab.
  apply list_lookup_imap_Some in Ha as (ua & Ha & [= -> ->]).
  apply list_lookup_imap_Some in Hb as (ub & Hb & [= -> ->]).
  split; [|split; [done|]].
  - intros ->. apply Hab. by apply (NoDup_lookup _ _ _ _ (NoDup_setFrom images) Ha Hb).
  - by intros ?%fileNameFor_inj.
Qed.

Lemma batch_file_names_distinct_witness :
  ("https://sc04.alicdn.com/kf/a_960x960q80.jpg" : str) <> "https://sc04.alicdn.com/kf/b.png" /\
  0 <> 1 /\
  FileName.fileNameFor (Some ("Desk Lamp" : str)) 0 "/kf/a_960x960q80.jpg"
  <> FileName.fileNameFor (Some ("Desk Lamp" : str)) 1 "/kf/b.png".
Proof.
  apply (batch_file_names_distinct (fun (_ : str) (_ : nat) (w : unit) => (inl [], w))
           (Some ("Desk Lamp" : str))
           [ "https://sc04.alicdn.com/kf/a_960x960q80.jpg" : str;
             "https://sc04.alicdn.com/kf/b.png" : str ] tt 0 1
           "https://sc04.alicdn.com/kf/a_960x960q80.jpg" "https://sc04.alicdn.com/kf/b.png"
           0 1 "/kf/a_960x960q80.jpg" "/kf/b.png").
  - reflexivity.
  - reflexivity.
  - lia.
Defined.

(** ** Direct image responses: the thumbnail branch *)

(** X6: a direct image response whose URL carries a thumbnail marker
    ([_50x50], [_80x80] or [_100x100], in any letter case) leaves the
    store unchanged; the branch of the handler that upgrades such a
    marker is therefore never taken for a URL that passes the skip
    list, whose recorded form is the URL itself or the URL with the
    high-resolution suffix inserted before the extension. *)
Theorem direct_thumbnails_are_dropped (url : str) :
  (test (Pat.lowRes' eqci) url = true ->
   forall st, Interception.interceptImage url st = st) /\
  (Interception.shouldSkip url = false ->
   Interception.upgradeDirect url = url \/
   Interception.upgradeDirect url
   = replaceFirst Pat.extAtEnd insertSuffix (baseOf (split "?"%char url))
     ++ queryOf (split "?"%char url)).
Proof.
  split.
  - intros Hl st. unfold Interception.interceptImage, Interception.shouldSkip,
      Interception.skipPatterns. cbn [existsb]. rewrite Hl. cbn [orb negb andb].
    by destruct (test Interception.imageUrl url).
  - unfold Interception.shouldSkip, Interception.skipPatterns. cbn [existsb].
    intros [Hl _]%orb_false_iff. unfold Interception.upgradeDirect. rewrite Hl.
    destruct (negb (test (Pat.highRes eqci) url)); [|by left].
    destruct (negb (test Pat.anySize url)); [|by left].
    destruct (test Pat.extAtEnd _ && _); [by right|by left].
Qed.

(** ** Ranking a ranked list *)

Lemma sortBy_sorted_id cmp (l : list str) :
  StronglySorted (fun a b => (cmp a b <= 0)%Z) l -> sortBy cmp l = l.
Proof.
  induction 1 as [|x l Hs IH Hx]; simpl; [done|]. rewrite IH.
  destruct l as [|y l]; simpl; [done|].
  apply Forall_cons in Hx as [Hy _]. apply Z.leb_le in Hy. by rewrite Hy.
Qed.

Lemma List_filter_id (f : str -> bool) (l : list str) :
  Forall (fun x => f x = true) l -> List.filter f l = l.
Proof. induction 1 as [|x l Hx Hl IH]; simpl; [done|]. by rewrite Hx, IH. Qed.

(** X10: ranking is idempotent: the ranking step applied to a ranked
    list returns it unchanged. *)
Theorem rank_is_idempotent (allUrls : list str) : rank (rank allUrls) = rank allUrls.
Proof.
  assert (Hq : Forall (fun u => qualifies u = true) (rank allUrls)).
  { apply Forall_forall. intros u Hu. by apply elem_of_rank in Hu as [_ Hq]. }
  assert (Hn : NoDup (rank allUrls)).
  { unfold rank. rewrite (sortBy_Permutation comparison). apply NoDup_setFrom. }
  unfold rank at 1. rewrite (List_filter_id _ _ Hq), (setFrom_NoDup_id _ Hn).
  apply sortBy_sorted_id. unfold rank.
  apply (sortBy_sorted comparison comparison_anti comparison_trans).
Qed.

(** ** Mouse movement *)

(** X25: the target of [randomMouseMove] lies between 300 and 499
    horizontally and between 200 and 399 vertically; the clamping to
    100..800 and 100..600 never changes the value. *)
Theorem mouse_stays_in_window (kx ky : Z) :
  (0 <= kx <= 199)%Z -> (0 <= ky <= 199)%Z ->
  Human.randomMouseMove kx ky = (300 + kx, 200 + ky)%Z /\
  (300 <= (Human.randomMouseMove kx ky).1 <= 499)%Z /\
  (200 <= (Human.randomMouseMove kx ky).2 <= 399)%Z.
Proof.
  intros Hx Hy. unfold Human.randomMouseMove, Human.randomMouseMovement. cbn [fst snd].
  replace (Z.max 100 (Z.min 800 (400 + (kx - 100))))%Z with (300 + kx)%Z by lia.
  replace (Z.max 100 (Z.min 600 (300 + (ky - 100))))%Z with (200 + ky)%Z by lia.
  cbn [fst snd]. repeat split; lia.
Qed.

Lemma mouse_stays_in_window_witness :
  Human.randomMouseMove 0 199 = (300, 399)%Z.
Proof. apply (mouse_stays_in_window 0 199); lia. Defined.

(** ** Processing a payload twice *)

Lemma addUrl_present productId x st :
  x ∈ imageUrls st ->
  (forall pid, truthy productId = Some pid -> x ∈ getProductUrls pid st) ->
  addUrl productId x st = st.
Proof.
  intros Hg Hp. unfold addUrl. rewrite (setAdd_elem _ _ Hg).
  destruct (truthy productId) as [pid|] eqn:Ht; [|by destruct st].
  specialize (Hp pid eq_refl). rewrite (setAdd_elem _ _ Hp).
  unfold getProductUrls in *. destruct (productImages st !! pid) as [s|] eqn:E.
  - rewrite insert_id by done. by destruct st.
  - by apply elem_of_nil in Hp.
Qed.

Lemma fold_filed productId (ms : list str) : forall acc,
  filed productId ms acc.1 ->
  (fold_left (processMatch productId) ms acc).1 = acc.1.
Proof.
  induction ms as [|mt ms IH]; intros acc Hf; simpl; [done|].
  assert (Hstep : (processMatch productId acc mt).1 = acc.1).
  { unfold processMatch.
    destruct (isDataUri (cleanUp mt)) eqn:Hd; [done|].
    destruct (isExcluded (cleanUp mt)) eqn:Hx; [done|]. cbn [fst].
    destruct (Hf mt) as [H1 H2]; [by left|by unfold survives; rewrite Hd, Hx|].
    by apply addUrl_present. }
  rewrite IH; [done|]. rewrite Hstep. intros m Hm. apply Hf. by right.
Qed.

(** X4: processing the same payload a second time, with the same
    product id, leaves the store exactly as the first call left it and
    returns the same [found]; the same holds for a direct image
    response delivered twice. *)
Theorem extraction_is_idempotent (bodyString : str) (productId : option str) (st : store) :
  let st' := (extractFromResponse bodyString productId st).1 in
  extractFromResponse bodyString productId st'
  = (st', (extractFromResponse bodyString productId st).2) /\
  (forall url, Interception.interceptImage url (Interception.interceptImage url st)
               = Interception.interceptImage url st).
Proof.
  cbv zeta. split.
  - rewrite !extractFromResponse_candidates.
    set (ms := candidates bodyString).
    set (st' := (fold_left (processMatch productId) ms (st, false)).1).
    apply injective_projections; cbn [fst snd].
    + apply (fold_filed productId ms (st', false)). apply fold_files.
    + by rewrite !fold_found.
  - intros url. unfold Interception.interceptImage.
    destruct (test Interception.imageUrl url); [|done].
    destruct (negb (Interception.shouldSkip url) && includes "alicdn.com" url); [|done].
    cbn [imageUrls productImages]. f_equal. apply setAdd_elem, elem_of_setAdd. by left.
Qed.

(** ** Data URIs *)

Lemma startsWith_prefix (p a b : str) :
  startsWith p a = true -> startsWith p (a ++ b) = true.
Proof.
  revert a. induction p as [|x p IH]; intros a; [done|].
  destruct a as [|y a]; simpl; [done|]. intros [-> H]%andb_prop. by rewrite (IH a H).
Qed.

(** The upgrade step never makes a data URI: what it returns starts with
    [data:] only if its argument does. *)
Lemma isDataUri_upgradeUrl (x : str) :
  isDataUri x = false -> isDataUri (upgradeUrl x) = false.
Proof.
  intros Hd. destruct (isDataUri (upgradeUrl x)) eqn:Hu; [|done]. exfalso.
  assert (Hins : forall pre rest X : str,
            x = pre ++ rest -> isDataUri (pre ++ hiResSuffix ++ X) = true -> False).
  { intros pre rest X Hx H. unfold isDataUri, hiResSuffix in *.
    change (list_ascii_of_string "_960x960q80" ++ X)
      with ("_"%char :: list_ascii_of_string "960x960q80" ++ X) in H.
    apply (startsWith_cut _ _ _ rest) in H; [|by repeat constructor].
    rewrite <- Hx in H. congruence. }
  revert Hu. unfold upgradeUrl.
  destruct (split_base_query x) as [tl Hx].
  destruct (test (Pat.highRes eqc) x); [congruence|].
  destruct (test (Pat.lowRes eqc) x).
  - unfold replaceAll. cbn [replaceAllFrom].
    destruct (search (Pat.lowRes eqc) (baseOf (split "?"%char x)))
      as [[[pre mt] post]|] eqn:E.
    + pose proof E as (Hb & _ & _)%search_sound. rewrite <- !app_assoc.
      apply (Hins pre (mt ++ post ++ queryOf (split "?"%char x) ++ tl)).
      rewrite Hx at 1. rewrite Hb. by rewrite <- !app_assoc.
    + intros H. unfold isDataUri in *. apply (startsWith_prefix _ _ tl) in H.
      rewrite <- app_assoc, <- Hx in H. congruence.
  - destruct (includes "alicdn.com" x && negb (test Pat.anySize x)); [|congruence].
    destruct (test Pat.extAtEnd (baseOf (split "?"%char x)) && _); [|congruence].
    unfold replaceFirst.
    destruct (search Pat.extAtEnd (baseOf (split "?"%char x)))
      as [[[pre mt] post]|] eqn:E.
    + pose proof E as (Hb & _ & _)%search_sound. unfold insertSuffix.
      rewrite <- !app_assoc.
      apply (Hins pre (mt ++ post ++ queryOf (split "?"%char x) ++ tl)).
      rewrite Hx at 1. rewrite Hb. by rewrite <- !app_assoc.
    + intros H. unfold isDataUri in *. apply (startsWith_prefix _ _ tl) in H.
      rewrite <- app_assoc, <- Hx in H. congruence.
Qed.

Lemma extract_adds_no_data productId (ms : list str) : forall acc u,
  u ∈ imageUrls (fold_left (processMatch productId) ms acc).1 ->
  u ∈ imageUrls acc.1 \/ isDataUri u = false.
Proof.
  induction ms as [|mt ms IH]; intros acc u; simpl; [auto|].
  intros [Hu|Hu]%IH; [|auto]. revert Hu. unfold processMatch.
  destruct (isDataUri (cleanUp mt)) eqn:Hd; [auto|].
  destruct (isExcluded (cleanUp mt)); [auto|].
  simpl. rewrite imageUrls_addUrl. intros [->|Hu]%elem_of_setAdd; [|auto].
  right. by apply isDataUri_upgradeUrl.
Qed.

Lemma no_data_reachable st :
  reachable st -> forall pid u, u ∈ getProductUrls pid st -> isDataUri u = false.
Proof.
  induction 1 as [|st bodyString productId _ IH|st url _ IH|st _ _].
  - intros pid u. rewrite getProductUrls_empty. by intros ?%elem_of_nil.
  - apply (extract_preserves_accepted
             (fun s => forall pid u, u ∈ getProductUrls pid s -> isDataUri u = false)); [|done].
    clear. intros mt s Hd _ Hs pid u [->|Hu]%getProductUrls_addUrl; [|by apply (Hs pid)].
    by apply isDataUri_upgradeUrl.
  - intros pid u. unfold getProductUrls. rewrite productImages_intercept. apply IH.
  - intros pid u. rewrite getProductUrls_empty. by intros ?%elem_of_nil.
Qed.

(** X5: no URL of a product set starts with [data:], and
    [extractFromResponse] adds no such URL to the global set: the
    upgrade step cannot turn an accepted candidate into one.  The test
    is case-sensitive while the pattern for data URIs is not: a data
    URI written [DATA:] is stored. *)
Theorem data_uris_are_not_filed (st : store) :
  reachable st ->
  (forall pid u, u ∈ getProductUrls pid st -> isDataUri u = false) /\
  (forall bodyString productId u,
      u ∈ imageUrls (extractFromResponse bodyString productId st).1 ->
      u ∈ imageUrls st \/ isDataUri u = false) /\
  (forall cleanUrl, isDataUri cleanUrl = false -> isDataUri (upgradeUrl cleanUrl) = false) /\
  (extractFromResponse Inputs.upperCaseData None empty).1
  = Store [Inputs.upperCaseData] ∅.
Proof.
  intros Hr. split; [by apply no_data_reachable|]. split; [|split].
  - intros bodyString productId u. rewrite extractFromResponse_candidates.
    apply extract_adds_no_data.
  - apply isDataUri_upgradeUrl.
  - by vm_compute.
Qed.

Lemma data_uris_are_not_filed_witness :
  let st := (extractFromResponse Sample.payload (Some ("42" : str)) empty).1 in
  reachable st /\
  (forall pid u, u ∈ getProductUrls pid st -> isDataUri u = false).
Proof.
  split.
  - apply reach_extract, reach_empty.
  - apply (data_uris_are_not_filed _
             (reach_extract _ Sample.payload (Some ("42" : str)) reach_empty)).
Defined.

(** ** The query string on both intake paths *)

Lemma query_preserved_direct (base q : str) :
  Forall (fun d => eqc d "?"%char = false) base ->
  Forall (fun d => eqc d "?"%char = false) q ->
  queryComponent (Interception.upgradeDirect (base ++ "?" ++ q)) = q.
Proof.
  intros Hb Hq. unfold queryComponent.
  assert (Hsame : ImageDownloader.dropUntil "?"%char (base ++ "?" ++ q) = q)
    by (by apply dropUntil_skip).
  assert (Hmod : forall base' : str,
    Forall (fun d => eqc d "?"%char = false) base' ->
    ImageDownloader.dropUntil "?"%char (base' ++ queryOf [base; q]) = q).
  { intros base' Hb'. destruct q as [|c q]; simpl.
    - rewrite app_nil_r. by apply dropUntil_none.
    - by apply dropUntil_skip. }
  unfold Interception.upgradeDirect. change ("?" ++ q) with ("?"%char :: q) in *.
  rewrite (split_single _ _ _ Hb Hq). simpl baseOf.
  destruct (negb (test (Pat.highRes eqci) _)); [|done].
  destruct (test (Pat.lowRes' eqci) _).
  - apply Hmod. apply replaceAllFrom_Forall; [intros _; apply hiResSuffix_no_mark|done].
  - destruct (negb (test Pat.anySize _)); [|done].
    destruct (test Pat.extAtEnd base && _); [|done].
    apply Hmod. apply replaceFirst_Forall; [|done].
    intros mt Hmt. apply Forall_app. split; [apply hiResSuffix_no_mark|done].
Qed.

(** X7: when a URL has exactly one question mark, whatever the upgrade
    step of [extractFromResponse] or the one of the response handler
    does to the path, the text after the question mark is returned
    unchanged. *)
Theorem query_survives_with_one_mark (base q : str) :
  Forall (fun d => eqc d "?"%char = false) base ->
  Forall (fun d => eqc d "?"%char = false) q ->
  queryComponent (upgradeUrl (base ++ "?" ++ q)) = q /\
  queryComponent (Interception.upgradeDirect (base ++ "?" ++ q)) = q.
Proof.
  intros Hb Hq. split; [by apply query_preserved|by apply query_preserved_direct].
Qed.

Lemma no_mark_in (s : str) :
  forallb (fun d => negb (eqc d "?"%char)) s = true ->
  Forall (fun d => eqc d "?"%char = false) s.
Proof.
  rewrite forallb_forall. intros H. apply Forall_forall. intros c Hc.
  apply negb_true_iff, H. by apply list_elem_of_In.
Qed.

Lemma query_survives_with_one_mark_witness :
  queryComponent (upgradeUrl (Inputs.thumbnail ++ "?" ++ "x=1&y=2")) = ("x=1&y=2" : str) /\
  queryComponent (Interception.upgradeDirect (Inputs.thumbnail ++ "?" ++ "x=1&y=2"))
  = ("x=1&y=2" : str).
Proof.
  apply (query_survives_with_one_mark Inputs.thumbnail "x=1&y=2").
  - apply no_mark_in. reflexivity.
  - apply no_mark_in. reflexivity.
Defined.

(** ** Instances of the idempotence results *)

Lemma urlText_of (s : str) : forallb Pat.urlChar s = true -> urlText s.
Proof.
  rewrite forallb_forall. intros H. apply Forall_forall. intros c Hc.
  apply H. by apply list_elem_of_In.
Qed.

Lemma canonicalize_idempotent_one_mark_witness :
  canonicalize "https://sc04.alicdn.com/kf/a_960x960q80.jpg?x=1"
  = Some ("https://sc04.alicdn.com/kf/a_960x960q80.jpg?x=1" : str).
Proof.
  apply (canonicalize_idempotent_one_mark "https://sc04.alicdn.com/kf/a.jpg?x=1").
  - apply urlText_of. reflexivity.
  - vm_compute. lia.
  - reflexivity.
Defined.

Lemma earlier_canonicalize_idempotent_witness :
  Earlier.canonicalize "https://sc04.alicdn.com/kf/a_800x800.jpg"
  = Some ("https://sc04.alicdn.com/kf/a_800x800.jpg" : str).
Proof.
  apply (earlier_canonicalize_idempotent Inputs.thumbnail).
  - apply urlText_of. reflexivity.
  - reflexivity.
Defined.

(** ** The result of an attempt *)

Section FinishProps.
Context {W : Type}.
Variable downloadImage : str -> str -> str -> nat -> W -> (str + str) * W.

Lemma loop_all_fail (download : str -> nat -> W -> (str + str) * W)
    (uniqueImages : list str) : forall b i,
  (forall u k w, exists e w', download u k w = (inr e, w')) ->
  ImageDownloader.downloaded (ImageDownloader.loop download b i uniqueImages)
  = ImageDownloader.downloaded b.
Proof.
  induction uniqueImages as [|u us IH]; intros b i Hfail; simpl; [done|].
  rewrite IH by done. unfold ImageDownloader.iteration.
  destruct (decide (u ∈ ImageDownloader.seenUrls b)); [done|].
  destruct (Hfail u i (ImageDownloader.world b)) as (e & w' & ->). done.
Qed.

End FinishProps.

Lemma downloadAll_accounts_for_every_url_aux {W : Type}
    (download : str -> nat -> W -> (str + str) * W) (images : list str) (w : W) :
  List.length (ImageDownloader.downloaded (ImageDownloader.downloadAll download images w).1)
  + List.length (ImageDownloader.failed (ImageDownloader.downloadAll download images w).1)
  = List.length (setFrom images).
Proof.
  unfold ImageDownloader.downloadAll. cbn [fst].
  destruct (loop_accounts download (setFrom images) (ImageDownloader.Batch [] [] [] [] w) 0)
    as (Hl & _); [apply NoDup_setFrom|]. simpl in Hl. lia.
Qed.

(** X26: an attempt of [scrapeProductPage] reports [success: false]
    exactly when no URL was selected; otherwise it reports
    [success: true] with [totalFound] the number of selected URLs, which
    for a reachable store is the number of downloads attempted, and with
    at most that many downloaded paths; the report is [success: true]
    with no image at all when every download fails. *)
Theorem attempt_result {W : Type}
    (downloadImage : str -> str -> str -> nat -> W -> (str + str) * W)
    (productInfo : option str * option str) (st : store) (w : W) :
  reachable st ->
  let productId := ProductId.orUnknown productInfo.1 in
  ((Page.finish downloadImage productInfo st w).1 = Page.NoImages <->
   selectImageUrls productId st = []) /\
  (forall pid name images totalFound,
      (Page.finish downloadImage productInfo st w).1 = Page.Scraped pid name images totalFound ->
      pid = productId /\
      totalFound = List.length (selectImageUrls productId st) /\
      totalFound = List.length
        (ImageDownloader.calls
           (ImageDownloader.downloadAll (downloadImage pid name)
              (selectImageUrls productId st) w).1) /\
      0 < totalFound /\
      List.length images <= totalFound) /\
  ((forall pid name u k w0, exists e w', downloadImage pid name u k w0 = (inr e, w')) ->
   selectImageUrls productId st <> [] ->
   exists name,
     (Page.finish downloadImage productInfo st w).1
     = Page.Scraped productId name [] (List.length (selectImageUrls productId st))).
Proof.
  intros Hr. cbv zeta. unfold Page.finish. cbv zeta.
  set (productId := ProductId.orUnknown productInfo.1).
  set (productName := match truthy productInfo.2 with Some name => name | None => _ end).
  assert (Hn : NoDup (selectImageUrls productId st)).
  { destruct (wellFormed_reachable st Hr) as (Hg & Hp & _). by apply NoDup_selectImageUrls. }
  destruct (selectImageUrls productId st) as [|u urls] eqn:Es.
  - cbn [List.length Nat.eqb fst]. split; [done|]. split; [done|]. by intros _ H.
  - cbn [List.length Nat.eqb fst]. split; [done|]. split.
    + intros pid name images totalFound [= <- <- <- <-].
      split; [done|]. split; [done|].
      pose proof (downloadAll_accounts_for_every_url_aux (downloadImage productId productName)
                    (u :: urls) w) as Hl.
      rewrite downloadAll_calls, length_imap.
      unfold ImageDownloader.downloadAll in *. cbn [fst] in *.
      rewrite (setFrom_NoDup_id _ Hn) in *. cbn [List.length] in *.
      split; [done|]. split; lia.
    + intros Hfail _. exists productName. f_equal.
      unfold ImageDownloader.downloadAll. cbn [fst].
      by rewrite (loop_all_fail (downloadImage productId productName)).
Qed.

Lemma attempt_result_witness :
  let download := fun (_ _ _ : str) (_ : nat) (w : unit) => (inr [] : str + str, w) in
  let st := (extractFromResponse Sample.payload (Some ("42" : str)) empty).1 in
  reachable st /\
  ((Page.finish download (Some ("42" : str), None) st tt).1 = Page.NoImages <->
   selectImageUrls "42" st = []).
Proof.
  split.
  - apply reach_extract, reach_empty.
  - apply (attempt_result (fun (_ _ _ : str) (_ : nat) (w : unit) => (inr [] : str + str, w))
             (Some ("42" : str), None) _ tt
             (reach_extract _ Sample.payload (Some ("42" : str)) reach_empty)).
Defined.

(** ** The main-module test *)

Lemma normalize_app (a b : str) :
  MainModule.normalize (a ++ b) = MainModule.normalize a ++ MainModule.normalize b.
Proof.
  unfold MainModule.normalize. change (list_ascii_of_string "/") with ["/"%char].
  by rewrite !replaceAll_Chr_map, map_app.
Qed.

Lemma endsWith_app (suffix a : str) : MainModule.endsWith suffix (a ++ suffix) = true.
Proof. unfold MainModule.endsWith. rewrite rev_app_distr. apply startsWith_app. Qed.

Lemma startsWith_shorter (p q s : str) :
  startsWith (p ++ q) s = true -> startsWith p s = true.
Proof.
  revert s. induction p as [|x p IH]; intros s; [done|].
  destruct s as [|y s]; simpl; [done|]. intros [-> H]%andb_prop. by rewrite (IH s H).
Qed.

(** X27: [isMainModule] is false without [process.argv[1]]; otherwise it
    is true exactly when the two paths are equal once backslashes are
    turned into slashes or the main path ends with [scraper.js] (the
    third test, on [/scraper.js], adds nothing); so the module runs
    [main] for every entry script whose name ends with [scraper.js],
    in any directory and with either path separator, whatever the path
    of the module itself is. *)
Theorem main_module_test (urlPath : str) :
  MainModule.isMainModule urlPath None = false /\
  MainModule.isMainModule urlPath (Some []) = false /\
  (forall mainPath,
      mainPath <> [] ->
      MainModule.isMainModule urlPath (Some mainPath)
      = bool_decide (MainModule.normalize urlPath = MainModule.normalize mainPath)
        || MainModule.endsWith "scraper.js" (MainModule.normalize mainPath)) /\
  (forall prefix,
      MainModule.isMainModule urlPath (Some (prefix ++ "scraper.js")) = true).
Proof.
  split; [done|]. split; [done|].
  assert (Hthird : forall s,
    MainModule.endsWith "/scraper.js" s = true -> MainModule.endsWith "scraper.js" s = true).
  { intros s. unfold MainModule.endsWith.
    change (rev (list_ascii_of_string "/scraper.js"))
      with (rev (list_ascii_of_string "scraper.js") ++ ["/"%char]).
    apply startsWith_shorter. }
  split.
  - intros [|c mainPath] Hne; [done|]. unfold MainModule.isMainModule. cbn [truthy].
    destruct (MainModule.endsWith "/scraper.js" _) eqn:E; [|by rewrite orb_false_r].
    rewrite (Hthird _ E). by rewrite !orb_true_r.
  - intros prefix. unfold MainModule.isMainModule.
    assert (Hn : MainModule.normalize (prefix ++ "scraper.js")
                 = MainModule.normalize prefix ++ "scraper.js").
    { rewrite normalize_app. f_equal. }
    destruct (truthy (Some (prefix ++ "scraper.js"))) as [m|] eqn:Et.
    + assert (m = prefix ++ "scraper.js") as ->.
      { destruct prefix; simpl in Et; by injection Et as <-. }
      rewrite Hn, endsWith_app. by rewrite orb_true_r.
    + by destruct prefix.
Qed.
